(** * GP5 binary tablature decoder: a shallow embedding of [analyze_gp5.py]

    The repository is a collection of diagnostic scripts around one decoder
    of the Guitar Pro 5 format.  The most complete copy is the class
    [GP5Analyzer] of [analyze_gp5.py]; it is embedded here function by
    function.  The Python object carries the immutable byte buffer [data],
    the cursor [pos] and the parsed version; every reader is a computation
    over that object which either returns a value and the updated object or
    raises ([IndexError] from [data[pos]], [struct.error] from
    [struct.unpack] on a short slice).  [print] calls are not modelled.

    The file has the decoder first, then the writer script
    [test_gp5_with_notes.py], the readers of [debug_full_gp5_parse.py] and
    [test_gp5_writer.py], an encoder of measures modelled from the
    specification, the vocabulary of the statements (the bytes in front of
    the cursor, field by field), and last the statements and their
    proofs. *)

From Stdlib Require Import ZArith List Lia Bool String Ascii.
From Stdlib Require Import Strings.Byte.
From Stdlib Require Import Sorting.Sorted.
Import ListNotations.
Open Scope Z_scope.

(** ** The reader object and the exception monad *)

Inductive exn : Type :=
| IndexError
| StructError.

Record GP5Analyzer : Type := mkAnalyzer {
  data : list byte;
  pos : nat;
  version : option string;
  versionTuple : Z * Z * Z
}.

(** [GP5Analyzer.__init__]: cursor at 0, no version string yet, and the
    version tuple preset to (5, 0, 0). *)
Definition init (bytes : list byte) : GP5Analyzer :=
  mkAnalyzer bytes 0 None (5, 0, 0).

Inductive result (A : Type) : Type :=
| Ok (a : A) (s : GP5Analyzer)
| Raise (e : exn).
Arguments Ok {A} a s.
Arguments Raise {A} e.

Definition M (A : Type) : Type := GP5Analyzer -> result A.

Definition ret {A} (a : A) : M A := fun s => Ok a s.

Definition bind {A B} (m : M A) (k : A -> M B) : M B :=
  fun s => match m s with
           | Ok a s' => k a s'
           | Raise e => Raise e
           end.

Declare Scope gp5_scope.
Delimit Scope gp5_scope with gp5.
Notation "x <- m ;; k" := (bind m (fun x => k))
  (at level 61, m at next level, right associativity) : gp5_scope.
Notation "m ;;; k" := (bind m (fun _ => k))
  (at level 61, right associativity) : gp5_scope.
Open Scope gp5_scope.

(** [self.pos += n] *)
Definition advance (n : nat) (s : GP5Analyzer) : GP5Analyzer :=
  mkAnalyzer (data s) (pos s + n) (version s) (versionTuple s).

(** [for _ in range(n): body], collecting the values of the body. *)
Fixpoint repeatM {A} (n : nat) (m : M A) : M (list A) :=
  match n with
  | O => ret []
  | S n' => x <- m ;; xs <- repeatM n' m ;; ret (x :: xs)
  end.

(** [for i in range(a, a + n): body i] *)
Fixpoint forM {A} (n : nat) (i : nat) (body : nat -> M A) : M (list A) :=
  match n with
  | O => ret []
  | S n' => x <- body i ;; xs <- forM n' (S i) body ;; ret (x :: xs)
  end.

(** ** Bytes, slices and [struct.unpack] *)

Definition byte_val (b : byte) : Z := Z.of_N (Byte.to_N b).

(** [data[a:b]] for [0 <= a <= b]; a slice never raises, it is cut at the
    end of the buffer. *)
Definition slice (d : list byte) (a b : nat) : list byte :=
  firstn (b - a) (skipn a d).

Fixpoint le_unsigned (bs : list byte) : Z :=
  match bs with
  | [] => 0
  | b :: r => byte_val b + 256 * le_unsigned r
  end.

Definition to_signed (bits : Z) (u : Z) : Z :=
  if u <? 2 ^ (bits - 1) then u else u - 2 ^ bits.

(** [struct.unpack] with the formats ['b'], ['<h'], ['<i'] (signed, 1, 2
    and 4 bytes, little endian); [None] is [struct.error], raised when the
    buffer does not have exactly the size of the format. *)
Definition struct_unpack (size : nat) (buf : list byte) : option Z :=
  if Nat.eqb (List.length buf) size
  then Some (to_signed (8 * Z.of_nat size) (le_unsigned buf))
  else None.

(** [bytes.decode('latin-1', errors='replace')]: every byte is the character
    of the same code, nothing is ever replaced. *)
Definition decode_latin1 (bs : list byte) : string := string_of_list_byte bs.

(** ** Scalar readers *)

Definition read_byte : M Z := fun s =>
  match nth_error (data s) (pos s) with
  | Some b => Ok (byte_val b) (advance 1 s)
  | None => Raise IndexError
  end.

Definition read_unpack (size : nat) : M Z := fun s =>
  match struct_unpack size (slice (data s) (pos s) (pos s + size)) with
  | Some v => Ok v (advance size s)
  | None => Raise StructError
  end.

Definition read_sbyte : M Z := read_unpack 1.
Definition read_short : M Z := read_unpack 2.
Definition read_int : M Z := read_unpack 4.

Definition read_bool : M bool :=
  v <- read_byte ;; ret (negb (v =? 0)).

Definition skip (count : nat) : M unit := fun s => Ok tt (advance count s).

(** The slice [data[pos:pos+n]] at the cursor, which is not moved. *)
Definition peek (n : nat) : M (list byte) := fun s =>
  Ok (slice (data s) (pos s) (pos s + n)) s.

(** ** Strings *)

Definition read_byte_size_string (size : nat) : M string :=
  length <- read_byte ;;
  s <- peek (Z.to_nat length) ;;
  skip size ;;;
  ret (decode_latin1 s).

Definition read_int_byte_size_string : M string :=
  total_size <- read_int ;;
  if total_size <=? 0 then ret EmptyString
  else
    actual_len <- read_byte ;;
    s <- peek (Z.to_nat actual_len) ;;
    skip (Z.to_nat (total_size - 1)) ;;;
    ret (decode_latin1 s).

Definition read_int_size_string : M string :=
  length <- read_int ;;
  if length <=? 0 then ret EmptyString
  else
    s <- peek (Z.to_nat length) ;;
    skip (Z.to_nat length) ;;;
    ret (decode_latin1 s).

(** ** Version *)

(** Python's lexicographic comparison of 3-tuples of ints. *)
Definition tuple_ltb (a b : Z * Z * Z) : bool :=
  let '(a1, a2, a3) := a in
  let '(b1, b2, b3) := b in
  (a1 <? b1) || ((a1 =? b1) && ((a2 <? b2) || ((a2 =? b2) && (a3 <? b3)))).

Definition tuple_gtb (a b : Z * Z * Z) : bool := tuple_ltb b a.
Definition tuple_geb (a b : Z * Z * Z) : bool := negb (tuple_ltb a b).

Definition tuple_eqb (a b : Z * Z * Z) : bool :=
  let '(a1, a2, a3) := a in
  let '(b1, b2, b3) := b in
  (a1 =? b1) && (a2 =? b2) && (a3 =? b3).

(** Python's [needle in hay] on strings. *)
Fixpoint contains (needle hay : string) : bool :=
  prefix needle hay ||
  match hay with
  | EmptyString => false
  | String _ t => contains needle t
  end.

Definition get_versionTuple : M (Z * Z * Z) := fun s => Ok (versionTuple s) s.

Definition set_version (v : string) : M unit := fun s =>
  Ok tt (mkAnalyzer (data s) (pos s) (Some v) (versionTuple s)).

Definition set_versionTuple (t : Z * Z * Z) : M unit := fun s =>
  Ok tt (mkAnalyzer (data s) (pos s) (version s) t).

Definition marker_v500 : string := "FICHIER GUITAR PRO v5.00".
Definition marker_v510 : string := "FICHIER GUITAR PRO v5.10".

Definition read_version : M string :=
  version <- read_byte_size_string 30 ;;
  set_version version ;;;
  (if contains marker_v500 version then set_versionTuple (5, 0, 0)
   else if contains marker_v510 version then set_versionTuple (5, 1, 0)
   else ret tt) ;;;
  ret version.

(** ** Song header *)

Definition read_info : M (string * string) :=
  title <- read_int_byte_size_string ;;
  subtitle <- read_int_byte_size_string ;;
  artist <- read_int_byte_size_string ;;
  album <- read_int_byte_size_string ;;
  words <- read_int_byte_size_string ;;
  music <- read_int_byte_size_string ;;
  copyright <- read_int_byte_size_string ;;
  tab <- read_int_byte_size_string ;;
  instructions <- read_int_byte_size_string ;;
  notice_count <- read_int ;;
  repeatM (Z.to_nat notice_count) read_int_byte_size_string ;;;
  ret (title, artist).

Definition read_lyrics : M unit :=
  track_num <- read_int ;;
  repeatM 5 (read_int ;;; read_int_size_string) ;;;
  ret tt.

Definition read_rse_master_effect : M unit :=
  v <- get_versionTuple ;;
  if tuple_gtb v (5, 0, 0) then
    read_int ;;;
    read_int ;;;
    repeatM 11 read_sbyte ;;;
    read_byte ;;;
    ret tt
  else ret tt.

Definition read_page_setup : M unit :=
  width <- read_int ;;
  height <- read_int ;;
  left <- read_int ;;
  right <- read_int ;;
  top <- read_int ;;
  bottom <- read_int ;;
  score_size <- read_int ;;
  flags <- read_short ;;
  repeatM 10 read_int_byte_size_string ;;;
  ret tt.

Definition read_directions : M unit :=
  repeatM 19 read_short ;;; ret tt.

Definition read_midi_channels : M unit :=
  repeatM 64
    (read_int ;;; read_byte ;;; read_byte ;;; read_byte ;;;
     read_byte ;;; read_byte ;;; read_byte ;;; skip 2) ;;;
  ret tt.

(** The tempo lines of [analyze]: tempo name, tempo, and the hide-tempo
    bool of GP5.1+. *)
Definition read_tempo : M (string * Z) :=
  tempo_name <- read_int_byte_size_string ;;
  tempo <- read_int ;;
  v <- get_versionTuple ;;
  (if tuple_gtb v (5, 0, 0) then read_bool ;;; ret tt else ret tt) ;;;
  ret (tempo_name, tempo).

(** ** Measure headers *)

(** Truth value of [flags & mask]. *)
Definition flag_set (flags mask : Z) : bool := negb (Z.land flags mask =? 0).

(** [if cond: x = m] for a key of a dict that is otherwise absent. *)
Definition when {A} (cond : bool) (m : M A) : M (option A) :=
  if cond then x <- m ;; ret (Some x) else ret None.

(** The dict [header]; a key that the code sets only under a flag is an
    option, [repeatOpen] and [doubleBar] are present (and True) or absent. *)
Record header : Type := mkHeader {
  h_number : Z;
  h_flags : Z;
  h_numerator : option Z;
  h_denominator : option Z;
  h_repeatOpen : bool;
  h_repeatClose : option Z;
  h_marker : option string;
  h_doubleBar : bool
}.

(** The body of the loop of [read_measure_headers] for index [i]. *)
Definition read_measure_header (i : nat) : M header :=
  v <- get_versionTuple ;;
  (if (0 <? i)%nat || negb (tuple_eqb v (5, 0, 0))
   then (if (0 <? i)%nat then skip 1 else ret tt)
   else ret tt) ;;;
  flags <- read_byte ;;
  numerator <- when (flag_set flags 0x01) read_byte ;;
  denominator <- when (flag_set flags 0x02) read_byte ;;
  repeatClose <- when (flag_set flags 0x08) read_byte ;;
  marker <- when (flag_set flags 0x20)
              (marker_name <- read_int_byte_size_string ;;
               read_int ;;;
               ret marker_name) ;;
  when (flag_set flags 0x40) (read_sbyte ;;; read_sbyte) ;;;
  when (flag_set flags 0x10) read_byte ;;;
  when (flag_set flags 0x03) (repeatM 4 read_byte) ;;;
  when (Z.land flags 0x10 =? 0) (skip 1) ;;;
  read_byte ;;;
  ret (mkHeader (Z.of_nat i + 1) flags numerator denominator
         (flag_set flags 0x04) repeatClose marker (flag_set flags 0x80)).

Definition read_measure_headers (count : Z) : M (list header) :=
  forM (Z.to_nat count) 0 read_measure_header.

(** ** Tracks *)

Definition read_rse_instrument : M (Z * Z * Z) :=
  instrument <- read_int ;;
  unknown <- read_int ;;
  sound_bank <- read_int ;;
  v <- get_versionTuple ;;
  effect_number <-
    (if tuple_eqb v (5, 0, 0)
     then (e <- read_short ;; skip 1 ;;; ret e)
     else read_int) ;;
  ret (instrument, sound_bank, effect_number).

Definition read_track_rse : M unit :=
  humanize <- read_byte ;;
  repeatM 3 read_int ;;;
  skip 12 ;;;
  read_rse_instrument ;;;
  v <- get_versionTuple ;;
  if tuple_gtb v (5, 0, 0) then
    repeatM 4 read_sbyte ;;;
    read_int_byte_size_string ;;;
    read_int_byte_size_string ;;;
    ret tt
  else ret tt.

Record track : Type := mkTrack {
  t_number : Z;
  t_isPercussion : bool;
  t_flags1 : Z;
  t_name : string;
  t_stringCount : Z;
  t_channel : Z;
  t_flags2 : Z;
  t_measures : list unit
}.

(** The body of the loop of [read_tracks] for index [i]. *)
Definition read_track (measure_count : Z) (i : nat) : M track :=
  v <- get_versionTuple ;;
  (if (i =? 0)%nat || tuple_eqb v (5, 0, 0) then skip 1 else ret tt) ;;;
  flags1 <- read_byte ;;
  name <- read_byte_size_string 40 ;;
  string_count <- read_int ;;
  repeatM 7 read_int ;;;
  read_int ;;;
  channel_idx <- read_int ;;
  read_int ;;;
  read_int ;;;
  read_int ;;;
  read_byte ;;;
  read_byte ;;;
  read_byte ;;;
  skip 1 ;;;
  flags2 <- read_short ;;
  read_byte ;;;
  read_byte ;;;
  read_track_rse ;;;
  ret (mkTrack (Z.of_nat i + 1) (flag_set flags1 0x01) flags1 name
         string_count channel_idx flags2
         (repeat tt (Z.to_nat measure_count))).

Definition read_tracks (count measure_count : Z) : M (list track) :=
  tracks <- forM (Z.to_nat count) 0 (read_track measure_count) ;;
  v <- get_versionTuple ;;
  (if tuple_eqb v (5, 0, 0) then skip 2 else skip 1) ;;;
  ret tracks.

(** ** Notes *)

(** Bend of a note and tremolo bar of a beat: type, value, point count and
    that many (position, value, vibrato) triples. *)
Definition read_points : M unit :=
  read_byte ;;;
  read_int ;;;
  point_count <- read_int ;;
  repeatM (Z.to_nat point_count) (read_int ;;; read_int ;;; read_byte) ;;;
  ret tt.

Definition read_note_effects : M unit :=
  flags1 <- read_byte ;;
  flags2 <- read_byte ;;
  when (flag_set flags1 0x01) read_points ;;;
  when (flag_set flags1 0x10)
    (read_byte ;;; read_byte ;;; read_byte ;;; read_byte ;;; read_byte) ;;;
  when (flag_set flags2 0x04) read_byte ;;;
  when (flag_set flags2 0x08) read_byte ;;;
  when (flag_set flags2 0x10)
    (harmonic_type <- read_sbyte ;;
     if harmonic_type =? 2 then read_byte ;;; read_sbyte ;;; read_byte ;;; ret tt
     else if harmonic_type =? 3 then read_byte ;;; ret tt
     else ret tt) ;;;
  when (flag_set flags2 0x20) (read_byte ;;; read_byte) ;;;
  ret tt.

(** The dict [note]; [fret] is preset to 0, [string] is set by [read_beat]. *)
Record note : Type := mkNote {
  n_pos : nat;
  n_flags : Z;
  n_fret : Z;
  n_type : option Z;
  n_velocity : option Z;
  n_flags2 : Z;
  n_string : option Z
}.

Definition get_pos : M nat := fun s => Ok (pos s) s.

Definition read_note : M note :=
  start_pos <- get_pos ;;
  flags <- read_byte ;;
  note_type <- when (flag_set flags 0x20) read_byte ;;
  velocity <- when (flag_set flags 0x10) read_sbyte ;;
  fret <- when (flag_set flags 0x20) read_sbyte ;;
  when (flag_set flags 0x80) (read_sbyte ;;; read_sbyte) ;;;
  when (flag_set flags 0x01) (skip 8) ;;;
  flags2 <- read_byte ;;
  when (flag_set flags 0x08) read_note_effects ;;;
  ret (mkNote start_pos flags
         (match fret with Some f => f | None => 0 end)
         note_type velocity flags2 None).

(** ** Beats *)

Definition read_beat_effects : M unit :=
  flags1 <- read_byte ;;
  flags2 <- read_byte ;;
  when (flag_set flags1 0x20) read_sbyte ;;;
  when (flag_set flags2 0x04) read_points ;;;
  when (flag_set flags1 0x40) (read_byte ;;; read_byte) ;;;
  when (flag_set flags2 0x02) read_sbyte ;;;
  ret tt.

Definition read_chord : M unit :=
  new_format <- read_byte ;;
  if new_format =? 0 then
    name <- read_int_byte_size_string ;;
    first_fret <- read_int ;;
    (if 0 <? first_fret then repeatM 6 read_int ;;; ret tt else ret tt)
  else
    read_bool ;;;
    skip 3 ;;;
    read_byte ;;;
    read_byte ;;;
    read_byte ;;;
    read_int ;;;
    read_int ;;;
    read_bool ;;;
    read_byte_size_string 21 ;;;
    read_byte ;;;
    read_byte ;;;
    read_byte ;;;
    read_int ;;;
    repeatM 7 read_sbyte ;;;
    read_byte ;;;
    repeatM 5 read_byte ;;;
    repeatM 5 read_byte ;;;
    repeatM 5 read_byte ;;;
    repeatM 7 read_bool ;;;
    skip 1 ;;;
    repeatM 7 read_sbyte ;;;
    read_bool ;;;
    ret tt.

Definition read_mix_table : M unit :=
  instrument <- read_sbyte ;;
  read_int ;;;
  read_int ;;;
  read_int ;;;
  v <- get_versionTuple ;;
  (if tuple_eqb v (5, 0, 0) then read_short ;;; skip 1 else read_int ;;; ret tt) ;;;
  volume <- read_sbyte ;;
  balance <- read_sbyte ;;
  chorus <- read_sbyte ;;
  reverb <- read_sbyte ;;
  phaser <- read_sbyte ;;
  tremolo <- read_sbyte ;;
  tempo_name <- read_int_byte_size_string ;;
  tempo <- read_int ;;
  when (0 <=? volume) read_byte ;;;
  when (0 <=? balance) read_byte ;;;
  when (0 <=? chorus) read_byte ;;;
  when (0 <=? reverb) read_byte ;;;
  when (0 <=? phaser) read_byte ;;;
  when (0 <=? tremolo) read_byte ;;;
  when (0 <=? tempo)
    (read_byte ;;; when (tuple_geb v (5, 1, 0)) read_bool) ;;;
  read_byte ;;;
  when (tuple_geb v (5, 1, 0)) read_sbyte ;;;
  read_int_byte_size_string ;;;
  read_int_byte_size_string ;;;
  ret tt.

(** The dict [beat]. *)
Record beat : Type := mkBeat {
  b_pos : nat;
  b_flags : Z;
  b_notes : list note;
  b_status : option Z;
  b_duration : Z;
  b_tuplet : option Z;
  b_text : option string;
  b_stringFlags : Z;
  b_flags2 : Z
}.

Definition set_string (n : note) (string_num : Z) : note :=
  mkNote (n_pos n) (n_flags n) (n_fret n) (n_type n) (n_velocity n)
    (n_flags2 n) (Some string_num).

(** [for s in range(6, -1, -1): if string_flags & (1 << s): ...], over the
    values of [s] still to come. *)
Fixpoint read_notes (ss : list Z) (string_flags : Z) : M (list note) :=
  match ss with
  | [] => ret []
  | s :: rest =>
      if flag_set string_flags (Z.shiftl 1 s) then
        n <- read_note ;;
        ns <- read_notes rest string_flags ;;
        ret (set_string n (6 - s) :: ns)
      else read_notes rest string_flags
  end.

Definition string_range : list Z := [6; 5; 4; 3; 2; 1; 0].

Definition read_beat : M beat :=
  start_pos <- get_pos ;;
  flags <- read_byte ;;
  status <- when (flag_set flags 0x40) read_byte ;;
  duration <- read_sbyte ;;
  tuplet <- when (flag_set flags 0x20) read_int ;;
  when (flag_set flags 0x02) read_chord ;;;
  text <- when (flag_set flags 0x04) read_int_byte_size_string ;;
  when (flag_set flags 0x08) read_beat_effects ;;;
  when (flag_set flags 0x10) read_mix_table ;;;
  string_flags <- read_byte ;;
  notes <- read_notes string_range string_flags ;;
  flags2 <- read_short ;;
  when (flag_set flags2 0x0800) read_byte ;;;
  ret (mkBeat start_pos flags notes status duration tuplet text
         string_flags flags2).

(** ** Voices and measures *)

Definition read_voice : M (list beat) :=
  beat_count <- read_int ;;
  if (beat_count <? 0) || (128 <? beat_count) then ret []
  else repeatM (Z.to_nat beat_count) read_beat.

Definition read_measure : M (list beat * list beat) :=
  voice1 <- read_voice ;;
  voice2 <- read_voice ;;
  read_byte ;;;
  ret (voice1, voice2).

(** ** The whole file *)

(** What [analyze] reads: it returns nothing itself and prints these. *)
Record analysis : Type := mkAnalysis {
  a_version : string;
  a_title : string;
  a_artist : string;
  a_tempo : Z;
  a_headers : list header;
  a_tracks : list track;
  a_measures : list (list (list beat * list beat))
}.

Definition analyze : M analysis :=
  version <- read_version ;;
  info <- read_info ;;
  read_lyrics ;;;
  read_rse_master_effect ;;;
  read_page_setup ;;;
  tempo <- read_tempo ;;
  read_sbyte ;;;
  read_int ;;;
  read_midi_channels ;;;
  read_directions ;;;
  read_int ;;;
  measure_count <- read_int ;;
  track_count <- read_int ;;
  headers <- read_measure_headers measure_count ;;
  tracks <- read_tracks track_count measure_count ;;
  measures <- repeatM (Z.to_nat (Z.min measure_count 10))
                (repeatM (Z.to_nat track_count) read_measure) ;;
  ret (mkAnalysis version (fst info) (snd info) (snd tempo)
         headers tracks measures).

(** * The writer of [test_gp5_with_notes.py]

    The script writes a GP5.00 file with one track and [num_measures]
    measures of four quarter notes; each writer is the list of bytes it
    appends to the file. *)

Definition byte_of_Z (z : Z) : byte :=
  match Byte.of_N (Z.to_N (Z.land z 0xFF)) with
  | Some b => b
  | None => x00
  end.

(** [struct.pack('<B', val & 0xFF)] *)
Definition write_byte (val : Z) : list byte := [byte_of_Z val].

(** [struct.pack] of a signed little-endian integer of [size] bytes; the
    script only packs values within the range of the format. *)
Fixpoint pack (size : nat) (val : Z) : list byte :=
  match size with
  | O => []
  | S n => byte_of_Z val :: pack n (Z.shiftr val 8)
  end.

Definition write_short (val : Z) : list byte := pack 2 val.
Definition write_int (val : Z) : list byte := pack 4 val.

Definition ord (c : ascii) : Z := Z.of_N (N_of_ascii c).

Definition write_byte_size_string (s : string) (max_len : nat) : list byte :=
  write_byte (Z.of_nat (String.length s))
  ++ flat_map (fun i => match String.get i s with
                        | Some c => write_byte (ord c)
                        | None => write_byte 0
                        end) (seq 0 max_len).

Definition write_int_byte_size_string (s : string) : list byte :=
  write_int (Z.of_nat (String.length s) + 1)
  ++ write_byte (Z.of_nat (String.length s))
  ++ flat_map (fun c => write_byte (ord c)) (list_ascii_of_string s).

(** [write_int_size_string] of [test_gp5_with_notes.py]: the length as an
    int and the characters. *)
Definition write_int_size_string (s : string) : list byte :=
  write_int (Z.of_nat (String.length s))
  ++ flat_map (fun c => write_byte (ord c)) (list_ascii_of_string s).

Definition create_gp5_with_notes (num_measures : nat) : list byte :=
  (* version *)
  write_byte_size_string "FICHIER GUITAR PRO v5.00" 30
  (* song info *)
  ++ write_int_byte_size_string "Test Song with Notes"
  ++ write_int_byte_size_string EmptyString
  ++ write_int_byte_size_string "Test Artist"
  ++ write_int_byte_size_string EmptyString
  ++ write_int_byte_size_string EmptyString
  ++ write_int_byte_size_string EmptyString
  ++ write_int_byte_size_string EmptyString
  ++ write_int_byte_size_string "GP5 Writer Test"
  ++ write_int_byte_size_string EmptyString
  ++ write_int 0
  (* lyrics *)
  ++ write_int 0
  ++ flat_map (fun _ => write_int 0 ++ write_int 0) (seq 0 5)
  (* page setup *)
  ++ write_int 210 ++ write_int 297
  ++ write_int 10 ++ write_int 10 ++ write_int 15 ++ write_int 10
  ++ write_int 100
  ++ write_byte 0xFF ++ write_byte 0x01
  ++ write_int_byte_size_string "%TITLE%"
  ++ write_int_byte_size_string "%SUBTITLE%"
  ++ write_int_byte_size_string "%ARTIST%"
  ++ write_int_byte_size_string "%ALBUM%"
  ++ write_int_byte_size_string "Words by %WORDS%"
  ++ write_int_byte_size_string "Music by %MUSIC%"
  ++ write_int_byte_size_string "Words & Music by %WORDSMUSIC%"
  ++ write_int_byte_size_string "Copyright %COPYRIGHT%"
  ++ write_int_byte_size_string
       "All Rights Reserved - International Copyright Secured"
  ++ write_int_byte_size_string "Page %N%/%P%"
  (* tempo and key *)
  ++ write_int_byte_size_string EmptyString
  ++ write_int 120
  ++ write_byte 0
  ++ write_int 0
  (* MIDI channels *)
  ++ flat_map (fun port =>
       flat_map (fun channel =>
         write_int (if (channel =? 9)%nat then 0 else 25)
         ++ write_byte 13 ++ write_byte 8
         ++ write_byte 0 ++ write_byte 0 ++ write_byte 0 ++ write_byte 0
         ++ write_byte 0 ++ write_byte 0) (seq 0 16)) (seq 0 4)
  (* directions and master reverb *)
  ++ flat_map (fun _ => write_short (-1)) (seq 0 19)
  ++ write_int 0
  (* measure and track counts *)
  ++ write_int (Z.of_nat num_measures)
  ++ write_int 1
  (* measure headers *)
  ++ flat_map (fun m =>
       let flags := if (m =? 0)%nat then 0x03 else 0x00 in
       (if (0 <? m)%nat then write_byte 0 else [])
       ++ write_byte flags
       ++ (if flag_set flags 0x01 then write_byte 4 else [])
       ++ (if flag_set flags 0x02 then write_byte 4 else [])
       ++ (if flag_set flags 0x03
           then write_byte 2 ++ write_byte 2 ++ write_byte 2 ++ write_byte 2
           else [])
       ++ (if Z.land flags 0x10 =? 0 then write_byte 0 else [])
       ++ write_byte 0) (seq 0 num_measures)
  (* the track *)
  ++ write_byte 0
  ++ write_byte 0x08
  ++ write_byte_size_string "Track 1" 40
  ++ write_int 6
  ++ flat_map write_int [64; 59; 55; 50; 45; 40; 0]
  ++ write_int 1 ++ write_int 1 ++ write_int 2
  ++ write_int 24 ++ write_int 0
  ++ write_byte 255 ++ write_byte 0 ++ write_byte 0 ++ write_byte 0
  ++ write_short 0x0003
  ++ write_byte 0 ++ write_byte 0
  ++ write_byte 0
  ++ write_int 0 ++ write_int 0 ++ write_int 100
  ++ flat_map (fun _ => write_byte 0) (seq 0 12)
  ++ write_int (-1) ++ write_int 0 ++ write_int 0
  ++ write_short 0 ++ write_byte 0
  ++ write_byte 0 ++ write_byte 0
  (* measures *)
  ++ flat_map (fun m =>
       write_int 4
       ++ flat_map (fun beat_num =>
            let string_idx := (beat_num mod 6)%nat in
            let fret := ((m * 4 + beat_num) mod 12 + 1)%nat in
            write_byte 0x00
            ++ write_byte 0
            ++ write_byte (Z.shiftl 1 (6 - Z.of_nat string_idx))
            ++ write_byte (Z.lor 0x20 0x10)
            ++ write_byte 1
            ++ write_byte 6
            ++ write_byte (Z.of_nat fret)
            ++ write_byte 0
            ++ write_short 0) (seq 0 4)
       ++ write_int 0
       ++ write_byte 0) (seq 0 num_measures).

(** * The reader of [debug_full_gp5_parse.py]

    The class [GP5Reader] has the buffer [data] and the cursor [pos] of
    [GP5Analyzer] and no version; it is embedded over the same reader
    object, whose version fields it leaves alone.  Its scalar readers use
    [struct.unpack_from] on the buffer instead of [struct.unpack] on a
    slice, and its string readers cut the bytes they have read instead of
    slicing the buffer again. *)
Module GP5Reader.

(** [struct.unpack_from(fmt, data, pos)] for the formats ['b'], ['<h'] and
    ['<i']: [None] is [struct.error], raised unless [size] bytes are left
    from [offset] on. *)
Definition struct_unpack_from (size : nat) (buf : list byte) (offset : nat)
    : option Z :=
  if (offset + size <=? List.length buf)%nat
  then Some (to_signed (8 * Z.of_nat size)
               (le_unsigned (firstn size (skipn offset buf))))
  else None.

Definition read_byte : M Z := fun s =>
  match nth_error (data s) (pos s) with
  | Some b => Ok (byte_val b) (advance 1 s)
  | None => Raise IndexError
  end.

Definition read_unpack_from (size : nat) : M Z := fun s =>
  match struct_unpack_from size (data s) (pos s) with
  | Some v => Ok v (advance size s)
  | None => Raise StructError
  end.

Definition read_sbyte : M Z := read_unpack_from 1.

Definition read_bool : M bool :=
  v <- read_byte ;; ret (negb (v =? 0)).

Definition read_short : M Z := read_unpack_from 2.
Definition read_int : M Z := read_unpack_from 4.

(** [read_bytes(count)]; every call of the class has [count >= 0]. *)
Definition read_bytes (count : nat) : M (list byte) := fun s =>
  Ok (slice (data s) (pos s) (pos s + count)) (advance count s).

Definition skip (count : nat) : M unit := fun s => Ok tt (advance count s).

Definition read_byte_size_string (size : nat) : M string :=
  length <- read_byte ;;
  s <- read_bytes size ;;
  ret (decode_latin1 (firstn (Z.to_nat length) s)).

Definition read_int_byte_size_string : M string :=
  buf_size <- read_int ;;
  str_len <- read_byte ;;
  s <- (if 0 <? buf_size then read_bytes (Z.to_nat (buf_size - 1)) else ret []) ;;
  ret (decode_latin1 (firstn (Z.to_nat str_len) s)).

Definition read_int_size_string : M string :=
  length <- read_int ;;
  if length <=? 0 then ret EmptyString
  else
    s <- read_bytes (Z.to_nat length) ;;
    ret (decode_latin1 s).

End GP5Reader.

(** * The readers of [test_gp5_writer.py]

    Functions of the buffer and a position that return the value and the
    next position, or raise. *)
Module TestWriter.

(** [struct.unpack('<I', buf)]: unsigned, 4 bytes. *)
Definition read_int (data : list byte) (pos : nat) : exn + Z * nat :=
  let buf := slice data pos (pos + 4) in
  if (List.length buf =? 4)%nat then inr (le_unsigned buf, (pos + 4)%nat)
  else inl StructError.

Definition read_short (data : list byte) (pos : nat) : exn + Z * nat :=
  match struct_unpack 2 (slice data pos (pos + 2)) with
  | Some v => inr (v, (pos + 2)%nat)
  | None => inl StructError
  end.

Definition read_byte (data : list byte) (pos : nat) : exn + Z * nat :=
  match nth_error data pos with
  | Some b => inr (byte_val b, (pos + 1)%nat)
  | None => inl IndexError
  end.

Definition read_int_byte_string (data : list byte) (pos : nat)
    : exn + string * nat :=
  match read_int data pos with
  | inl e => inl e
  | inr (total_len, pos) =>
      match read_byte data pos with
      | inl e => inl e
      | inr (str_len, pos) =>
          let s := if 0 <? str_len
                   then decode_latin1 (slice data pos (pos + Z.to_nat str_len))
                   else EmptyString in
          inr (s, (pos + Z.to_nat total_len - 1)%nat)
      end
  end.

Definition read_int_size_string (data : list byte) (pos : nat)
    : exn + string * nat :=
  match read_int data pos with
  | inl e => inl e
  | inr (length, pos) =>
      let s := if 0 <? length
               then decode_latin1 (slice data pos (pos + Z.to_nat length))
               else EmptyString in
      inr (s, (pos + Z.to_nat length)%nat)
  end.

End TestWriter.

(** * Encoding a measure

    The repository has no encoder of a decoded tree: its round-trip test
    hands the file to a library.  The encoder below is modelled from the
    specification and writes with the writers of the repository's scripts. *)

(** [bs] when [c] holds, nothing otherwise: a field under a flag. *)
Definition opt (c : bool) (bs : list byte) : list byte := if c then bs else [].

Definition or_zero (o : option Z) : Z :=
  match o with
  | Some z => z
  | None => 0
  end.

(** Modelled from the spec: the encoder of a note, which the repository
    does not have.  It reverses the decoder: the flags byte, then each
    gated field iff its flag bit is set, in the order in which the decoder
    reads them (type, velocity, fret, fingering, duration percent, flags2,
    note effects).  Fingering, duration percent and note effects are not
    kept by the decoder and are written blank. *)
Definition encode_note (n : note) : list byte :=
  let f := n_flags n in
  write_byte f
  ++ opt (flag_set f 0x20) (write_byte (or_zero (n_type n)))
  ++ opt (flag_set f 0x10) (write_byte (or_zero (n_velocity n)))
  ++ opt (flag_set f 0x20) (write_byte (n_fret n))
  ++ opt (flag_set f 0x80) (write_byte 0 ++ write_byte 0)
  ++ opt (flag_set f 0x01) (repeat x00 8)
  ++ write_byte (n_flags2 n)
  ++ opt (flag_set f 0x08) (write_byte 0 ++ write_byte 0).

(** Modelled from the spec: blank values of the fields of a beat that the
    decoder does not keep, which the repository has no writer for: an
    old-format chord without name and frets, beat effects without effect,
    and a mix table change that changes nothing (every parameter -1). *)
Definition encode_no_chord : list byte :=
  write_byte 0 ++ write_int_byte_size_string EmptyString ++ write_int 0.

(** Modelled from the spec: beat effects without any effect, both flag
    bytes zero. *)
Definition encode_no_beat_effects : list byte := write_byte 0 ++ write_byte 0.

(** Modelled from the spec: a mix table change that changes nothing, every
    parameter -1, in the layout of the version [v]. *)
Definition encode_no_mix_table (v : Z * Z * Z) : list byte :=
  write_byte (-1)
  ++ write_int 0 ++ write_int 0 ++ write_int 0
  ++ (if tuple_eqb v (5, 0, 0) then write_short 0 ++ write_byte 0 else write_int 0)
  ++ write_byte (-1) ++ write_byte (-1) ++ write_byte (-1)
  ++ write_byte (-1) ++ write_byte (-1) ++ write_byte (-1)
  ++ write_int_byte_size_string EmptyString
  ++ write_int (-1)
  ++ write_byte 0
  ++ opt (tuple_geb v (5, 1, 0)) (write_byte 0)
  ++ write_int_byte_size_string EmptyString
  ++ write_int_byte_size_string EmptyString.

(** Modelled from the spec: the encoder of a beat, which the repository
    does not have.  It reverses the decoder: flags byte, status (bit 6),
    duration, tuplet (bit 5), chord (bit 1), text (bit 2), beat effects
    (bit 3), mix table change (bit 4), the string flags, one note per
    string, the flags2 short, and the byte that the decoder reads behind
    flags2 when its bit 0x0800 is set. *)
Definition encode_beat (v : Z * Z * Z) (b : beat) : list byte :=
  let f := b_flags b in
  write_byte f
  ++ opt (flag_set f 0x40) (write_byte (or_zero (b_status b)))
  ++ write_byte (b_duration b)
  ++ opt (flag_set f 0x20) (write_int (or_zero (b_tuplet b)))
  ++ opt (flag_set f 0x02) encode_no_chord
  ++ opt (flag_set f 0x04)
       (write_int_byte_size_string
          (match b_text b with Some t => t | None => EmptyString end))
  ++ opt (flag_set f 0x08) encode_no_beat_effects
  ++ opt (flag_set f 0x10) (encode_no_mix_table v)
  ++ write_byte (b_stringFlags b)
  ++ flat_map encode_note (b_notes b)
  ++ write_short (b_flags2 b)
  ++ opt (flag_set (b_flags2 b) 0x0800) (write_byte 0).

(** Modelled from the spec: the encoder of a voice and of a measure of a
    track, which the repository does not have: the beat count and the
    beats, for both voices, and the line-break byte. *)
Definition encode_voice (v : Z * Z * Z) (beats : list beat) : list byte :=
  write_int (Z.of_nat (List.length beats)) ++ flat_map (encode_beat v) beats.

(** Modelled from the spec: the encoder of a measure of a track, the two
    voices and the line-break byte. *)
Definition encode_measure (v : Z * Z * Z) (m : list beat * list beat)
    : list byte :=
  encode_voice v (fst m) ++ encode_voice v (snd m) ++ write_byte 0.

(** The musical fields of the decoded tree: everything but the cursor
    positions that the dicts carry for the diagnostics. *)
Definition music_of_note (n : note)
    : Z * Z * option Z * option Z * Z * option Z :=
  (n_flags n, n_fret n, n_type n, n_velocity n, n_flags2 n, n_string n).

Definition music_of_beat (b : beat) :=
  (b_flags b, map music_of_note (b_notes b), b_status b, b_duration b,
   b_tuplet b, b_text b, b_stringFlags b, b_flags2 b).

Definition music_of_measure (m : list beat * list beat) :=
  (map music_of_beat (fst m), map music_of_beat (snd m)).

(** Modelled from the spec: the encoder of the measures of a song, which
    the repository does not have: the measures of the tracks one after the
    other, in the order of the file. *)
Definition encode_measures (v : Z * Z * Z) (song : list (list beat * list beat))
    : list byte :=
  flat_map (encode_measure v) song.

(** * Vocabulary of the statements *)

(** ** The cursor *)

(** The bytes from the cursor to the end of the buffer. *)
Definition remaining (s : GP5Analyzer) : list byte := skipn (pos s) (data s).

(** ** Exact consumption

    [consumes v p m inp a]: started at cursor [p] under version [v] with
    [inp] in front of the cursor, [m] returns [a] and leaves the cursor
    right behind [inp], whatever follows. *)
Definition consumes {A} (v : Z * Z * Z) (p : nat) (m : M A)
    (inp : list byte) (a : A) : Prop :=
  forall s rest,
    versionTuple s = v -> pos s = p -> remaining s = inp ++ rest ->
    m s = Ok a (advance (List.length inp) s).

(** ** Readers whose value is dropped

    [skips v p m inp]: [m] succeeds and leaves the cursor right behind
    [inp]; the value it returns is not recorded.  [fixed v n m]: [m] skips
    any [n] bytes. *)
Definition skips {A} (v : Z * Z * Z) (p : nat) (m : M A)
    (inp : list byte) : Prop :=
  forall s rest,
    versionTuple s = v -> pos s = p -> remaining s = inp ++ rest ->
    exists a, m s = Ok a (advance (List.length inp) s).

Definition fixed {A} (v : Z * Z * Z) (n : nat) (m : M A) : Prop :=
  forall p bs, List.length bs = n -> skips v p m bs.

(** ** Byte layouts

    The statements below describe the bytes in front of the cursor field by
    field.  A [word] is the four bytes of an int, little endian. *)

Definition word : Type := byte * byte * byte * byte.

Definition word_bytes (w : word) : list byte :=
  let '(a, b, c, d) := w in [a; b; c; d].

Definition word_val (w : word) : Z := to_signed 32 (le_unsigned (word_bytes w)).
Definition sbyte_val (b : byte) : Z := to_signed 8 (le_unsigned [b]).
Definition short_val (b0 b1 : byte) : Z := to_signed 16 (le_unsigned [b0; b1]).

(** ** Bend and tremolo-bar points *)

Record points : Type := mkPoints {
  pt_type : byte;
  pt_value : word;
  pt_count : word;
  pt_list : list (word * word * byte)
}.

Definition point_bytes (pt : word * word * byte) : list byte :=
  let '(position, value, vibrato) := pt in
  word_bytes position ++ word_bytes value ++ [vibrato].

Definition points_bytes (b : points) : list byte :=
  pt_type b :: word_bytes (pt_value b) ++ word_bytes (pt_count b)
    ++ flat_map point_bytes (pt_list b).

(** The point count announces the points that follow. *)
Definition points_wf (b : points) : Prop :=
  Z.to_nat (word_val (pt_count b)) = List.length (pt_list b).

(** ** Note effects *)

Record note_effects_bytes_of : Type := mkNoteEffects {
  ne_flags1 : byte;
  ne_flags2 : byte;
  ne_bend : points;
  ne_grace : byte * byte * byte * byte * byte;
  ne_tremolo_picking : byte;
  ne_slide : byte;
  ne_harmonic : byte;
  ne_artificial : byte * byte * byte;
  ne_tapped : byte;
  ne_trill : byte * byte
}.

Definition grace_bytes (g : byte * byte * byte * byte * byte) : list byte :=
  let '(fret, velocity, transition, duration, flags) := g in
  [fret; velocity; transition; duration; flags].

Definition harmonic_bytes (h : byte) (art : byte * byte * byte) (tap : byte)
    : list byte :=
  h :: (if sbyte_val h =? 2 then let '(a, b, c) := art in [a; b; c]
        else if sbyte_val h =? 3 then [tap]
        else []).

(** The two flag bytes and the bend, before the grace note. *)
Definition note_effects_head (e : note_effects_bytes_of) : list byte :=
  [ne_flags1 e; ne_flags2 e]
  ++ opt (flag_set (byte_val (ne_flags1 e)) 0x01) (points_bytes (ne_bend e)).

(** Tremolo picking, slide, harmonic and trill, behind the grace note. *)
Definition note_effects_tail (e : note_effects_bytes_of) : list byte :=
  let f2 := byte_val (ne_flags2 e) in
  opt (flag_set f2 0x04) [ne_tremolo_picking e]
  ++ opt (flag_set f2 0x08) [ne_slide e]
  ++ opt (flag_set f2 0x10)
       (harmonic_bytes (ne_harmonic e) (ne_artificial e) (ne_tapped e))
  ++ opt (flag_set f2 0x20) [fst (ne_trill e); snd (ne_trill e)].

Definition note_effects_bytes (e : note_effects_bytes_of) : list byte :=
  note_effects_head e
  ++ opt (flag_set (byte_val (ne_flags1 e)) 0x10) (grace_bytes (ne_grace e))
  ++ note_effects_tail e.

Definition note_effects_wf (e : note_effects_bytes_of) : Prop :=
  flag_set (byte_val (ne_flags1 e)) 0x01 = true -> points_wf (ne_bend e).

Definition no_points : points :=
  mkPoints x00 (x00, x00, x00, x00) (x00, x00, x00, x00) [].

(** Effect flags 0x10, 0x00 and a grace note: 7 bytes in all. *)
Definition grace_only : note_effects_bytes_of :=
  mkNoteEffects x10 x00 no_points (x03, x06, x01, x02, x00) x00 x00 x00
    (x00, x00, x00) x00 (x00, x00).

(** ** Int-byte-size blocks *)

Record block : Type := mkBlock {
  bk_size : word;
  bk_len : byte;
  bk_content : list byte
}.

(** The 4-byte size and, for a positive size, the length byte and the
    content. *)
Definition block_bytes (b : block) : list byte :=
  word_bytes (bk_size b)
  ++ opt (0 <? word_val (bk_size b)) (bk_len b :: bk_content b).

(** The size counts the length byte and the content. *)
Definition block_sized (b : block) : Prop :=
  0 < word_val (bk_size b) ->
  word_val (bk_size b) = Z.of_nat (List.length (bk_content b)) + 1.

(** The length byte stays within the content. *)
Definition block_wf (b : block) : Prop :=
  block_sized b /\
  (0 < word_val (bk_size b) ->
   (Z.to_nat (byte_val (bk_len b)) <= List.length (bk_content b))%nat).

Definition block_str (b : block) : string :=
  if 0 <? word_val (bk_size b)
  then decode_latin1 (firstn (Z.to_nat (byte_val (bk_len b))) (bk_content b))
  else EmptyString.

(** ** Note layout *)

Record note_bytes_of : Type := mkNoteBytes {
  nw_flags : byte;
  nw_type : byte;
  nw_velocity : byte;
  nw_fret : byte;
  nw_fingering : byte * byte;
  nw_duration_percent : list byte;
  nw_flags2 : byte;
  nw_effects : note_effects_bytes_of
}.

Definition note_bytes (n : note_bytes_of) : list byte :=
  let f := byte_val (nw_flags n) in
  [nw_flags n]
  ++ opt (flag_set f 0x20) [nw_type n]
  ++ opt (flag_set f 0x10) [nw_velocity n]
  ++ opt (flag_set f 0x20) [nw_fret n]
  ++ opt (flag_set f 0x80) [fst (nw_fingering n); snd (nw_fingering n)]
  ++ opt (flag_set f 0x01) (nw_duration_percent n)
  ++ [nw_flags2 n]
  ++ opt (flag_set f 0x08) (note_effects_bytes (nw_effects n)).

Definition note_wf (n : note_bytes_of) : Prop :=
  let f := byte_val (nw_flags n) in
  (flag_set f 0x01 = true -> List.length (nw_duration_percent n) = 8%nat) /\
  (flag_set f 0x08 = true -> note_effects_wf (nw_effects n)).

(** The dict that [read_note] builds from these bytes at cursor [p]. *)
Definition note_of (n : note_bytes_of) (p : nat) : note :=
  let f := byte_val (nw_flags n) in
  mkNote p f
    (if flag_set f 0x20 then sbyte_val (nw_fret n) else 0)
    (if flag_set f 0x20 then Some (byte_val (nw_type n)) else None)
    (if flag_set f 0x10 then Some (sbyte_val (nw_velocity n)) else None)
    (byte_val (nw_flags2 n))
    None.

(** ** The notes of a beat *)

(** The values of [s] in [ss] whose bit is set in the string flags. *)
Definition set_bits (ss : list Z) (string_flags : Z) : list Z :=
  filter (fun s => flag_set string_flags (Z.shiftl 1 s)) ss.

(** The notes in file order, each with the string number [6 - s] of its bit
    and the cursor at which it starts. *)
Fixpoint notes_of (ns : list note_bytes_of) (bits : list Z) (p : nat)
    : list note :=
  match ns, bits with
  | n :: ns', s :: bits' =>
      set_string (note_of n p) (6 - s)
        :: notes_of ns' bits' (p + List.length (note_bytes n))
  | _, _ => []
  end.

(** ** Beat effects *)

Record beat_effects_bytes_of : Type := mkBeatEffects {
  be_flags1 : byte;
  be_flags2 : byte;
  be_slap : byte;
  be_tremolo_bar : points;
  be_stroke : byte * byte;
  be_pick_stroke : byte
}.

Definition beat_effects_bytes (e : beat_effects_bytes_of) : list byte :=
  let f1 := byte_val (be_flags1 e) in
  let f2 := byte_val (be_flags2 e) in
  [be_flags1 e; be_flags2 e]
  ++ opt (flag_set f1 0x20) [be_slap e]
  ++ opt (flag_set f2 0x04) (points_bytes (be_tremolo_bar e))
  ++ opt (flag_set f1 0x40) [fst (be_stroke e); snd (be_stroke e)]
  ++ opt (flag_set f2 0x02) [be_pick_stroke e].

Definition beat_effects_wf (e : beat_effects_bytes_of) : Prop :=
  flag_set (byte_val (be_flags2 e)) 0x04 = true -> points_wf (be_tremolo_bar e).

(** ** Chords *)

Inductive chord_bytes_of : Type :=
| ChordOld (name : block) (first_fret : word) (frets : list word)
| ChordNew (format : byte) (diagram : list byte).

Definition chord_bytes (c : chord_bytes_of) : list byte :=
  match c with
  | ChordOld name first_fret frets =>
      x00 :: block_bytes name ++ word_bytes first_fret
        ++ opt (0 <? word_val first_fret) (flat_map word_bytes frets)
  | ChordNew format diagram => format :: diagram
  end.

(** The new format is 84 bytes behind the format byte: sharp, 3 blank
    bytes, root, type, extension, bass and tonality ints, add, the 22-byte
    name, 3 alterations, the base fret int, 7 frets, the barre count and 15
    barre bytes, 7 omissions, a blank byte, 7 fingerings and the
    show-fingering bool. *)
Definition chord_wf (c : chord_bytes_of) : Prop :=
  match c with
  | ChordOld name first_fret frets =>
      block_sized name /\
      (0 < word_val first_fret -> List.length frets = 6%nat)
  | ChordNew format diagram =>
      byte_val format <> 0 /\ List.length diagram = 84%nat
  end.

(** ** Mix table changes *)

Record mix_table_bytes_of : Type := mkMixTable {
  mx_instrument : byte;
  mx_rse : word * word * word;
  mx_effect_number : list byte;
  mx_volume : byte;
  mx_balance : byte;
  mx_chorus : byte;
  mx_reverb : byte;
  mx_phaser : byte;
  mx_tremolo : byte;
  mx_tempo_name : block;
  mx_tempo : word;
  mx_volume_duration : byte;
  mx_balance_duration : byte;
  mx_chorus_duration : byte;
  mx_reverb_duration : byte;
  mx_phaser_duration : byte;
  mx_tremolo_duration : byte;
  mx_tempo_duration : byte;
  mx_hide_tempo : byte;
  mx_flags : byte;
  mx_wah : byte;
  mx_effect_name : block;
  mx_effect_category : block
}.

Definition mix_table_bytes (v : Z * Z * Z) (m : mix_table_bytes_of) : list byte :=
  let '(r1, r2, r3) := mx_rse m in
  [mx_instrument m]
  ++ word_bytes r1 ++ word_bytes r2 ++ word_bytes r3
  ++ mx_effect_number m
  ++ [mx_volume m; mx_balance m; mx_chorus m;
      mx_reverb m; mx_phaser m; mx_tremolo m]
  ++ block_bytes (mx_tempo_name m)
  ++ word_bytes (mx_tempo m)
  ++ opt (0 <=? sbyte_val (mx_volume m)) [mx_volume_duration m]
  ++ opt (0 <=? sbyte_val (mx_balance m)) [mx_balance_duration m]
  ++ opt (0 <=? sbyte_val (mx_chorus m)) [mx_chorus_duration m]
  ++ opt (0 <=? sbyte_val (mx_reverb m)) [mx_reverb_duration m]
  ++ opt (0 <=? sbyte_val (mx_phaser m)) [mx_phaser_duration m]
  ++ opt (0 <=? sbyte_val (mx_tremolo m)) [mx_tremolo_duration m]
  ++ opt (0 <=? word_val (mx_tempo m))
       (mx_tempo_duration m :: opt (tuple_geb v (5, 1, 0)) [mx_hide_tempo m])
  ++ [mx_flags m]
  ++ opt (tuple_geb v (5, 1, 0)) [mx_wah m]
  ++ block_bytes (mx_effect_name m)
  ++ block_bytes (mx_effect_category m).

(** The effect number is a short and a blank byte in (5, 0, 0), an int
    otherwise. *)
Definition mix_table_wf (v : Z * Z * Z) (m : mix_table_bytes_of) : Prop :=
  List.length (mx_effect_number m)
    = (if tuple_eqb v (5, 0, 0) then 3%nat else 4%nat) /\
  block_sized (mx_tempo_name m) /\
  block_sized (mx_effect_name m) /\
  block_sized (mx_effect_category m).

(** ** Beats *)

Record beat_bytes_of : Type := mkBeatBytes {
  bw_flags : byte;
  bw_status : byte;
  bw_duration : byte;
  bw_tuplet : word;
  bw_chord : chord_bytes_of;
  bw_text : block;
  bw_effects : beat_effects_bytes_of;
  bw_mix_table : mix_table_bytes_of;
  bw_string_flags : byte;
  bw_notes : list note_bytes_of;
  bw_flags2 : byte * byte;
  bw_break : byte
}.

(** From the flags byte to the string flags. *)
Definition beat_head_bytes (v : Z * Z * Z) (b : beat_bytes_of) : list byte :=
  let f := byte_val (bw_flags b) in
  [bw_flags b]
  ++ opt (flag_set f 0x40) [bw_status b]
  ++ [bw_duration b]
  ++ opt (flag_set f 0x20) (word_bytes (bw_tuplet b))
  ++ opt (flag_set f 0x02) (chord_bytes (bw_chord b))
  ++ opt (flag_set f 0x04) (block_bytes (bw_text b))
  ++ opt (flag_set f 0x08) (beat_effects_bytes (bw_effects b))
  ++ opt (flag_set f 0x10) (mix_table_bytes v (bw_mix_table b))
  ++ [bw_string_flags b].

Definition beat_flags2 (b : beat_bytes_of) : Z :=
  short_val (fst (bw_flags2 b)) (snd (bw_flags2 b)).

(** The flags2 short and the byte that follows it under bit 0x0800. *)
Definition beat_tail_bytes (b : beat_bytes_of) : list byte :=
  [fst (bw_flags2 b); snd (bw_flags2 b)]
  ++ opt (flag_set (beat_flags2 b) 0x0800) [bw_break b].

Definition beat_bytes (v : Z * Z * Z) (b : beat_bytes_of) : list byte :=
  beat_head_bytes v b ++ flat_map note_bytes (bw_notes b) ++ beat_tail_bytes b.

Definition beat_wf (v : Z * Z * Z) (b : beat_bytes_of) : Prop :=
  let f := byte_val (bw_flags b) in
  (flag_set f 0x02 = true -> chord_wf (bw_chord b)) /\
  (flag_set f 0x04 = true -> block_wf (bw_text b)) /\
  (flag_set f 0x08 = true -> beat_effects_wf (bw_effects b)) /\
  (flag_set f 0x10 = true -> mix_table_wf v (bw_mix_table b)) /\
  Forall note_wf (bw_notes b) /\
  List.length (bw_notes b)
    = List.length (set_bits string_range (byte_val (bw_string_flags b))).

(** The dict that [read_beat] builds from these bytes at cursor [p]. *)
Definition beat_of (v : Z * Z * Z) (b : beat_bytes_of) (p : nat) : beat :=
  let f := byte_val (bw_flags b) in
  mkBeat p f
    (notes_of (bw_notes b)
       (set_bits string_range (byte_val (bw_string_flags b)))
       (p + List.length (beat_head_bytes v b)))
    (if flag_set f 0x40 then Some (byte_val (bw_status b)) else None)
    (sbyte_val (bw_duration b))
    (if flag_set f 0x20 then Some (word_val (bw_tuplet b)) else None)
    (if flag_set f 0x04 then Some (block_str (bw_text b)) else None)
    (byte_val (bw_string_flags b))
    (beat_flags2 b).

(** Fields that a flag leaves out of the file. *)
Definition no_word : word := (x00, x00, x00, x00).
Definition no_block : block := mkBlock no_word x00 [].
Definition no_note_effects : note_effects_bytes_of :=
  mkNoteEffects x00 x00 no_points (x00, x00, x00, x00, x00) x00 x00 x00
    (x00, x00, x00) x00 (x00, x00).
Definition no_beat_effects : beat_effects_bytes_of :=
  mkBeatEffects x00 x00 x00 no_points (x00, x00) x00.
Definition no_mix_table : mix_table_bytes_of :=
  mkMixTable x00 (no_word, no_word, no_word) [] x00 x00 x00 x00 x00 x00
    no_block no_word x00 x00 x00 x00 x00 x00 x00 x00 x00 x00 no_block no_block.

(** ** Sample inputs *)

(** Beat flags 0x00, a duration byte, string flags 0x40, and one note with
    flags 0x30, type 1, velocity 6 and fret 5. *)
Definition single_note_beat (d nf2 lo hi x : byte) : beat_bytes_of :=
  mkBeatBytes x00 x00 d no_word (ChordNew x01 []) no_block no_beat_effects
    no_mix_table x40
    [mkNoteBytes x30 x01 x06 x05 (x00, x00) [] nf2 no_note_effects]
    (lo, hi) x.

(** ** Counting bits *)

(** Python's [bin(z).count('1')] for [z >= 0]. *)
Fixpoint popcount_pos (p : positive) : nat :=
  match p with
  | xH => 1
  | xO q => popcount_pos q
  | xI q => S (popcount_pos q)
  end.

Definition popcount (z : Z) : nat :=
  match z with
  | Zpos p => popcount_pos p
  | _ => 0
  end.

(** The 31 bytes of the version field for a name of 24 characters. *)
Definition version_field (name : string) : list byte :=
  x18 :: list_byte_of_string name ++ [x00; x00; x00; x00; x00; x00].

(** The version string of a Guitar Pro 4 file. *)
Definition marker_v406 : string := "FICHIER GUITAR PRO v4.06".

(** A reader whose version tuple is (5, 1, 0). *)
Definition reader_510 (bytes : list byte) : GP5Analyzer :=
  mkAnalyzer bytes 0 None (5, 1, 0).

(** Tempo name "A", tempo 120, then a byte. *)
Definition tempo_field : list byte :=
  [x02; x00; x00; x00; x01; x41; x78; x00; x00; x00; x01].

(** ** Measure header layout *)

Record header_bytes_of : Type := mkHeaderBytes {
  hw_lead : byte;
  hw_flags : byte;
  hw_numerator : byte;
  hw_denominator : byte;
  hw_repeat_close : byte;
  hw_marker : block;
  hw_color : word;
  hw_key : byte * byte;
  hw_repeat_alternative : byte;
  hw_beams : word;
  hw_blank : byte;
  hw_triplet_feel : byte
}.

(** The blank byte in front of every header but the first, the flags byte,
    numerator (bit 0), denominator (bit 1) and repeat-close count (bit 3);
    repeat-open (bit 2) has no byte. *)
Definition header_front (i : nat) (h : header_bytes_of) : list byte :=
  let f := byte_val (hw_flags h) in
  opt (0 <? i)%nat [hw_lead h]
  ++ [hw_flags h]
  ++ opt (flag_set f 0x01) [hw_numerator h]
  ++ opt (flag_set f 0x02) [hw_denominator h]
  ++ opt (flag_set f 0x08) [hw_repeat_close h].

(** The marker (bit 5): its name block and 4 color bytes. *)
Definition header_marker (h : header_bytes_of) : list byte :=
  opt (flag_set (byte_val (hw_flags h)) 0x20)
    (block_bytes (hw_marker h) ++ word_bytes (hw_color h)).

(** The key signature (bit 6): 2 signed bytes. *)
Definition header_key (h : header_bytes_of) : list byte :=
  opt (flag_set (byte_val (hw_flags h)) 0x40) [fst (hw_key h); snd (hw_key h)].

(** The repeat alternative (bit 4). *)
Definition header_alternative (h : header_bytes_of) : list byte :=
  opt (flag_set (byte_val (hw_flags h)) 0x10) [hw_repeat_alternative h].

(** 4 beam bytes if bit 0 or bit 1 is set, a blank byte if bit 4 is not
    set, and the triplet feel; double bar (bit 7) has no byte. *)
Definition header_back (h : header_bytes_of) : list byte :=
  let f := byte_val (hw_flags h) in
  opt (flag_set f 0x01 || flag_set f 0x02) (word_bytes (hw_beams h))
  ++ opt (negb (flag_set f 0x10)) [hw_blank h]
  ++ [hw_triplet_feel h].

(** The order in which [read_measure_headers] reads: marker, key signature,
    then repeat alternative. *)
Definition header_bytes (i : nat) (h : header_bytes_of) : list byte :=
  header_front i h ++ header_marker h ++ header_key h
    ++ header_alternative h ++ header_back h.

(** The order of the flag bits, as the specification lists the fields:
    repeat alternative (bit 4), marker (bit 5), key signature (bit 6). *)
Definition header_bytes_by_bit (i : nat) (h : header_bytes_of) : list byte :=
  header_front i h ++ header_alternative h ++ header_marker h
    ++ header_key h ++ header_back h.

Definition header_wf (h : header_bytes_of) : Prop :=
  flag_set (byte_val (hw_flags h)) 0x20 = true -> block_wf (hw_marker h).

(** The dict that the loop of [read_measure_headers] builds. *)
Definition header_of (i : nat) (h : header_bytes_of) : header :=
  let f := byte_val (hw_flags h) in
  mkHeader (Z.of_nat i + 1) f
    (if flag_set f 0x01 then Some (byte_val (hw_numerator h)) else None)
    (if flag_set f 0x02 then Some (byte_val (hw_denominator h)) else None)
    (flag_set f 0x04)
    (if flag_set f 0x08 then Some (byte_val (hw_repeat_close h)) else None)
    (if flag_set f 0x20 then Some (block_str (hw_marker h)) else None)
    (flag_set f 0x80).

(** Flags 0x30: marker "A", color 0, and the repeat alternative 7. *)
Definition marked_alternative : header_bytes_of :=
  mkHeaderBytes x00 x30 x00 x00 x00
    (mkBlock (x02, x00, x00, x00) x01 [x41]) no_word (x00, x00) x07
    no_word x00 x00.

(** What [analyze] finds in the file of the script: per measure, the first
    voice as (string, fret, velocity) of the notes of each beat, and the
    number of beats of the second voice. *)
Definition notes_found (a : analysis)
    : list (list (list (list (option Z * Z * option Z)) * nat)) :=
  map (map (fun '(voice1, voice2) =>
              (map (fun b => map (fun n => (n_string n, n_fret n, n_velocity n))
                                 (b_notes b)) voice1,
               List.length voice2)))
      (a_measures a).

Definition quarter (string_num fret : Z) : list (option Z * Z * option Z) :=
  [(Some string_num, fret, Some 6)].

(** ** Ranges of the integers *)

(** Ranges of the integers of the format. *)
Definition is_byte (z : Z) : Prop := 0 <= z < 256.
Definition is_sbyte (z : Z) : Prop := -128 <= z < 128.
Definition is_short (z : Z) : Prop := -32768 <= z < 32768.
Definition is_int (z : Z) : Prop := -2147483648 <= z < 2147483648.

(** ** What the decoder builds *)

Definition opt_ok (c : bool) (P : Z -> Prop) (o : option Z) : Prop :=
  if c then exists z, o = Some z /\ P z else o = None.

Definition note_ok (n : note) : Prop :=
  let f := n_flags n in
  is_byte f /\
  opt_ok (flag_set f 0x20) is_byte (n_type n) /\
  opt_ok (flag_set f 0x10) is_sbyte (n_velocity n) /\
  is_sbyte (n_fret n) /\
  (flag_set f 0x20 = false -> n_fret n = 0) /\
  is_byte (n_flags2 n).

Definition text_ok (c : bool) (o : option string) : Prop :=
  if c then exists t, o = Some t /\ (String.length t <= 255)%nat else o = None.

Definition beat_ok (b : beat) : Prop :=
  let f := b_flags b in
  is_byte f /\
  opt_ok (flag_set f 0x40) is_byte (b_status b) /\
  is_sbyte (b_duration b) /\
  opt_ok (flag_set f 0x20) is_int (b_tuplet b) /\
  text_ok (flag_set f 0x04) (b_text b) /\
  is_byte (b_stringFlags b) /\
  Forall note_ok (b_notes b) /\
  map n_string (b_notes b)
    = map (fun bit => Some (6 - bit)) (set_bits string_range (b_stringFlags b)) /\
  is_short (b_flags2 b).

(** ** The encoded bytes, field by field *)

Definition word_of_Z (z : Z) : word :=
  (byte_of_Z z, byte_of_Z (Z.shiftr z 8),
   byte_of_Z (Z.shiftr (Z.shiftr z 8) 8),
   byte_of_Z (Z.shiftr (Z.shiftr (Z.shiftr z 8) 8) 8)).

Definition block_of_string (t : string) : block :=
  mkBlock (word_of_Z (Z.of_nat (String.length t) + 1))
    (byte_of_Z (Z.of_nat (String.length t))) (list_byte_of_string t).

Definition wire_of_note (n : note) : note_bytes_of :=
  mkNoteBytes (byte_of_Z (n_flags n))
    (byte_of_Z (or_zero (n_type n)))
    (byte_of_Z (or_zero (n_velocity n)))
    (byte_of_Z (n_fret n))
    (x00, x00) (repeat x00 8)
    (byte_of_Z (n_flags2 n))
    no_note_effects.

Definition blank_mix_table (v : Z * Z * Z) : mix_table_bytes_of :=
  mkMixTable xff (no_word, no_word, no_word)
    (if tuple_eqb v (5, 0, 0) then [x00; x00; x00] else [x00; x00; x00; x00])
    xff xff xff xff xff xff
    (block_of_string EmptyString) (xff, xff, xff, xff)
    x00 x00 x00 x00 x00 x00 x00 x00
    x00 x00 (block_of_string EmptyString) (block_of_string EmptyString).

Definition blank_chord : chord_bytes_of :=
  ChordOld (block_of_string EmptyString) no_word [].

Definition wire_of_beat (v : Z * Z * Z) (b : beat) : beat_bytes_of :=
  mkBeatBytes (byte_of_Z (b_flags b))
    (byte_of_Z (or_zero (b_status b)))
    (byte_of_Z (b_duration b))
    (word_of_Z (or_zero (b_tuplet b)))
    blank_chord
    (block_of_string (match b_text b with Some t => t | None => EmptyString end))
    no_beat_effects
    (blank_mix_table v)
    (byte_of_Z (b_stringFlags b))
    (map wire_of_note (b_notes b))
    (byte_of_Z (b_flags2 b), byte_of_Z (Z.shiftr (b_flags2 b) 8))
    x00.

Definition voice_ok (beats : list beat) : Prop :=
  Forall beat_ok beats /\ (List.length beats <= 128)%nat.

(** A measure with two beats in the first voice: a note of fret 5 on the
    first string, and a rest with the text "Hi" whose flags2 0x0800 takes
    the byte behind it; the second voice is empty. *)
Definition sample_measure : list byte :=
  [x02; x00; x00; x00;
   x00; x00; x40; x30; x01; x06; x05; x00; x00; x00;
   x44; x02; xfe; x03; x00; x00; x00; x02; x48; x69; x00; x00; x08; x09;
   x00; x00; x00; x00;
   x01].

Definition sample_song : list (list beat * list beat) :=
  Eval vm_compute in
    match repeatM 1 read_measure (init sample_measure) with
    | Ok song _ => song
    | Raise _ => []
    end.

(** ** Song header layout *)

(** The song information: nine blocks, the notice count and the notices. *)
Record info_bytes_of : Type := mkInfoBytes {
  iw_title : block;
  iw_subtitle : block;
  iw_artist : block;
  iw_album : block;
  iw_words : block;
  iw_music : block;
  iw_copyright : block;
  iw_tab : block;
  iw_instructions : block;
  iw_notice_count : word;
  iw_notices : list block
}.

Definition info_bytes (i : info_bytes_of) : list byte :=
  block_bytes (iw_title i) ++ block_bytes (iw_subtitle i)
  ++ block_bytes (iw_artist i) ++ block_bytes (iw_album i)
  ++ block_bytes (iw_words i) ++ block_bytes (iw_music i)
  ++ block_bytes (iw_copyright i) ++ block_bytes (iw_tab i)
  ++ block_bytes (iw_instructions i)
  ++ word_bytes (iw_notice_count i)
  ++ flat_map block_bytes (iw_notices i).

(** Title and artist are returned and keep their length byte within the
    block; the notice count announces the notices, none when it is not
    positive. *)
Definition info_wf (i : info_bytes_of) : Prop :=
  block_wf (iw_title i) /\ block_wf (iw_artist i) /\
  Forall block_sized
    [iw_subtitle i; iw_album i; iw_words i; iw_music i; iw_copyright i;
     iw_tab i; iw_instructions i] /\
  Forall block_sized (iw_notices i) /\
  List.length (iw_notices i) = Z.to_nat (word_val (iw_notice_count i)).

(** A line of lyrics: the bar it starts from, and an int-size string, the
    4-byte length and that many bytes (none for a length that is not
    positive). *)
Record lyric_line : Type := mkLine {
  ln_from : word;
  ln_length : word;
  ln_text : list byte
}.

Definition line_bytes (l : lyric_line) : list byte :=
  word_bytes (ln_from l) ++ word_bytes (ln_length l) ++ ln_text l.

Definition line_wf (l : lyric_line) : Prop :=
  List.length (ln_text l) = Z.to_nat (word_val (ln_length l)).

(** Title "Song", artist "Me", one notice "n"; the other blocks have size 0. *)
Definition sample_info : info_bytes_of :=
  mkInfoBytes (block_of_string "Song") no_block (block_of_string "Me")
    no_block no_block no_block no_block no_block no_block
    (x01, x00, x00, x00) [block_of_string "n"].

(** The lyrics that [create_gp5_with_notes] writes but for the first line,
    which here is "la" from bar 1. *)
Definition sample_lyrics : list lyric_line :=
  mkLine (x01, x00, x00, x00) (x02, x00, x00, x00) [x6c; x61]
    :: repeat (mkLine no_word no_word []) 4.

(** The page setup: page size, margins and score size as ints, the
    header/footer flags short, and ten blocks of placeholders. *)
Record page_setup_bytes_of : Type := mkPageSetup {
  pw_width : word;
  pw_height : word;
  pw_left : word;
  pw_right : word;
  pw_top : word;
  pw_bottom : word;
  pw_score_size : word;
  pw_flags : byte * byte;
  pw_strings : list block
}.

Definition page_setup_bytes (g : page_setup_bytes_of) : list byte :=
  word_bytes (pw_width g) ++ word_bytes (pw_height g)
  ++ word_bytes (pw_left g) ++ word_bytes (pw_right g)
  ++ word_bytes (pw_top g) ++ word_bytes (pw_bottom g)
  ++ word_bytes (pw_score_size g)
  ++ [fst (pw_flags g); snd (pw_flags g)]
  ++ flat_map block_bytes (pw_strings g).

Definition page_setup_wf (g : page_setup_bytes_of) : Prop :=
  List.length (pw_strings g) = 10%nat /\ Forall block_sized (pw_strings g).

(** An A4 page whose ten placeholders are empty blocks. *)
Definition sample_page_setup : page_setup_bytes_of :=
  mkPageSetup (xd2, x00, x00, x00) (x29, x01, x00, x00)
    (x0a, x00, x00, x00) (x0a, x00, x00, x00)
    (x0f, x00, x00, x00) (x0a, x00, x00, x00)
    (x64, x00, x00, x00) (xff, x01) (repeat no_block 10).

(** ** The measure headers of a file *)

(** The headers one after the other, the first of them with index [i]. *)
Fixpoint headers_bytes (i : nat) (hs : list header_bytes_of) : list byte :=
  match hs with
  | [] => []
  | h :: r => header_bytes i h ++ headers_bytes (S i) r
  end.

Fixpoint headers_of (i : nat) (hs : list header_bytes_of) : list header :=
  match hs with
  | [] => []
  | h :: r => header_of i h :: headers_of (S i) r
  end.

(** What the loop of [read_measure_headers] builds: the keys of the dict
    follow the flag bits. *)
Definition header_ok (h : header) : Prop :=
  let f := h_flags h in
  is_byte f /\
  opt_ok (flag_set f 0x01) is_byte (h_numerator h) /\
  opt_ok (flag_set f 0x02) is_byte (h_denominator h) /\
  h_repeatOpen h = flag_set f 0x04 /\
  opt_ok (flag_set f 0x08) is_byte (h_repeatClose h) /\
  text_ok (flag_set f 0x20) (h_marker h) /\
  h_doubleBar h = flag_set f 0x80.

(** The two headers that [create_gp5_with_notes] writes for two measures:
    a 4/4 time signature with its beams, then a header without changes
    behind its blank byte. *)
Definition sample_headers : list header_bytes_of :=
  [mkHeaderBytes x00 x03 x04 x04 x00 no_block no_word (x00, x00) x00
     (x02, x02, x02, x02) x00 x00;
   mkHeaderBytes x00 x00 x00 x00 x00 no_block no_word (x00, x00) x00
     no_word x00 x00].

(** ** Track layout *)

(** The RSE data of a track: humanize, three ints, 12 blank bytes, the RSE
    instrument (instrument, unknown and sound bank ints, then the effect
    number: a short and a blank byte in (5, 0, 0), an int otherwise), and
    after (5, 0, 0) a 4-band equalizer and the two blocks of the effect. *)
Record track_rse_bytes_of : Type := mkTrackRse {
  rw_humanize : byte;
  rw_unknown : list word;
  rw_blank : list byte;
  rw_instrument : word;
  rw_unknown2 : word;
  rw_sound_bank : word;
  rw_effect_number : word;
  rw_equalizer : list byte;
  rw_effect_name : block;
  rw_effect_category : block
}.

Definition effect_number_bytes (v : Z * Z * Z) (w : word) : list byte :=
  if tuple_eqb v (5, 0, 0) then firstn 3 (word_bytes w) else word_bytes w.

Definition effect_number_val (v : Z * Z * Z) (w : word) : Z :=
  if tuple_eqb v (5, 0, 0)
  then to_signed 16 (le_unsigned (firstn 2 (word_bytes w)))
  else word_val w.

Definition rse_instrument_bytes (v : Z * Z * Z) (r : track_rse_bytes_of)
    : list byte :=
  word_bytes (rw_instrument r) ++ word_bytes (rw_unknown2 r)
  ++ word_bytes (rw_sound_bank r)
  ++ effect_number_bytes v (rw_effect_number r).

Definition track_rse_bytes (v : Z * Z * Z) (r : track_rse_bytes_of)
    : list byte :=
  [rw_humanize r]
  ++ flat_map word_bytes (rw_unknown r)
  ++ rw_blank r
  ++ rse_instrument_bytes v r
  ++ opt (tuple_gtb v (5, 0, 0))
       (rw_equalizer r ++ block_bytes (rw_effect_name r)
        ++ block_bytes (rw_effect_category r)).

Definition track_rse_wf (v : Z * Z * Z) (r : track_rse_bytes_of) : Prop :=
  List.length (rw_unknown r) = 3%nat /\
  List.length (rw_blank r) = 12%nat /\
  (tuple_gtb v (5, 0, 0) = true ->
   List.length (rw_equalizer r) = 4%nat /\
   block_sized (rw_effect_name r) /\ block_sized (rw_effect_category r)).

(** A track: a blank byte in front of the first track and, in (5, 0, 0),
    of every track; flags, the name in a field of 40 bytes, the string
    count, 7 tunings, port, channel, channel effect, fret count and capo
    ints, 3 color bytes and a blank byte, the flags2 short, auto
    accentuation and bank, and the RSE data. *)
Record track_bytes_of : Type := mkTrackBytes {
  tw_lead : byte;
  tw_flags1 : byte;
  tw_name_length : byte;
  tw_name : list byte;
  tw_string_count : word;
  tw_tuning : list word;
  tw_port : word;
  tw_channel : word;
  tw_channel_effect : word;
  tw_fret_count : word;
  tw_offset : word;
  tw_color : byte * byte * byte;
  tw_blank : byte;
  tw_flags2 : byte * byte;
  tw_auto_accentuation : byte;
  tw_bank : byte;
  tw_rse : track_rse_bytes_of
}.

Definition track_bytes (v : Z * Z * Z) (i : nat) (t : track_bytes_of)
    : list byte :=
  let '(red, green, blue) := tw_color t in
  opt ((i =? 0)%nat || tuple_eqb v (5, 0, 0)) [tw_lead t]
  ++ [tw_flags1 t]
  ++ (tw_name_length t :: tw_name t)
  ++ word_bytes (tw_string_count t)
  ++ flat_map word_bytes (tw_tuning t)
  ++ word_bytes (tw_port t)
  ++ word_bytes (tw_channel t)
  ++ word_bytes (tw_channel_effect t)
  ++ word_bytes (tw_fret_count t)
  ++ word_bytes (tw_offset t)
  ++ [red; green; blue; tw_blank t]
  ++ [fst (tw_flags2 t); snd (tw_flags2 t)]
  ++ [tw_auto_accentuation t; tw_bank t]
  ++ track_rse_bytes v (tw_rse t).

(** The name field has 40 bytes and the length byte stays within it. *)
Definition track_wf (v : Z * Z * Z) (t : track_bytes_of) : Prop :=
  List.length (tw_name t) = 40%nat /\
  (Z.to_nat (byte_val (tw_name_length t)) <= 40)%nat /\
  List.length (tw_tuning t) = 7%nat /\
  track_rse_wf v (tw_rse t).

(** The dict that the loop of [read_tracks] builds. *)
Definition track_of (measure_count : Z) (i : nat) (t : track_bytes_of) : track :=
  let f := byte_val (tw_flags1 t) in
  mkTrack (Z.of_nat i + 1) (flag_set f 0x01) f
    (decode_latin1 (firstn (Z.to_nat (byte_val (tw_name_length t))) (tw_name t)))
    (word_val (tw_string_count t))
    (word_val (tw_channel t))
    (short_val (fst (tw_flags2 t)) (snd (tw_flags2 t)))
    (repeat tt (Z.to_nat measure_count)).

Fixpoint tracks_bytes (v : Z * Z * Z) (i : nat) (ts : list track_bytes_of)
    : list byte :=
  match ts with
  | [] => []
  | t :: r => track_bytes v i t ++ tracks_bytes v (S i) r
  end.

Fixpoint tracks_of (measure_count : Z) (i : nat) (ts : list track_bytes_of)
    : list track :=
  match ts with
  | [] => []
  | t :: r => track_of measure_count i t :: tracks_of measure_count (S i) r
  end.

(** The RSE data that [create_gp5_with_notes] writes for its track. *)
Definition sample_track_rse : track_rse_bytes_of :=
  mkTrackRse x00 [no_word; no_word; (x64, x00, x00, x00)] (repeat x00 12)
    (xff, xff, xff, xff) no_word no_word no_word [] no_block no_block.

(** The track that [create_gp5_with_notes] writes. *)
Definition sample_track : track_bytes_of :=
  mkTrackBytes x00 x08 x07
    (list_byte_of_string "Track 1" ++ repeat x00 33)
    (x06, x00, x00, x00)
    [(x40, x00, x00, x00); (x3b, x00, x00, x00); (x37, x00, x00, x00);
     (x32, x00, x00, x00); (x2d, x00, x00, x00); (x28, x00, x00, x00);
     no_word]
    (x01, x00, x00, x00) (x01, x00, x00, x00) (x02, x00, x00, x00)
    (x18, x00, x00, x00) no_word (xff, x00, x00) x00 (x03, x00) x00 x00
    sample_track_rse.

(** What the loop of [read_tracks] builds for index [i]. *)
Definition track_ok (measure_count : Z) (i : nat) (t : track) : Prop :=
  t_number t = Z.of_nat i + 1 /\
  is_byte (t_flags1 t) /\
  t_isPercussion t = flag_set (t_flags1 t) 0x01 /\
  (String.length (t_name t) <= 255)%nat /\
  is_int (t_stringCount t) /\
  is_int (t_channel t) /\
  is_short (t_flags2 t) /\
  List.length (t_measures t) = Z.to_nat measure_count.

(** Beat effects with a slap, a tremolo bar of one point, a stroke and a
    pick stroke. *)
Definition sample_beat_effects : beat_effects_bytes_of :=
  mkBeatEffects x60 x06 x01
    (mkPoints x06 (x64, x00, x00, x00) (x01, x00, x00, x00)
       [(no_word, (x32, x00, x00, x00), x00)])
    (x02, x03) x01.

(** A note with every field: flags 0xB9, type 2, velocity -1, fret 12,
    fingering, duration percent, flags2 0x02 and a grace note. *)
Definition sample_note : note_bytes_of :=
  mkNoteBytes xb9 x02 xff x0c (x01, x02) (repeat x00 8) x02 grace_only.

(** A rest with the text "Hi" and beat effects, whose flags2 0x0800 takes
    the byte behind it. *)
Definition sample_beat : beat_bytes_of :=
  mkBeatBytes x4c x02 xfe no_word blank_chord (block_of_string "Hi")
    sample_beat_effects no_mix_table x00 [] (x00, x08) x09.

(** ** How far a reader moves the cursor

    [moves n m]: when [m] returns, the reader object is the one it started
    from but for the cursor, which is at least [n] bytes further. *)
Definition moves {A} (n : nat) (m : M A) : Prop :=
  forall s a s', m s = Ok a s' -> exists k, (n <= k)%nat /\ s' = advance k s.

(** A measure of 14 bytes: one beat without notes in the first voice, none
    in the second, and the line-break byte. *)
Definition one_beat_measure : list byte :=
  [x01; x00; x00; x00; x00; x00; x00; x00; x00;
   x00; x00; x00; x00; x00].

(** ** The file of [create_gp5_with_notes] *)

(** The lines of [analyze] up to the master reverb, and the lines from the
    measure count on. *)
Definition analyze_header : M (string * (string * string) * (string * Z)) :=
  version <- read_version ;;
  info <- read_info ;;
  read_lyrics ;;;
  read_rse_master_effect ;;;
  read_page_setup ;;;
  tempo <- read_tempo ;;
  read_sbyte ;;;
  read_int ;;;
  read_midi_channels ;;;
  read_directions ;;;
  read_int ;;;
  ret (version, info, tempo).

Definition analyze_body (h : string * (string * string) * (string * Z))
    : M analysis :=
  let '(version, info, tempo) := h in
  measure_count <- read_int ;;
  track_count <- read_int ;;
  headers <- read_measure_headers measure_count ;;
  tracks <- read_tracks track_count measure_count ;;
  measures <- repeatM (Z.to_nat (Z.min measure_count 10))
                (repeatM (Z.to_nat track_count) read_measure) ;;
  ret (mkAnalysis version (fst info) (snd info) (snd tempo)
         headers tracks measures).

(** The fret that the script writes for beat [beat_num] of measure [m]. *)
Definition written_fret (m beat_num : nat) : Z :=
  Z.of_nat ((m * 4 + beat_num) mod 12 + 1).

(** The header that the script writes for measure [m]: a 4/4 time
    signature with its beams for the first measure, no change after it. *)
Definition written_header (m : nat) : header_bytes_of :=
  if (m =? 0)%nat
  then mkHeaderBytes x00 x03 x04 x04 x00 no_block no_word (x00, x00) x00
         (x02, x02, x02, x02) x00 x00
  else mkHeaderBytes x00 x00 x00 x00 x00 no_block no_word (x00, x00) x00
         no_word x00 x00.

(** The beat that the script writes: a quarter with one note of the given
    fret on the string of the given bit. *)
Definition written_beat (string_bits fret : Z) : beat_bytes_of :=
  mkBeatBytes x00 x00 x00 no_word blank_chord no_block no_beat_effects
    no_mix_table (byte_of_Z string_bits)
    [mkNoteBytes x30 x01 x06 (byte_of_Z fret) (x00, x00) [] x00 no_note_effects]
    (x00, x00) x00.

(** The notes of the measures of one track, as [notes_found] shows them. *)
Definition row_found (row : list (list beat * list beat))
    : list (list (list (option Z * Z * option Z)) * nat) :=
  map (fun '(voice1, voice2) =>
         (map (fun b => map (fun n => (n_string n, n_fret n, n_velocity n))
                            (b_notes b)) voice1,
          List.length voice2)) row.

(** The beat [beat_num] of measure [m] of the script, and the measure:
    four beats in the first voice, none in the second. *)
Definition written_quarter (m beat_num : nat) : beat_bytes_of :=
  written_beat (Z.shiftl 1 (6 - Z.of_nat (beat_num mod 6)))
    (Z.of_nat ((m * 4 + beat_num) mod 12 + 1)).

Definition written_measure (m : nat) : list byte :=
  write_int 4
  ++ flat_map (fun beat_num => beat_bytes (5, 0, 0) (written_quarter m beat_num))
       (seq 0 4)
  ++ write_int 0
  ++ write_byte 0.

(** What [analyze] is to find in measure [m] of the script. *)
Definition written_notes (m : nat)
    : list (list (list (option Z * Z * option Z)) * nat) :=
  [(map (fun beat_num => quarter (Z.of_nat beat_num) (written_fret m beat_num))
      (seq 0 4), 0%nat)].

(** ** Voices and measures *)

(** A voice: the beat count and the beats. *)
Record voice_bytes_of : Type := mkVoiceBytes {
  vw_count : word;
  vw_beats : list beat_bytes_of
}.

Definition voice_bytes (v : Z * Z * Z) (vo : voice_bytes_of) : list byte :=
  word_bytes (vw_count vo) ++ flat_map (beat_bytes v) (vw_beats vo).

(** The count is between 0 and 128 and announces the beats. *)
Definition voice_wf (v : Z * Z * Z) (vo : voice_bytes_of) : Prop :=
  0 <= word_val (vw_count vo) <= 128 /\
  List.length (vw_beats vo) = Z.to_nat (word_val (vw_count vo)) /\
  Forall (beat_wf v) (vw_beats vo).

(** The dicts of the beats of a voice whose first beat starts at [p]. *)
Fixpoint beats_of (v : Z * Z * Z) (bs : list beat_bytes_of) (p : nat)
    : list beat :=
  match bs with
  | [] => []
  | b :: r => beat_of v b p :: beats_of v r (p + List.length (beat_bytes v b))
  end.

(** A measure of one track: two voices and the line-break byte. *)
Definition measure_bytes (v : Z * Z * Z) (voice1 voice2 : voice_bytes_of)
    (line_break : byte) : list byte :=
  voice_bytes v voice1 ++ voice_bytes v voice2 ++ [line_break].

(** A measure whose first voice is [sample_beat] and whose second voice is
    empty. *)
Definition sample_voice : voice_bytes_of :=
  mkVoiceBytes (x01, x00, x00, x00) [sample_beat].

Definition no_voice : voice_bytes_of := mkVoiceBytes no_word [].

(** * Statements and proofs *)

(** ** Reasoning about the cursor *)

Lemma advance_0 s : advance 0 s = s.
Proof. destruct s; unfold advance; simpl; f_equal; lia. Qed.

Lemma advance_advance n m s : advance m (advance n s) = advance (n + m) s.
Proof. unfold advance; simpl; f_equal; lia. Qed.

Lemma skipn_add {A} (n m : nat) (l : list A) :
  skipn (n + m) l = skipn m (skipn n l).
Proof.
  revert l; induction n as [|n IH]; intros l; simpl; [reflexivity|].
  destruct l; [now rewrite skipn_nil | apply IH].
Qed.

Lemma remaining_advance n s : remaining (advance n s) = skipn n (remaining s).
Proof. unfold remaining, advance; simpl. apply skipn_add. Qed.

Lemma remaining_advance_app inp rest s :
  remaining s = inp ++ rest -> remaining (advance (List.length inp) s) = rest.
Proof.
  intros H. rewrite remaining_advance, H.
  rewrite skipn_app, skipn_all, Nat.sub_diag. reflexivity.
Qed.

Lemma slice_remaining s n :
  slice (data s) (pos s) (pos s + n) = firstn n (remaining s).
Proof. unfold slice, remaining. f_equal. lia. Qed.

Lemma nth_error_remaining s :
  nth_error (data s) (pos s) = hd_error (remaining s).
Proof.
  unfold remaining. generalize (pos s) as n, (data s) as l.
  induction n as [|n IH]; intros [|x l]; simpl; auto.
Qed.

Lemma byte_val_range b : 0 <= byte_val b < 256.
Proof.
  unfold byte_val. pose proof (Byte.to_N_bounded b). lia.
Qed.

Lemma firstn_app_exact {A} (l r : list A) : firstn (List.length l) (l ++ r) = l.
Proof. rewrite firstn_app, Nat.sub_diag, firstn_all. simpl. apply app_nil_r. Qed.

(** *** The scalar readers on a known input *)

Lemma read_byte_remaining s b l :
  remaining s = b :: l -> read_byte s = Ok (byte_val b) (advance 1 s).
Proof.
  intros H. unfold read_byte. rewrite nth_error_remaining, H. reflexivity.
Qed.

Lemma read_byte_end s :
  remaining s = [] -> read_byte s = Raise IndexError.
Proof.
  intros H. unfold read_byte. rewrite nth_error_remaining, H. reflexivity.
Qed.

Lemma read_unpack_remaining n s bs rest :
  List.length bs = n -> remaining s = bs ++ rest ->
  read_unpack n s = Ok (to_signed (8 * Z.of_nat n) (le_unsigned bs)) (advance n s).
Proof.
  intros Hn H. unfold read_unpack. rewrite slice_remaining, H.
  subst n. rewrite firstn_app_exact. unfold struct_unpack.
  rewrite Nat.eqb_refl. reflexivity.
Qed.

Lemma read_unpack_short n s :
  (List.length (remaining s) < n)%nat -> read_unpack n s = Raise StructError.
Proof.
  intros H. unfold read_unpack. rewrite slice_remaining. unfold struct_unpack.
  replace (Nat.eqb _ n) with false; [reflexivity|].
  symmetry. apply Nat.eqb_neq. rewrite length_firstn. lia.
Qed.

(** A successful scalar read moves the cursor by the size of the scalar and
    returns what the bytes under the cursor encode. *)
Lemma read_unpack_ok n s v s' :
  read_unpack n s = Ok v s' ->
  s' = advance n s /\
  List.length (firstn n (remaining s)) = n /\
  v = to_signed (8 * Z.of_nat n) (le_unsigned (firstn n (remaining s))).
Proof.
  unfold read_unpack. rewrite slice_remaining. unfold struct_unpack.
  destruct (Nat.eqb _ n) eqn:E; [|discriminate].
  intros H; inversion H; subst. apply Nat.eqb_eq in E. auto.
Qed.

Lemma read_byte_ok s v s' :
  read_byte s = Ok v s' ->
  s' = advance 1 s /\ exists b l, remaining s = b :: l /\ v = byte_val b.
Proof.
  unfold read_byte. rewrite nth_error_remaining.
  destruct (remaining s) as [|b l]; simpl; [discriminate|].
  intros H; inversion H; subst. eauto.
Qed.

Section Consumes.
Variable v : Z * Z * Z.

Lemma consumes_ret {A} p (a : A) : consumes v p (ret a) [] a.
Proof. intros s rest _ _ _. simpl. now rewrite advance_0. Qed.

Lemma consumes_bind {A B} p (m : M A) (k : A -> M B) i1 i2 a b :
  consumes v p m i1 a ->
  consumes v (p + List.length i1) (k a) i2 b ->
  consumes v p (bind m k) (i1 ++ i2) b.
Proof.
  intros Hm Hk s rest Hv Hp Hrem. unfold bind.
  rewrite <- app_assoc in Hrem.
  rewrite (Hm s _ Hv Hp Hrem).
  rewrite (Hk (advance (List.length i1) s) rest).
  - now rewrite advance_advance, length_app.
  - exact Hv.
  - simpl. now rewrite Hp.
  - now apply remaining_advance_app.
Qed.

Lemma consumes_read_byte p b : consumes v p read_byte [b] (byte_val b).
Proof. intros s rest _ _ H. now apply read_byte_remaining with (l := rest). Qed.

Lemma consumes_read_unpack p n bs :
  List.length bs = n ->
  consumes v p (read_unpack n) bs (to_signed (8 * Z.of_nat n) (le_unsigned bs)).
Proof.
  intros Hn s rest _ _ H. rewrite Hn.
  now apply read_unpack_remaining with (rest := rest).
Qed.

Lemma consumes_skip p n bs : List.length bs = n -> consumes v p (skip n) bs tt.
Proof. intros Hn s rest _ _ _. now rewrite Hn. Qed.

Lemma consumes_get_pos p : consumes v p get_pos [] p.
Proof. intros s rest _ Hp _. unfold get_pos. now rewrite advance_0, Hp. Qed.

Lemma consumes_get_versionTuple p : consumes v p get_versionTuple [] v.
Proof.
  intros s rest Hv _ _. unfold get_versionTuple. now rewrite advance_0, Hv.
Qed.

Lemma consumes_when {A} p (c : bool) (m : M A) i a :
  (c = true -> consumes v p m i a) ->
  consumes v p (when c m) (if c then i else [])
    (if c then Some a else None).
Proof.
  intros H. unfold when. destruct c.
  - rewrite <- (app_nil_r i).
    eapply consumes_bind; [now apply H | apply consumes_ret].
  - apply consumes_ret.
Qed.

(** Cons-shaped inputs. *)
Lemma consumes_cons_byte {B} p (k : Z -> M B) b l r :
  consumes v (p + 1) (k (byte_val b)) l r ->
  consumes v p (bind read_byte k) (b :: l) r.
Proof. intros H. eapply (consumes_bind p read_byte k [b] l); [apply consumes_read_byte | exact H]. Qed.

Lemma consumes_cons_sbyte {B} p (k : Z -> M B) b l r :
  consumes v (p + 1) (k (to_signed 8 (le_unsigned [b]))) l r ->
  consumes v p (bind read_sbyte k) (b :: l) r.
Proof.
  intros H. eapply (consumes_bind p read_sbyte k [b] l); [|exact H].
  now apply (consumes_read_unpack p 1 [b]).
Qed.

Lemma consumes_cons_short {B} p (k : Z -> M B) b0 b1 l r :
  consumes v (p + 2) (k (to_signed 16 (le_unsigned [b0; b1]))) l r ->
  consumes v p (bind read_short k) (b0 :: b1 :: l) r.
Proof.
  intros H. eapply (consumes_bind p read_short k [b0; b1] l); [|exact H].
  now apply (consumes_read_unpack p 2 [b0; b1]).
Qed.

Lemma consumes_cons_int {B} p (k : Z -> M B) b0 b1 b2 b3 l r :
  consumes v (p + 4) (k (to_signed 32 (le_unsigned [b0; b1; b2; b3]))) l r ->
  consumes v p (bind read_int k) (b0 :: b1 :: b2 :: b3 :: l) r.
Proof.
  intros H. eapply (consumes_bind p read_int k [b0; b1; b2; b3] l); [|exact H].
  now apply (consumes_read_unpack p 4 [b0; b1; b2; b3]).
Qed.

Lemma consumes_nil_bind {A B} p (m : M A) (k : A -> M B) a l r :
  consumes v p m [] a ->
  consumes v p (k a) l r ->
  consumes v p (bind m k) l r.
Proof.
  intros Hm Hk. apply (consumes_bind p m k [] l a r Hm).
  simpl. now rewrite Nat.add_0_r.
Qed.
End Consumes.

Lemma bind_ok {A B} (m : M A) (k : A -> M B) s b s' :
  bind m k s = Ok b s' -> exists a s1, m s = Ok a s1 /\ k a s1 = Ok b s'.
Proof. unfold bind. destruct (m s) as [a s1|e]; [eauto | discriminate]. Qed.

Lemma when_ok {A} (c : bool) (m : M A) s o s' :
  when c m s = Ok o s' ->
  (c = true /\ exists a, m s = Ok a s' /\ o = Some a) \/
  (c = false /\ o = None /\ s' = s).
Proof.
  unfold when. destruct c.
  - intros H. apply bind_ok in H as (a & s1 & Hm & Hr).
    inversion Hr; subst. left; eauto.
  - intros H; inversion H; subst. right; auto.
Qed.

(** ** The int-byte-size string *)

Lemma remaining_advance_cons b l s :
  remaining s = b :: l -> remaining (advance 1 s) = l.
Proof. intros H. now apply (remaining_advance_app [b] l s). Qed.

Lemma read_int_remaining s b0 b1 b2 b3 tail :
  remaining s = b0 :: b1 :: b2 :: b3 :: tail ->
  read_int s = Ok (to_signed 32 (le_unsigned [b0; b1; b2; b3])) (advance 4 s).
Proof.
  intros H. now apply (read_unpack_remaining 4 s [b0; b1; b2; b3] tail).
Qed.

Lemma read_int_byte_size_string_empty s b0 b1 b2 b3 tail :
  remaining s = b0 :: b1 :: b2 :: b3 :: tail ->
  to_signed 32 (le_unsigned [b0; b1; b2; b3]) <= 0 ->
  read_int_byte_size_string s = Ok EmptyString (advance 4 s).
Proof.
  intros Hrem HS. unfold read_int_byte_size_string, bind.
  rewrite (read_int_remaining _ _ _ _ _ _ Hrem).
  apply Z.leb_le in HS. now rewrite HS.
Qed.

Lemma read_int_byte_size_string_run s b0 b1 b2 b3 L content :
  remaining s = b0 :: b1 :: b2 :: b3 :: L :: content ->
  0 < to_signed 32 (le_unsigned [b0; b1; b2; b3]) ->
  read_int_byte_size_string s =
    Ok (decode_latin1 (firstn (Z.to_nat (byte_val L)) content))
       (advance (4 + Z.to_nat (to_signed 32 (le_unsigned [b0; b1; b2; b3]))) s).
Proof.
  intros Hrem HS. unfold read_int_byte_size_string, bind.
  rewrite (read_int_remaining _ _ _ _ _ _ Hrem).
  assert (Hle : (to_signed 32 (le_unsigned [b0; b1; b2; b3]) <=? 0) = false)
    by now apply Z.leb_gt.
  rewrite Hle.
  assert (Hr4 : remaining (advance 4 s) = L :: content)
    by (apply (remaining_advance_app [b0; b1; b2; b3]); exact Hrem).
  rewrite (read_byte_remaining _ L content Hr4).
  unfold peek, skip, ret. rewrite slice_remaining.
  rewrite (remaining_advance_cons L content _ Hr4).
  rewrite !advance_advance. do 2 f_equal. lia.
Qed.

(** With the whole block in the buffer and [L <= S - 1], the string is made
    of the first [L] of the [S - 1] content bytes and the cursor ends right
    behind the block. *)
Lemma consumes_int_byte_size_string v p b0 b1 b2 b3 L content :
  to_signed 32 (le_unsigned [b0; b1; b2; b3])
    = Z.of_nat (List.length content) + 1 ->
  (Z.to_nat (byte_val L) <= List.length content)%nat ->
  consumes v p read_int_byte_size_string
    (b0 :: b1 :: b2 :: b3 :: L :: content)
    (decode_latin1 (firstn (Z.to_nat (byte_val L)) content)).
Proof.
  intros HS HL s rest _ _ Hrem. simpl in Hrem.
  rewrite (read_int_byte_size_string_run s b0 b1 b2 b3 L (content ++ rest) Hrem)
    by lia.
  f_equal.
  - now rewrite firstn_app, (proj2 (Nat.sub_0_le _ _) HL), firstn_O, app_nil_r.
  - rewrite HS. f_equal. simpl List.length. lia.
Qed.

Lemma consumes_int_byte_size_string_empty v p b0 b1 b2 b3 :
  to_signed 32 (le_unsigned [b0; b1; b2; b3]) <= 0 ->
  consumes v p read_int_byte_size_string [b0; b1; b2; b3] EmptyString.
Proof.
  intros HS s rest _ _ Hrem. simpl in Hrem.
  now apply (read_int_byte_size_string_empty s b0 b1 b2 b3 rest).
Qed.

(** C4. The int-byte-size string reader reads the 4-byte block size [S].
    When [S <= 0] it returns the empty string with the cursor right behind
    those 4 bytes: neither a length byte nor content is consumed.  When
    [S > 0] it reads the length byte [L], returns the first [L] bytes that
    follow it, decoded as Latin-1, and leaves the cursor [4 + S] bytes
    behind where it started. *)
Theorem read_int_byte_size_string_block :
  forall s b0 b1 b2 b3 tail,
    remaining s = b0 :: b1 :: b2 :: b3 :: tail ->
    let S := to_signed 32 (le_unsigned [b0; b1; b2; b3]) in
    (S <= 0 ->
       read_int_byte_size_string s = Ok EmptyString (advance 4 s)) /\
    (0 < S -> forall L content, tail = L :: content ->
       read_int_byte_size_string s =
         Ok (decode_latin1 (firstn (Z.to_nat (byte_val L)) content))
            (advance (4 + Z.to_nat S) s) /\
       Z.of_nat (pos (advance (4 + Z.to_nat S) s)) = Z.of_nat (pos s) + 4 + S).
Proof.
  intros s b0 b1 b2 b3 tail Hrem S. split.
  - intros HS. now apply (read_int_byte_size_string_empty s b0 b1 b2 b3 tail).
  - intros HS L content ->. split.
    + now apply read_int_byte_size_string_run.
    + simpl. lia.
Qed.

(** The block [03 00 00 00 02 'A' 'B'] holds "AB"; the block size 0 holds
    the empty string and leaves the byte after it unread. *)
Lemma read_int_byte_size_string_block_witness :
  read_int_byte_size_string (init [x03; x00; x00; x00; x02; x41; x42; x07])
    = Ok "AB"%string (advance 7 (init [x03; x00; x00; x00; x02; x41; x42; x07]))
  /\ read_int_byte_size_string (init [x00; x00; x00; x00; x02; x41])
    = Ok EmptyString (advance 4 (init [x00; x00; x00; x00; x02; x41])).
Proof.
  split.
  - exact (proj1 (proj2 (read_int_byte_size_string_block
             (init [x03; x00; x00; x00; x02; x41; x42; x07])
             x03 x00 x00 x00 [x02; x41; x42; x07] eq_refl)
             ltac:(vm_compute; reflexivity) x02 [x41; x42; x07] eq_refl)).
  - exact (proj1 (read_int_byte_size_string_block
             (init [x00; x00; x00; x00; x02; x41])
             x00 x00 x00 x00 [x02; x41] eq_refl)
             ltac:(vm_compute; discriminate)).
Defined.

Section Skips.
Variable v : Z * Z * Z.

Lemma consumes_skips {A} p (m : M A) inp a :
  consumes v p m inp a -> skips v p m inp.
Proof. intros H s rest Hv Hp Hr. exists a. now apply H with (rest := rest). Qed.

Lemma skips_bind {A B} p (m : M A) (k : A -> M B) i1 i2 :
  skips v p m i1 ->
  (forall a, skips v (p + List.length i1) (k a) i2) ->
  skips v p (bind m k) (i1 ++ i2).
Proof.
  intros Hm Hk s rest Hv Hp Hrem. unfold bind.
  rewrite <- app_assoc in Hrem.
  destruct (Hm s _ Hv Hp Hrem) as [a Ha]. rewrite Ha.
  destruct (Hk a (advance (List.length i1) s) rest) as [b Hb].
  - exact Hv.
  - simpl. now rewrite Hp.
  - now apply remaining_advance_app.
  - exists b. now rewrite Hb, advance_advance, length_app.
Qed.

Lemma consumes_skips_bind {A B} p (m : M A) (k : A -> M B) i1 i2 b :
  skips v p m i1 ->
  (forall a, consumes v (p + List.length i1) (k a) i2 b) ->
  consumes v p (bind m k) (i1 ++ i2) b.
Proof.
  intros Hm Hk s rest Hv Hp Hrem. unfold bind.
  rewrite <- app_assoc in Hrem.
  destruct (Hm s _ Hv Hp Hrem) as [a Ha]. rewrite Ha.
  rewrite (Hk a (advance (List.length i1) s) rest).
  - now rewrite advance_advance, length_app.
  - exact Hv.
  - simpl. now rewrite Hp.
  - now apply remaining_advance_app.
Qed.

Lemma skips_when {A} p (c : bool) (m : M A) i :
  (c = true -> skips v p m i) ->
  skips v p (when c m) (if c then i else []).
Proof.
  intros H. unfold when. destruct c.
  - rewrite <- (app_nil_r i). apply skips_bind; [now apply H|].
    intros a. eapply consumes_skips, consumes_ret.
  - eapply consumes_skips, consumes_ret.
Qed.

Lemma fixed_skips {A} n (m : M A) p bs :
  fixed v n m -> List.length bs = n -> skips v p m bs.
Proof. intros H Hn. now apply H. Qed.

Lemma fixed_ret {A} (a : A) : fixed v 0 (ret a).
Proof.
  intros p bs Hn. destruct bs; [|discriminate].
  eapply consumes_skips, consumes_ret.
Qed.

Lemma fixed_read_byte : fixed v 1 read_byte.
Proof.
  intros p [|b [|]] Hn; try discriminate.
  eapply consumes_skips, consumes_read_byte.
Qed.

Lemma fixed_read_unpack n : fixed v n (read_unpack n).
Proof. intros p bs Hn. eapply consumes_skips, consumes_read_unpack, Hn. Qed.

Lemma fixed_skip n : fixed v n (skip n).
Proof. intros p bs Hn. eapply consumes_skips, consumes_skip, Hn. Qed.

Lemma fixed_bind {A B} n1 n2 (m : M A) (k : A -> M B) :
  fixed v n1 m -> (forall a, fixed v n2 (k a)) -> fixed v (n1 + n2) (bind m k).
Proof.
  intros Hm Hk p bs Hn.
  rewrite <- (firstn_skipn n1 bs).
  assert (H1 : List.length (firstn n1 bs) = n1) by (rewrite length_firstn; lia).
  apply skips_bind; [now apply Hm|].
  intros a. apply Hk. rewrite length_skipn. lia.
Qed.

Lemma fixed_repeatM {A} k n (m : M A) :
  fixed v n m -> fixed v (k * n) (repeatM k m).
Proof.
  intros Hm. induction k as [|k IH]; simpl.
  - apply fixed_ret.
  - apply fixed_bind; [exact Hm|]. intros a.
    rewrite <- (Nat.add_0_r (k * n)).
    apply fixed_bind; [exact IH|]. intros xs. apply fixed_ret.
Qed.

Lemma fixed_read_bool : fixed v 1 read_bool.
Proof.
  unfold read_bool. change 1%nat with (1 + 0)%nat.
  apply fixed_bind; [apply fixed_read_byte | intros; apply fixed_ret].
Qed.

(** The fixed-size string: the length byte and [size] bytes, whatever the
    length byte says. *)
Lemma fixed_read_byte_size_string size :
  fixed v (1 + size) (read_byte_size_string size).
Proof.
  intros p [|b bs] Hn; [discriminate|]. injection Hn as Hn.
  intros s rest Hv Hp Hrem. simpl in Hrem.
  unfold read_byte_size_string, bind.
  rewrite (read_byte_remaining s b (bs ++ rest) Hrem).
  unfold peek, skip, ret. eexists. rewrite advance_advance.
  simpl List.length. rewrite Hn. reflexivity.
Qed.

(** Loops over a list of items, each with its own bytes. *)
Lemma consumes_repeatM {X A} (f : X -> list byte) (g : X -> A) (m : M A) :
  (forall p x, consumes v p m (f x) (g x)) ->
  forall xs p,
    consumes v p (repeatM (List.length xs) m) (flat_map f xs) (map g xs).
Proof.
  intros Hm. induction xs as [|x xs IH]; intros p; simpl.
  - apply consumes_ret.
  - eapply consumes_bind; [apply Hm|].
    rewrite <- (app_nil_r (flat_map f xs)).
    eapply consumes_bind; [apply IH | apply consumes_ret].
Qed.
End Skips.

(** ** Byte layouts *)

Lemma word_bytes_length w : List.length (word_bytes w) = 4%nat.
Proof. now destruct w as [[[a b] c] d]. Qed.

Section Layout.
Variable v : Z * Z * Z.

Lemma consumes_bind_nil_r {A B} p (m : M A) (k : A -> M B) i a b :
  consumes v p m i a ->
  consumes v (p + List.length i) (k a) [] b ->
  consumes v p (bind m k) i b.
Proof.
  intros Hm Hk. rewrite <- (app_nil_r i). now apply consumes_bind with (a := a).
Qed.

Lemma consumes_read_word p w : consumes v p read_int (word_bytes w) (word_val w).
Proof. apply (consumes_read_unpack v p 4). apply word_bytes_length. Qed.

Lemma consumes_read_sbyte p b : consumes v p read_sbyte [b] (sbyte_val b).
Proof. now apply (consumes_read_unpack v p 1 [b]). Qed.

Lemma consumes_read_short p b0 b1 :
  consumes v p read_short [b0; b1] (short_val b0 b1).
Proof. now apply (consumes_read_unpack v p 2 [b0; b1]). Qed.
End Layout.

(** *** Bend and tremolo-bar points *)

Lemma consumes_point v p pt :
  consumes v p (read_int ;;; read_int ;;; read_byte) (point_bytes pt)
    (byte_val (snd pt)).
Proof.
  destruct pt as [[position value] vibrato]. unfold point_bytes.
  eapply consumes_bind; [apply consumes_read_word|].
  eapply consumes_bind; [apply consumes_read_word|].
  apply consumes_read_byte.
Qed.

Lemma consumes_read_points v p b :
  points_wf b -> consumes v p read_points (points_bytes b) tt.
Proof.
  intros Hwf. unfold read_points, points_bytes.
  apply consumes_cons_byte.
  eapply consumes_bind; [apply consumes_read_word|].
  eapply consumes_bind; [apply consumes_read_word|].
  rewrite Hwf.
  eapply consumes_bind_nil_r.
  - apply (consumes_repeatM v point_bytes (fun pt => byte_val (snd pt))).
    intros q pt. apply consumes_point.
  - apply consumes_ret.
Qed.

(** *** Note effects *)

Lemma skips_grace v p g :
  skips v p (read_byte ;;; read_byte ;;; read_byte ;;; read_byte ;;; read_byte)
    (grace_bytes g).
Proof.
  destruct g as [[[[a b] c] d] e]. eapply consumes_skips.
  do 4 apply consumes_cons_byte. apply consumes_read_byte.
Qed.

Lemma skips_harmonic v p h art tap :
  skips v p
    (harmonic_type <- read_sbyte ;;
     if harmonic_type =? 2 then read_byte ;;; read_sbyte ;;; read_byte ;;; ret tt
     else if harmonic_type =? 3 then read_byte ;;; ret tt
     else ret tt)
    (harmonic_bytes h art tap).
Proof.
  unfold harmonic_bytes. eapply consumes_skips.
  apply consumes_cons_sbyte. fold (sbyte_val h).
  destruct (sbyte_val h =? 2).
  - destruct art as [[a b] c].
    apply consumes_cons_byte, consumes_cons_sbyte, consumes_cons_byte, consumes_ret.
  - destruct (sbyte_val h =? 3).
    + apply consumes_cons_byte, consumes_ret.
    + apply consumes_ret.
Qed.

Lemma consumes_read_note_effects v p e :
  note_effects_wf e -> consumes v p read_note_effects (note_effects_bytes e) tt.
Proof.
  intros Hwf.
  unfold read_note_effects, note_effects_bytes, note_effects_head,
    note_effects_tail, opt.
  rewrite <- app_assoc.
  do 2 apply consumes_cons_byte.
  eapply consumes_skips_bind.
  { apply skips_when. intros Hc. eapply consumes_skips, consumes_read_points.
    now apply Hwf. }
  intros _. eapply consumes_skips_bind.
  { apply skips_when. intros _. apply skips_grace. }
  intros _. eapply consumes_skips_bind.
  { apply skips_when. intros _. eapply consumes_skips, consumes_read_byte. }
  intros _. eapply consumes_skips_bind.
  { apply skips_when. intros _. eapply consumes_skips, consumes_read_byte. }
  intros _. eapply consumes_skips_bind.
  { apply skips_when. intros _. apply skips_harmonic. }
  intros _. eapply consumes_bind_nil_r; [|apply consumes_ret].
  apply consumes_when. intros _.
  apply consumes_cons_byte, consumes_read_byte.
Qed.

Lemma grace_bytes_length g : List.length (grace_bytes g) = 5%nat.
Proof. now destruct g as [[[[a b] c] d] e]. Qed.

(** C3. With the grace bit (0x10) of the first effect-flags byte set, the
    note-effect reader consumes exactly 5 bytes for the grace note (fret,
    velocity, transition, duration, flags) between the bend and the
    effects gated by the second flags byte. *)
Theorem read_note_effects_grace :
  forall s e rest,
    note_effects_wf e ->
    flag_set (byte_val (ne_flags1 e)) 0x10 = true ->
    remaining s =
      note_effects_head e ++ grace_bytes (ne_grace e)
        ++ note_effects_tail e ++ rest ->
    read_note_effects s =
      Ok tt (advance (List.length (note_effects_head e) + 5
                      + List.length (note_effects_tail e)) s).
Proof.
  intros s e rest Hwf Hg Hrem.
  pose proof (consumes_read_note_effects (versionTuple s) (pos s) e Hwf) as H.
  unfold note_effects_bytes, opt in H. rewrite Hg in H.
  rewrite (H s rest eq_refl eq_refl).
  - now rewrite !length_app, grace_bytes_length, Nat.add_assoc.
  - now rewrite <- !app_assoc.
Qed.

(** Without the grace bit nothing is consumed between the bend and the
    effects of the second flags byte. *)
Lemma read_note_effects_no_grace :
  forall s e rest,
    note_effects_wf e ->
    flag_set (byte_val (ne_flags1 e)) 0x10 = false ->
    remaining s = note_effects_head e ++ note_effects_tail e ++ rest ->
    read_note_effects s =
      Ok tt (advance (List.length (note_effects_head e)
                      + List.length (note_effects_tail e)) s).
Proof.
  intros s e rest Hwf Hg Hrem.
  pose proof (consumes_read_note_effects (versionTuple s) (pos s) e Hwf) as H.
  unfold note_effects_bytes, opt in H. rewrite Hg in H.
  rewrite (H s rest eq_refl eq_refl).
  - now rewrite !length_app.
  - now rewrite <- !app_assoc.
Qed.

(** Effect flags 0x10 and 0x00: the two flag bytes and the 5 bytes of the
    grace note, 7 bytes in all. *)
Lemma read_note_effects_grace_witness :
  read_note_effects (init [x10; x00; x03; x06; x01; x02; x00; xff])
    = Ok tt (advance 7 (init [x10; x00; x03; x06; x01; x02; x00; xff])).
Proof.
  exact (read_note_effects_grace
           (init [x10; x00; x03; x06; x01; x02; x00; xff]) grace_only [xff]
           (fun H => False_ind _ (Bool.diff_false_true H))
           eq_refl eq_refl).
Defined.

(** *** Int-byte-size blocks *)

Lemma consumes_block v p b :
  block_wf b -> consumes v p read_int_byte_size_string (block_bytes b) (block_str b).
Proof.
  intros [Hs Hl]. unfold block_bytes, block_str, opt.
  destruct b as [[[[b0 b1] b2] b3] L content]; simpl in *.
  fold (word_val (b0, b1, b2, b3)) in *.
  destruct (0 <? word_val (b0, b1, b2, b3)) eqn:E.
  - apply Z.ltb_lt in E.
    apply consumes_int_byte_size_string; [apply Hs, E | apply Hl, E].
  - apply Z.ltb_ge in E. now apply consumes_int_byte_size_string_empty.
Qed.

Lemma skips_block v p b :
  block_sized b -> skips v p read_int_byte_size_string (block_bytes b).
Proof.
  unfold block_bytes, block_sized, opt.
  destruct b as [[[[b0 b1] b2] b3] L content].
  cbn [bk_size bk_len bk_content]. intros Hs.
  destruct (0 <? word_val (b0, b1, b2, b3)) eqn:E.
  - apply Z.ltb_lt in E. specialize (Hs E).
    intros s rest _ _ Hrem. cbn [word_bytes app] in Hrem.
    rewrite (read_int_byte_size_string_run s b0 b1 b2 b3 L (content ++ rest) Hrem)
      by exact E.
    eexists. f_equal.
    change (to_signed 32 (le_unsigned [b0; b1; b2; b3]))
      with (word_val (b0, b1, b2, b3)).
    rewrite Hs. f_equal. rewrite length_app. cbn [word_bytes List.length]. lia.
  - apply Z.ltb_ge in E.
    eapply consumes_skips. now apply consumes_int_byte_size_string_empty.
Qed.

(** *** Note layout *)

Lemma consumes_ret_eq {A} v p (a a' : A) : a = a' -> consumes v p (ret a) [] a'.
Proof. intros <-. apply consumes_ret. Qed.

Lemma consumes_read_note v p n :
  note_wf n -> consumes v p read_note (note_bytes n) (note_of n p).
Proof.
  intros [Hd He]. unfold read_note, note_bytes, opt.
  eapply consumes_nil_bind; [apply consumes_get_pos|].
  apply consumes_cons_byte.
  eapply consumes_bind.
  { apply consumes_when. intros _. apply consumes_read_byte. }
  eapply consumes_bind.
  { apply consumes_when. intros _. apply consumes_read_sbyte. }
  eapply consumes_bind.
  { apply consumes_when. intros _. apply consumes_read_sbyte. }
  eapply consumes_skips_bind.
  { apply skips_when. intros _. eapply consumes_skips.
    apply consumes_cons_sbyte, consumes_read_sbyte. }
  intros _. eapply consumes_skips_bind.
  { apply skips_when. intros Hc. eapply consumes_skips.
    apply consumes_skip. now apply Hd. }
  intros _. apply consumes_cons_byte.
  eapply consumes_bind_nil_r.
  { apply consumes_when. intros Hc. apply consumes_read_note_effects.
    now apply He. }
  apply consumes_ret_eq. unfold note_of.
  destruct (flag_set (byte_val (nw_flags n)) 32); reflexivity.
Qed.

(** *** The notes of a beat *)

Lemma consumes_read_notes v ss string_flags :
  forall ns p,
    Forall note_wf ns ->
    List.length ns = List.length (set_bits ss string_flags) ->
    consumes v p (read_notes ss string_flags) (flat_map note_bytes ns)
      (notes_of ns (set_bits ss string_flags) p).
Proof.
  unfold set_bits.
  induction ss as [|s ss IH]; intros ns p Hwf Hlen;
    cbn [read_notes filter] in *.
  - destruct ns; [apply consumes_ret | discriminate].
  - destruct (flag_set string_flags (Z.shiftl 1 s)).
    + destruct ns as [|n ns]; [discriminate|].
      inversion Hwf; subst. injection Hlen as Hlen.
      cbn [flat_map notes_of].
      eapply consumes_bind; [now apply consumes_read_note|].
      eapply consumes_bind_nil_r; [now apply IH | apply consumes_ret].
    + now apply IH.
Qed.

(** *** Beat effects *)

Lemma skips_read_beat_effects v p e :
  beat_effects_wf e -> skips v p read_beat_effects (beat_effects_bytes e).
Proof.
  intros Hwf. unfold read_beat_effects, beat_effects_bytes, opt.
  eapply consumes_skips.
  do 2 apply consumes_cons_byte.
  eapply consumes_skips_bind.
  { apply skips_when. intros _. eapply consumes_skips, consumes_read_sbyte. }
  intros _. eapply consumes_skips_bind.
  { apply skips_when. intros Hc. eapply consumes_skips, consumes_read_points.
    now apply Hwf. }
  intros _. eapply consumes_skips_bind.
  { apply skips_when. intros _. eapply consumes_skips.
    apply consumes_cons_byte, consumes_read_byte. }
  intros _. eapply consumes_bind_nil_r; [|apply consumes_ret].
  apply consumes_when. intros _. apply consumes_read_sbyte.
Qed.

(** *** Chords *)

Lemma fixed_bind_eq {A B} v n n1 n2 (m : M A) (k : A -> M B) :
  fixed v n1 m -> (forall a, fixed v n2 (k a)) -> n = (n1 + n2)%nat ->
  fixed v n (bind m k).
Proof. intros Hm Hk ->. now apply fixed_bind. Qed.

Lemma fixed_repeatM_eq {A} v n k n1 (m : M A) :
  fixed v n1 m -> n = (k * n1)%nat -> fixed v n (repeatM k m).
Proof. intros Hm ->. now apply fixed_repeatM. Qed.

Ltac fixed_solve :=
  lazymatch goal with
  | |- fixed _ _ (bind _ _) =>
      eapply fixed_bind_eq; [fixed_solve | intros; fixed_solve | reflexivity]
  | |- fixed _ _ (ret _) => apply fixed_ret
  | |- fixed _ _ read_byte => apply fixed_read_byte
  | |- fixed _ _ read_bool => apply fixed_read_bool
  | |- fixed _ _ read_sbyte => apply fixed_read_unpack
  | |- fixed _ _ read_short => apply fixed_read_unpack
  | |- fixed _ _ read_int => apply fixed_read_unpack
  | |- fixed _ _ (skip _) => apply fixed_skip
  | |- fixed _ _ (repeatM _ _) =>
      eapply fixed_repeatM_eq; [fixed_solve | reflexivity]
  | |- fixed _ _ (read_byte_size_string _) => apply fixed_read_byte_size_string
  end.

Lemma words_length (ws : list word) :
  List.length (flat_map word_bytes ws) = (4 * List.length ws)%nat.
Proof.
  induction ws as [|w ws IH]; [reflexivity|].
  cbn [flat_map]. rewrite length_app, word_bytes_length, IH. simpl. lia.
Qed.

Section SkipsAfter.
Variable v : Z * Z * Z.

(** A value that steers what follows, then bytes whose values are
    dropped. *)
Lemma skips_after {A B} p (m : M A) (k : A -> M B) i1 i2 a :
  consumes v p m i1 a ->
  skips v (p + List.length i1) (k a) i2 ->
  skips v p (bind m k) (i1 ++ i2).
Proof.
  intros Hm Hk s rest Hv Hp Hrem. unfold bind.
  rewrite <- app_assoc in Hrem.
  rewrite (Hm s _ Hv Hp Hrem).
  destruct (Hk (advance (List.length i1) s) rest) as [b Hb].
  - exact Hv.
  - simpl. now rewrite Hp.
  - now apply remaining_advance_app.
  - exists b. now rewrite Hb, advance_advance, length_app.
Qed.

Lemma skips_cons_byte {B} p (k : Z -> M B) b l :
  skips v (p + 1) (k (byte_val b)) l ->
  skips v p (bind read_byte k) (b :: l).
Proof.
  intros H. apply (skips_after p read_byte k [b] l (byte_val b));
    [apply consumes_read_byte | exact H].
Qed.

Lemma skips_cons_sbyte {B} p (k : Z -> M B) b l :
  skips v (p + 1) (k (sbyte_val b)) l ->
  skips v p (bind read_sbyte k) (b :: l).
Proof.
  intros H. apply (skips_after p read_sbyte k [b] l (sbyte_val b));
    [apply consumes_read_sbyte | exact H].
Qed.

Lemma skips_unit p (m : M unit) inp :
  skips v p m inp -> consumes v p m inp tt.
Proof.
  intros H s rest Hv Hp Hrem.
  destruct (H s rest Hv Hp Hrem) as [[] Ha]. exact Ha.
Qed.

Lemma skips_bind_nil_r {A B} p (m : M A) (k : A -> M B) i :
  skips v p m i ->
  (forall a, skips v (p + List.length i) (k a) []) ->
  skips v p (bind m k) i.
Proof.
  intros Hm Hk. rewrite <- (app_nil_r i). now apply skips_bind.
Qed.

Lemma skips_ret {A} p (a : A) : skips v p (ret a) [].
Proof. eapply consumes_skips, consumes_ret. Qed.

Lemma skips_read_word p w : skips v p read_int (word_bytes w).
Proof. eapply consumes_skips, consumes_read_word. Qed.
End SkipsAfter.

Lemma skips_read_chord v p c :
  chord_wf c -> skips v p read_chord (chord_bytes c).
Proof.
  destruct c as [name first_fret frets | format diagram];
    unfold read_chord, chord_bytes, chord_wf.
  - intros [Hname Hfrets].
    apply skips_cons_byte. change (byte_val x00 =? 0) with true. cbv iota.
    apply skips_bind; [now apply skips_block|]. intros _.
    eapply skips_after; [apply consumes_read_word|].
    unfold opt. destruct (0 <? word_val first_fret) eqn:E.
    + apply Z.ltb_lt in E.
      apply skips_bind_nil_r; [|intros; apply skips_ret].
      apply (fixed_skips v 24); [fixed_solve|].
      rewrite words_length, (Hfrets E). reflexivity.
    + apply skips_ret.
  - intros [Hformat Hlen].
    apply skips_cons_byte.
    apply Z.eqb_neq in Hformat. rewrite Hformat.
    apply (fixed_skips v 84); [fixed_solve | exact Hlen].
Qed.

(** *** Mix table changes *)

Lemma skips_nil_after {A B} v p (m : M A) (k : A -> M B) l a :
  consumes v p m [] a -> skips v p (k a) l -> skips v p (bind m k) l.
Proof.
  intros Hm Hk. apply (skips_after v p m k [] l a Hm).
  simpl. now rewrite Nat.add_0_r.
Qed.

Lemma skips_read_mix_table v p m :
  mix_table_wf v m -> skips v p read_mix_table (mix_table_bytes v m).
Proof.
  intros (Heff & Hname & Hb1 & Hb2).
  unfold read_mix_table, mix_table_bytes, opt.
  destruct (mx_rse m) as [[r1 r2] r3].
  apply skips_cons_sbyte.
  do 3 (apply skips_bind; [apply skips_read_word | intros _]).
  eapply skips_nil_after; [apply consumes_get_versionTuple|].
  apply skips_bind.
  { apply (fixed_skips v (if tuple_eqb v (5, 0, 0) then 3%nat else 4%nat));
      [|exact Heff].
    destruct (tuple_eqb v (5, 0, 0)); fixed_solve. }
  intros _. do 6 apply skips_cons_sbyte.
  apply skips_bind; [now apply skips_block | intros _].
  eapply skips_after; [apply consumes_read_word|].
  do 6 (apply skips_bind;
        [apply skips_when; intros _; eapply consumes_skips, consumes_read_byte
        | intros _]).
  apply skips_bind.
  { apply skips_when. intros _.
    apply skips_cons_byte.
    apply skips_when. intros _.
    apply (fixed_skips v 1); [fixed_solve | reflexivity]. }
  intros _. apply skips_cons_byte.
  apply skips_bind.
  { apply skips_when. intros _. eapply consumes_skips, consumes_read_sbyte. }
  intros _. apply skips_bind; [now apply skips_block | intros _].
  apply skips_bind_nil_r; [now apply skips_block | intros; apply skips_ret].
Qed.

(** *** Beats *)

Lemma consumes_at {A} v p p' (m : M A) i a :
  p' = p -> consumes v p m i a -> consumes v p' m i a.
Proof. now intros ->. Qed.

Lemma consumes_read_beat v p b :
  beat_wf v b -> consumes v p read_beat (beat_bytes v b) (beat_of v b p).
Proof.
  intros (Hchord & Htext & Heff & Hmix & Hnotes & Hlen).
  unfold read_beat, beat_bytes, beat_head_bytes, beat_tail_bytes, opt.
  rewrite <- !app_assoc.
  eapply consumes_nil_bind; [apply consumes_get_pos|].
  apply consumes_cons_byte.
  eapply consumes_bind.
  { apply consumes_when. intros _. apply consumes_read_byte. }
  apply consumes_cons_sbyte.
  eapply consumes_bind.
  { apply consumes_when. intros _. apply consumes_read_word. }
  eapply consumes_skips_bind.
  { apply skips_when. intros Hc. apply skips_read_chord. now apply Hchord. }
  intros _. eapply consumes_bind.
  { apply consumes_when. intros Hc. apply consumes_block. now apply Htext. }
  eapply consumes_skips_bind.
  { apply skips_when. intros Hc. apply skips_read_beat_effects. now apply Heff. }
  intros _. eapply consumes_skips_bind.
  { apply skips_when. intros Hc. apply skips_read_mix_table. now apply Hmix. }
  intros _. apply consumes_cons_byte.
  eapply consumes_bind.
  { eapply (consumes_at _ (p + List.length (beat_head_bytes v b)));
      [|now apply consumes_read_notes].
    unfold beat_head_bytes, opt. rewrite !length_app. simpl List.length. lia. }
  apply consumes_cons_short.
  eapply consumes_bind_nil_r.
  { apply consumes_when. intros _. apply consumes_read_byte. }
  apply consumes_ret_eq. reflexivity.
Qed.

(** ** A beat with one note on the first string *)

Lemma single_note_beat_wf v d nf2 lo hi x : beat_wf v (single_note_beat d nf2 lo hi x).
Proof.
  unfold beat_wf, single_note_beat; cbn.
  repeat split; try discriminate.
  repeat constructor; cbn; discriminate.
Qed.

(** C2, as the code has it.  A beat with flags 0x00 and string flags 0x40
    whose note has flags 0x30 followed by type 1, velocity 6 and fret 5
    decodes to exactly one note with fret 5 and velocity 6: the type byte
    comes first, then the velocity (bit 4), then the fret under the same
    bit 5 as the type.  The note carries the string index [6 - 6 = 0]:
    strings are counted from 0. *)
Theorem read_beat_single_note :
  forall s d nf2 lo hi x rest,
    remaining s =
      [x00; d; x40; x30; x01; x06; x05; nf2; lo; hi]
        ++ opt (flag_set (short_val lo hi) 0x0800) [x] ++ rest ->
    exists b s',
      read_beat s = Ok b s' /\
      b_notes b =
        [mkNote (pos s + 3) 0x30 5 (Some 1) (Some 6) (byte_val nf2) (Some 0)].
Proof.
  intros s d nf2 lo hi x rest Hrem.
  pose proof (consumes_read_beat (versionTuple s) (pos s) _
                (single_note_beat_wf (versionTuple s) d nf2 lo hi x)) as H.
  eexists; eexists; split.
  - apply (H s rest eq_refl eq_refl). exact Hrem.
  - reflexivity.
Qed.

(** The beat with duration 0 and blank flags2. *)
Lemma read_beat_single_note_witness :
  exists b s',
    read_beat (init [x00; x00; x40; x30; x01; x06; x05; x00; x00; x00]) = Ok b s' /\
    b_notes b = [mkNote 3 0x30 5 (Some 1) (Some 6) 0 (Some 0)].
Proof.
  exact (read_beat_single_note
           (init [x00; x00; x40; x30; x01; x06; x05; x00; x00; x00])
           x00 x00 x00 x00 x00 [] eq_refl).
Defined.

(** The same beat does not decode to a note with string 1. *)
Lemma read_beat_single_note_string_1_fails :
  ~ exists b s' n,
      read_beat (init [x00; x00; x40; x30; x01; x06; x05; x00; x00; x00]) = Ok b s' /\
      b_notes b = [n] /\
      n_string n = Some 1 /\ n_fret n = 5 /\ n_velocity n = Some 6.
Proof.
  intros (b & s' & n & Hr & Hn & Hs & _).
  vm_compute in Hr. inversion Hr; subst b. cbn in Hn.
  inversion Hn; subst n. discriminate.
Qed.

(** ** What every decoded beat satisfies *)

Ltac inv_bind H :=
  let a := fresh "a" in
  let s1 := fresh "s" in
  let H1 := fresh "H" in
  apply bind_ok in H as (a & s1 & H1 & H).

Lemma read_notes_strings ss string_flags :
  forall s ns s',
    read_notes ss string_flags s = Ok ns s' ->
    map n_string ns = map (fun b => Some (6 - b)) (set_bits ss string_flags).
Proof.
  unfold set_bits.
  induction ss as [|b ss IH]; intros s ns s' H; cbn [read_notes filter] in *.
  - inversion H; reflexivity.
  - destruct (flag_set string_flags (Z.shiftl 1 b)).
    + inv_bind H. inv_bind H. inversion H; subst.
      cbn [map]. f_equal. eauto.
    + eauto.
Qed.

Lemma set_bits_popcount b :
  List.length (set_bits string_range (byte_val b))
    = popcount (Z.land (byte_val b) 0x7F).
Proof. destruct b; vm_compute; reflexivity. Qed.

Lemma read_beat_inv s b s' :
  read_beat s = Ok b s' ->
  exists sf q1 q2 q3 o,
    b_stringFlags b = byte_val sf /\
    read_notes string_range (byte_val sf) q1 = Ok (b_notes b) q2 /\
    read_short q2 = Ok (b_flags2 b) q3 /\
    when (flag_set (b_flags2 b) 0x0800) read_byte q3 = Ok o s'.
Proof.
  intros H. unfold read_beat in H.
  do 9 inv_bind H.
  apply bind_ok in H as (sfv & q1 & Hsf & H).
  apply bind_ok in H as (ns & q2 & Hns & H).
  apply bind_ok in H as (f2 & q3 & Hf2 & H).
  apply bind_ok in H as (o & q4 & Hbr & H).
  inversion H; subst; clear H.
  apply read_byte_ok in Hsf as (-> & sf & l & Hl & ->).
  cbn [b_stringFlags b_notes b_flags2].
  exists sf. do 4 eexists. repeat split; eassumption.
Qed.

(** C9, as the code has it.  A decoded beat holds one note for every set
    bit among bits 6 to 0 of its string flags, in that order, so their number
    is the popcount of the low seven bits; bit 7 of the byte brings no note.
    The note of bit [s] carries the string index [6 - s], from 0 to 6. *)
Theorem read_beat_note_count :
  forall s b s',
    read_beat s = Ok b s' ->
    List.length (b_notes b) = popcount (Z.land (b_stringFlags b) 0x7F) /\
    map n_string (b_notes b)
      = map (fun bit => Some (6 - bit)) (set_bits string_range (b_stringFlags b)).
Proof.
  intros s b s' H.
  apply read_beat_inv in H as (sf & q1 & q2 & q3 & o & Hsf & Hns & _).
  apply read_notes_strings in Hns. rewrite Hsf. split; [|exact Hns].
  rewrite <- set_bits_popcount.
  rewrite <- (length_map n_string), Hns. apply length_map.
Qed.

(** String flags 0x45: notes on the strings 0, 4 and 6. *)
Lemma read_beat_note_count_witness :
  exists b s',
    read_beat (init [x00; x00; x45; x00; x00; x00; x00; x00; x00; x00; x00]) = Ok b s' /\
    List.length (b_notes b) = 3%nat /\
    map n_string (b_notes b) = [Some 0; Some 4; Some 6].
Proof.
  eexists; eexists; split; [vm_compute; reflexivity|].
  exact (read_beat_note_count
           (init [x00; x00; x45; x00; x00; x00; x00; x00; x00; x00; x00]) _ _ eq_refl).
Defined.

(** String flags 0x80: the byte has one bit set and the beat has no note. *)
Lemma read_beat_note_count_bit7 :
  exists b s',
    read_beat (init [x00; x00; x80; x00; x00]) = Ok b s' /\
    b_stringFlags b = 0x80 /\
    List.length (b_notes b) <> popcount (b_stringFlags b).
Proof.
  eexists; eexists; split; [vm_compute; reflexivity|].
  split; [reflexivity | vm_compute; discriminate].
Qed.

(** ** The byte behind the flags2 short of a beat *)

Lemma land_pow2 f n :
  0 <= n -> Z.land f (2 ^ n) = if Z.testbit f n then 2 ^ n else 0.
Proof.
  intros Hn. apply Z.bits_inj'. intros m Hm.
  rewrite Z.land_spec, Z.pow2_bits_eqb by lia.
  destruct (Z.eqb_spec n m) as [->|Hne].
  - destruct (Z.testbit f m) eqn:E; cbn.
    + now rewrite Z.pow2_bits_true.
    + now rewrite Z.bits_0.
  - rewrite andb_false_r.
    destruct (Z.testbit f n).
    + rewrite Z.pow2_bits_false; auto.
    + now rewrite Z.bits_0.
Qed.

Lemma flag_set_pow2 f n : 0 <= n -> flag_set f (2 ^ n) = Z.testbit f n.
Proof.
  intros Hn. unfold flag_set. rewrite land_pow2 by exact Hn.
  destruct (Z.testbit f n); [|reflexivity].
  assert (0 < 2 ^ n) by (apply Z.pow_pos_nonneg; lia).
  apply negb_true_iff, Z.eqb_neq. lia.
Qed.

Lemma flag_set_0x0800 f : flag_set f 0x0800 = Z.testbit f 11.
Proof. exact (flag_set_pow2 f 11 ltac:(lia)). Qed.

(** C10. The flags2 short of a decoded beat lies right before the end of
    the beat when its bit 11 (0x0800) is clear, and one byte before the end
    when the bit is set: the decoder consumes one more byte behind the
    short if and only if that bit is set. *)
Theorem read_beat_break_byte :
  forall s b s',
    read_beat s = Ok b s' ->
    let extra := if Z.testbit (b_flags2 b) 11 then 1%nat else 0%nat in
    (2 + extra <= pos s')%nat /\
    (pos s' <= List.length (data s'))%nat /\
    struct_unpack 2 (slice (data s') (pos s' - (2 + extra)) (pos s' - extra))
      = Some (b_flags2 b).
Proof.
  intros s b s' H.
  apply read_beat_inv in H as (sf & q1 & q2 & q3 & o & _ & _ & Hf2 & Hbr).
  rewrite flag_set_0x0800 in Hbr.
  apply read_unpack_ok in Hf2 as (-> & Hlen & Hval).
  assert (Hq2 : (pos q2 + 2 <= List.length (data q2))%nat).
  { rewrite length_firstn in Hlen. unfold remaining in Hlen.
    rewrite length_skipn in Hlen. lia. }
  assert (Hslice : struct_unpack 2 (slice (data q2) (pos q2) (pos q2 + 2))
                   = Some (b_flags2 b)).
  { rewrite slice_remaining. unfold struct_unpack. rewrite Hlen, Hval.
    reflexivity. }
  destruct (when_ok _ _ _ _ _ Hbr) as [(Hc & a & Ha & _) | (Hc & _ & ->)];
    rewrite Hc; cbv zeta.
  - apply read_byte_ok in Ha as (-> & b0 & l0 & Hb0 & _).
    assert (Hpos : (pos q2 + 2 < List.length (data q2))%nat).
    { rewrite remaining_advance in Hb0. unfold remaining in Hb0.
      rewrite <- skipn_add in Hb0.
      apply (f_equal (@List.length byte)) in Hb0.
      rewrite length_skipn in Hb0. simpl in Hb0. lia. }
    simpl. repeat split; try lia.
    replace (pos q2 + 2 + 1 - 3)%nat with (pos q2) by lia.
    replace (pos q2 + 2 + 1 - 1)%nat with (pos q2 + 2)%nat by lia.
    exact Hslice.
  - simpl. repeat split; try lia.
    replace (pos q2 + 2 - 2)%nat with (pos q2) by lia.
    replace (pos q2 + 2 - 0)%nat with (pos q2 + 2)%nat by lia.
    exact Hslice.
Qed.

(** Flags2 0x0800 takes the byte 0x07 behind it into the beat; flags2
    0x0000 leaves it. *)
Lemma read_beat_break_byte_witness :
  (exists b s',
     read_beat (init [x00; x00; x00; x00; x08; x07]) = Ok b s' /\
     pos s' = 6%nat /\
     struct_unpack 2 (slice (data s') 3 5) = Some (b_flags2 b)) /\
  (exists b s',
     read_beat (init [x00; x00; x00; x00; x00; x07]) = Ok b s' /\
     pos s' = 5%nat /\
     struct_unpack 2 (slice (data s') 3 5) = Some (b_flags2 b)).
Proof.
  split; (eexists; eexists; split; [vm_compute; reflexivity|];
          split; [reflexivity|]).
  - exact (proj2 (proj2 (read_beat_break_byte
             (init [x00; x00; x00; x00; x08; x07]) _ _ eq_refl))).
  - exact (proj2 (proj2 (read_beat_break_byte
             (init [x00; x00; x00; x00; x00; x07]) _ _ eq_refl))).
Defined.

(** ** Voices *)

Lemma repeatM_length {A} (m : M A) n :
  forall s xs s', repeatM n m s = Ok xs s' -> List.length xs = n.
Proof.
  induction n as [|n IH]; intros s xs s' H; cbn [repeatM] in H.
  - inversion H; reflexivity.
  - inv_bind H. inv_bind H. inversion H; subst. cbn. f_equal. eauto.
Qed.

Lemma read_word_remaining s w rest :
  remaining s = word_bytes w ++ rest ->
  read_int s = Ok (word_val w) (advance 4 s).
Proof.
  intros Hrem. destruct w as [[[b0 b1] b2] b3].
  now apply (read_int_remaining s b0 b1 b2 b3 rest).
Qed.

(** A voice of [n] beats: the count and the beats. *)
Lemma read_voice_in_range s w rest :
  remaining s = word_bytes w ++ rest ->
  0 <= word_val w <= 128 ->
  read_voice s = repeatM (Z.to_nat (word_val w)) read_beat (advance 4 s).
Proof.
  intros Hrem Hw. unfold read_voice, bind.
  rewrite (read_word_remaining s w rest Hrem).
  replace (word_val w <? 0) with false by (symmetry; apply Z.ltb_ge; lia).
  replace (128 <? word_val w) with false by (symmetry; apply Z.ltb_ge; lia).
  reflexivity.
Qed.

(** C6. A voice starts with a beat-count int.  A count below 0 or above
    128 ends the voice at once: no beat is decoded, the reader returns the
    empty list with the cursor right behind the count and raises nothing,
    so the caller goes on.  A count from 0 to 128 is followed by exactly
    that many beats. *)
Theorem read_voice_beat_count :
  forall s w rest,
    remaining s = word_bytes w ++ rest ->
    (word_val w < 0 \/ 128 < word_val w ->
       read_voice s = Ok [] (advance 4 s)) /\
    (0 <= word_val w <= 128 ->
       read_voice s = repeatM (Z.to_nat (word_val w)) read_beat (advance 4 s) /\
       forall beats s',
         read_voice s = Ok beats s' ->
         Z.of_nat (List.length beats) = word_val w).
Proof.
  intros s w rest Hrem. split.
  - intros Hw. unfold read_voice, bind.
    rewrite (consumes_read_word (versionTuple s) (pos s) w s rest eq_refl eq_refl Hrem).
    rewrite word_bytes_length.
    replace ((word_val w <? 0) || (128 <? word_val w)) with true; [reflexivity|].
    symmetry. apply orb_true_iff.
    destruct Hw; [left; apply Z.ltb_lt | right; apply Z.ltb_lt]; lia.
  - intros Hw. split; [now apply read_voice_in_range with (rest := rest)|].
    intros beats s' H.
    rewrite (read_voice_in_range s w rest Hrem Hw) in H.
    apply repeatM_length in H. lia.
Qed.

(** Count 129: no beat, although the bytes of a beat follow; count 1: that
    beat. *)
Lemma read_voice_beat_count_witness :
  read_voice (init [x81; x00; x00; x00; x00; x00; x00; x00; x00])
    = Ok [] (advance 4 (init [x81; x00; x00; x00; x00; x00; x00; x00; x00]))
  /\ read_voice (init [x01; x00; x00; x00; x00; x00; x00; x00; x00])
    = Ok [mkBeat 4 0 [] None 0 None None 0 0]
         (advance 9 (init [x01; x00; x00; x00; x00; x00; x00; x00; x00])).
Proof.
  split.
  - exact (proj1 (read_voice_beat_count
             (init [x81; x00; x00; x00; x00; x00; x00; x00; x00])
             (x81, x00, x00, x00) [x00; x00; x00; x00; x00] eq_refl)
             (or_intror (eq_refl : 128 < word_val (x81, x00, x00, x00)))).
  - exact (proj1 (proj2 (read_voice_beat_count
             (init [x01; x00; x00; x00; x00; x00; x00; x00; x00])
             (x01, x00, x00, x00) [x00; x00; x00; x00; x00] eq_refl)
             (ltac:(vm_compute; split; discriminate)
               : 0 <= word_val (x01, x00, x00, x00) <= 128))).
Defined.

(** In [read_measure] the second voice is read right behind the rejected
    count of the first. *)
Example read_measure_after_bad_count :
  read_measure (init [xff; xff; xff; xff; x00; x00; x00; x00; x01])
    = Ok ([], [])
         (advance 9 (init [xff; xff; xff; xff; x00; x00; x00; x00; x01])).
Proof. vm_compute. reflexivity. Qed.

(** ** The version string *)

Lemma read_byte_size_string_remaining size s L tail :
  remaining s = L :: tail ->
  read_byte_size_string size s =
    Ok (decode_latin1 (firstn (Z.to_nat (byte_val L)) tail))
       (advance (1 + size) s).
Proof.
  intros Hrem. unfold read_byte_size_string, bind.
  rewrite (read_byte_remaining s L tail Hrem).
  unfold peek, skip, ret. rewrite slice_remaining.
  rewrite (remaining_advance_cons L tail s Hrem).
  now rewrite advance_advance.
Qed.

(** C7, as the code has it.  The version string is the first [L] bytes
    behind the length byte [L]; the cursor moves over 31 bytes.  A string
    that contains "FICHIER GUITAR PRO v5.00" sets the version tuple to
    (5, 0, 0), else one that contains "FICHIER GUITAR PRO v5.10" sets it to
    (5, 1, 0); any other string leaves the tuple as it was, which is the
    (5, 0, 0) of a fresh reader, and the reader returns normally. *)
Theorem read_version_tuple :
  forall s L tail,
    remaining s = L :: tail ->
    let name := decode_latin1 (firstn (Z.to_nat (byte_val L)) tail) in
    read_version s =
      Ok name
         (mkAnalyzer (data s) (pos s + 31) (Some name)
            (if contains marker_v500 name then (5, 0, 0)
             else if contains marker_v510 name then (5, 1, 0)
             else versionTuple s)).
Proof.
  intros s L tail Hrem name. unfold read_version, bind.
  rewrite (read_byte_size_string_remaining 30 s L tail Hrem).
  fold name. unfold set_version. cbn [data pos version versionTuple advance].
  destruct (contains marker_v500 name); [reflexivity|].
  destruct (contains marker_v510 name); reflexivity.
Qed.

(** A GP5.10 file. *)
Lemma read_version_tuple_witness :
  read_version (init (version_field marker_v510))
    = Ok marker_v510
         (mkAnalyzer (version_field marker_v510) 31 (Some marker_v510) (5, 1, 0)).
Proof.
  exact (read_version_tuple (init (version_field marker_v510)) x18
           (list_byte_of_string marker_v510 ++ [x00; x00; x00; x00; x00; x00])
           eq_refl).
Defined.

(** The version string of a Guitar Pro 4 file matches neither marker, and
    the reader returns it with the tuple (5, 0, 0) instead of failing. *)
Lemma read_version_unknown_proceeds :
  contains marker_v500 marker_v406 = false /\
  contains marker_v510 marker_v406 = false /\
  read_version (init (version_field marker_v406))
    = Ok marker_v406
         (mkAnalyzer (version_field marker_v406) 31 (Some marker_v406) (5, 0, 0)) /\
  ~ exists e, read_version (init (version_field marker_v406)) = Raise e.
Proof.
  repeat split; try (vm_compute; reflexivity).
  intros [e He]. vm_compute in He. discriminate.
Qed.

(** ** Fields of GP5.1 and later *)

Lemma tuple_gtb_500 a b c :
  tuple_gtb (a, b, c) (5, 0, 0) = true <->
  5 < a \/ (a = 5 /\ (0 < b \/ (b = 0 /\ 0 < c))).
Proof.
  unfold tuple_gtb, tuple_ltb.
  rewrite orb_true_iff, andb_true_iff, orb_true_iff, andb_true_iff.
  rewrite !Z.ltb_lt, !Z.eqb_eq. intuition lia.
Qed.

Lemma rse_master_effect_run s bs rest :
  tuple_gtb (versionTuple s) (5, 0, 0) = true ->
  List.length bs = 20%nat ->
  remaining s = bs ++ rest ->
  read_rse_master_effect s = Ok tt (advance 20 s).
Proof.
  intros Hv Hlen Hrem.
  assert (H : consumes (versionTuple s) (pos s) read_rse_master_effect bs tt).
  { apply skips_unit. unfold read_rse_master_effect.
    eapply skips_nil_after; [apply consumes_get_versionTuple|].
    rewrite Hv. apply (fixed_skips _ 20); [fixed_solve | exact Hlen]. }
  rewrite (H s rest eq_refl eq_refl Hrem). now rewrite Hlen.
Qed.

Lemma read_tempo_run s name tempo hide rest :
  block_wf name ->
  remaining s =
    block_bytes name ++ word_bytes tempo
      ++ opt (tuple_gtb (versionTuple s) (5, 0, 0)) [hide] ++ rest ->
  read_tempo s =
    Ok (block_str name, word_val tempo)
       (advance (List.length (block_bytes name) + 4
                 + (if tuple_gtb (versionTuple s) (5, 0, 0) then 1 else 0)) s).
Proof.
  intros Hwf Hrem.
  assert (H : consumes (versionTuple s) (pos s) read_tempo
                (block_bytes name ++ word_bytes tempo
                   ++ opt (tuple_gtb (versionTuple s) (5, 0, 0)) [hide])
                (block_str name, word_val tempo)).
  { unfold read_tempo.
    eapply consumes_bind; [now apply consumes_block|].
    eapply consumes_bind; [apply consumes_read_word|].
    eapply consumes_nil_bind; [apply consumes_get_versionTuple|].
    eapply consumes_bind_nil_r; [|apply consumes_ret].
    apply skips_unit. unfold opt.
    destruct (tuple_gtb (versionTuple s) (5, 0, 0)).
    - apply (fixed_skips _ 1); [fixed_solve | reflexivity].
    - apply skips_ret. }
  rewrite (H s rest eq_refl eq_refl) by now rewrite <- !app_assoc.
  f_equal. f_equal. rewrite !length_app, word_bytes_length. unfold opt.
  destruct (tuple_gtb (versionTuple s) (5, 0, 0)); simpl; lia.
Qed.

(** C8. The RSE master effect (master volume int, unknown int, 11
    equalizer bytes, gain-preset byte: 20 bytes) and the hide-tempo bool
    behind the tempo int are read exactly when the version tuple is greater
    than (5, 0, 0); at (5, 0, 0) neither moves the cursor. *)
Theorem version_gated_fields :
  forall s,
    (tuple_gtb (versionTuple s) (5, 0, 0) = false ->
       read_rse_master_effect s = Ok tt s) /\
    (tuple_gtb (versionTuple s) (5, 0, 0) = true ->
       forall volume unknown equalizer gain rest,
         List.length equalizer = 11%nat ->
         remaining s =
           word_bytes volume ++ word_bytes unknown ++ equalizer ++ [gain] ++ rest ->
         read_rse_master_effect s = Ok tt (advance 20 s)) /\
    (forall name tempo hide rest,
       block_wf name ->
       remaining s =
         block_bytes name ++ word_bytes tempo
           ++ opt (tuple_gtb (versionTuple s) (5, 0, 0)) [hide] ++ rest ->
       read_tempo s =
         Ok (block_str name, word_val tempo)
            (advance (List.length (block_bytes name) + 4
                      + (if tuple_gtb (versionTuple s) (5, 0, 0) then 1 else 0)) s)).
Proof.
  intros s. repeat split.
  - intros Hv. unfold read_rse_master_effect, bind, get_versionTuple.
    now rewrite Hv.
  - intros Hv volume unknown equalizer gain rest Hlen Hrem.
    apply (rse_master_effect_run s
             (word_bytes volume ++ word_bytes unknown ++ equalizer ++ [gain]) rest Hv).
    + rewrite !length_app, !word_bytes_length, Hlen. reflexivity.
    + now rewrite <- !app_assoc.
  - intros name tempo hide rest. apply read_tempo_run.
Qed.

(** At (5, 0, 0) the RSE reader leaves the byte 0x07 and the tempo reader
    stops behind the tempo; at (5, 1, 0) they take 20 bytes and one byte
    more. *)
Lemma version_gated_fields_witness :
  read_rse_master_effect (init [x07]) = Ok tt (init [x07]) /\
  read_rse_master_effect (reader_510 (repeat x01 20 ++ [x07]))
    = Ok tt (advance 20 (reader_510 (repeat x01 20 ++ [x07]))) /\
  read_tempo (init tempo_field) = Ok ("A"%string, 120) (advance 10 (init tempo_field)) /\
  read_tempo (reader_510 tempo_field)
    = Ok ("A"%string, 120) (advance 11 (reader_510 tempo_field)).
Proof.
  split; [|split; [|split]].
  - exact (proj1 (version_gated_fields (init [x07])) eq_refl).
  - exact (proj1 (proj2 (version_gated_fields (reader_510 (repeat x01 20 ++ [x07]))))
             eq_refl (x01, x01, x01, x01) (x01, x01, x01, x01) (repeat x01 11) x01
             [x07] eq_refl eq_refl).
  - exact (proj2 (proj2 (version_gated_fields (init tempo_field)))
             (mkBlock (x02, x00, x00, x00) x01 [x41]) (x78, x00, x00, x00) x00 [x01]
             (conj (fun _ => eq_refl) (fun _ => le_n 1)) eq_refl).
  - exact (proj2 (proj2 (version_gated_fields (reader_510 tempo_field)))
             (mkBlock (x02, x00, x00, x00) x01 [x41]) (x78, x00, x00, x00) x01 []
             (conj (fun _ => eq_refl) (fun _ => le_n 1)) eq_refl).
Defined.

(** ** Measure headers *)

Lemma flag_set_0x03 b :
  flag_set (byte_val b) 0x03
    = flag_set (byte_val b) 0x01 || flag_set (byte_val b) 0x02.
Proof. destruct b; vm_compute; reflexivity. Qed.

Lemma land_0x10_eqb b :
  (Z.land (byte_val b) 0x10 =? 0) = negb (flag_set (byte_val b) 0x10).
Proof. unfold flag_set. now rewrite negb_involutive. Qed.

Lemma consumes_read_measure_header v i h :
  header_wf h ->
  forall p, consumes v p (read_measure_header i) (header_bytes i h) (header_of i h).
Proof.
  intros Hwf p.
  unfold read_measure_header, header_bytes, header_front, header_marker,
    header_key, header_alternative, header_back.
  rewrite <- !app_assoc.
  eapply consumes_nil_bind; [apply consumes_get_versionTuple|].
  eapply consumes_skips_bind.
  { unfold opt. destruct (0 <? i)%nat; cbn [orb].
    - apply (fixed_skips v 1); [fixed_solve | reflexivity].
    - destruct (negb (tuple_eqb v (5, 0, 0))); apply skips_ret. }
  intros _. apply consumes_cons_byte.
  eapply consumes_bind.
  { apply consumes_when. intros _. apply consumes_read_byte. }
  eapply consumes_bind.
  { apply consumes_when. intros _. apply consumes_read_byte. }
  eapply consumes_bind.
  { apply consumes_when. intros _. apply consumes_read_byte. }
  eapply consumes_bind.
  { apply consumes_when. intros Hc.
    eapply consumes_bind; [apply consumes_block; now apply Hwf|].
    eapply consumes_bind_nil_r; [apply consumes_read_word | apply consumes_ret]. }
  eapply consumes_skips_bind.
  { apply skips_when. intros _. eapply consumes_skips.
    apply consumes_cons_sbyte, consumes_read_sbyte. }
  intros _. eapply consumes_skips_bind.
  { apply skips_when. intros _. eapply consumes_skips, consumes_read_byte. }
  intros _. rewrite flag_set_0x03, land_0x10_eqb.
  eapply consumes_skips_bind.
  { apply skips_when. intros _.
    apply (fixed_skips v 4); [fixed_solve | apply word_bytes_length]. }
  intros _. eapply consumes_skips_bind.
  { apply skips_when. intros _.
    apply (fixed_skips v 1); [fixed_solve | reflexivity]. }
  intros _. apply consumes_cons_byte. apply consumes_ret_eq. reflexivity.
Qed.

(** C5, as the code has it.  The flags byte of a measure header gates, in
    this order: numerator (bit 0), denominator (bit 1), repeat-open (bit 2,
    no byte), repeat-close count (bit 3), marker block and 4 color bytes
    (bit 5), 2 key-signature bytes (bit 6), repeat-alternative byte (bit 4),
    double bar (bit 7, no byte); then 4 beam bytes iff bit 0 or bit 1 is
    set, one blank byte iff bit 4 is clear, and the triplet-feel byte. *)
Theorem read_measure_header_layout :
  forall i h s rest,
    header_wf h ->
    remaining s = header_bytes i h ++ rest ->
    read_measure_header i s =
      Ok (header_of i h) (advance (List.length (header_bytes i h)) s).
Proof.
  intros i h s rest Hwf Hrem.
  exact (consumes_read_measure_header (versionTuple s) i h Hwf (pos s)
           s rest eq_refl eq_refl Hrem).
Qed.

Lemma marked_alternative_wf : header_wf marked_alternative.
Proof. intros _. split; intros _; [reflexivity | apply le_n]. Qed.

(** Flags 0x30: the marker block and the color come before the repeat
    alternative 7. *)
Lemma read_measure_header_layout_witness :
  header_bytes 0 marked_alternative
    = [x30; x02; x00; x00; x00; x01; x41; x00; x00; x00; x00; x07; x00] /\
  read_measure_header 0 (init (header_bytes 0 marked_alternative))
    = Ok (mkHeader 1 0x30 None None false None (Some "A"%string) false)
         (advance 13 (init (header_bytes 0 marked_alternative))).
Proof.
  split; [reflexivity|].
  exact (read_measure_header_layout 0 marked_alternative
           (init (header_bytes 0 marked_alternative)) []
           marked_alternative_wf eq_refl).
Defined.

(** With the repeat alternative in front of the marker, as the order of
    the bits has it, the reader takes the alternative for the first byte of
    the marker size and runs off the end of the header; with more bytes
    behind it, it returns another marker. *)
Lemma read_measure_header_by_bit_fails :
  header_wf marked_alternative /\
  header_bytes_by_bit 0 marked_alternative
    = [x30; x07; x02; x00; x00; x00; x01; x41; x00; x00; x00; x00; x00] /\
  read_measure_header 0 (init (header_bytes_by_bit 0 marked_alternative))
    = Raise StructError /\
  forall rest,
    read_measure_header 0 (init (header_bytes_by_bit 0 marked_alternative ++ rest))
      <> Ok (header_of 0 marked_alternative)
            (advance 13 (init (header_bytes_by_bit 0 marked_alternative ++ rest))).
Proof.
  split; [exact marked_alternative_wf|].
  split; [reflexivity|]. split; [vm_compute; reflexivity|].
  intros rest H.
  unfold read_measure_header in H.
  apply bind_ok in H as (v & q0 & H0 & H). inversion H0; subst v q0; clear H0.
  cbn [Nat.ltb Nat.leb orb negb tuple_eqb versionTuple init] in H.
  apply bind_ok in H as (u & q1 & H1 & H). 
  vm_compute in H1. inversion H1; subst u q1; clear H1.
  apply bind_ok in H as (f & q2 & H2 & H).
  vm_compute in H2. inversion H2; subst f q2; clear H2.
  apply bind_ok in H as (n & q3 & H3 & H).
  vm_compute in H3. inversion H3; subst n q3; clear H3.
  apply bind_ok in H as (d & q4 & H4 & H).
  vm_compute in H4. inversion H4; subst d q4; clear H4.
  apply bind_ok in H as (c & q5 & H5 & H).
  vm_compute in H5. inversion H5; subst c q5; clear H5.
  apply bind_ok in H as (m & q6 & H6 & H).
  repeat inv_bind H. cbv beta delta [ret] in H.
  assert (Hm := f_equal (fun r => match r with
                                  | Ok a _ => h_marker a
                                  | Raise _ => None
                                  end) H).
  cbn in Hm. subst m.
  apply when_ok in H6 as [(_ & mk & Ha & Hsome) | (Hc & _)]; [|discriminate Hc].
  injection Hsome as <-.
  apply bind_ok in Ha as (name & q7 & Hname & Ha).
  assert (Hn : name = EmptyString).
  { unfold read_int_byte_size_string in Hname.
    apply bind_ok in Hname as (sz & q8 & Hsz & Hname).
    vm_compute in Hsz. inversion Hsz; subst sz q8; clear Hsz.
    cbn [Z.leb Z.compare] in Hname.
    apply bind_ok in Hname as (l & q9 & Hl & Hname).
    vm_compute in Hl. inversion Hl; subst l q9; clear Hl.
    apply bind_ok in Hname as (bs & q10 & Hbs & Hname).
    inversion Hbs; subst bs q10; clear Hbs.
    apply bind_ok in Hname as (u & q11 & _ & Hname).
    inversion Hname. reflexivity. }
  subst name. inv_bind Ha. inversion Ha.
Qed.

(** ** The writer of [test_gp5_with_notes.py] *)

(** The musical content written by the script comes back from the decoder:
    frets 1 to 12 and then 1 to 4 again, on strings 0 to 3, velocity 6. *)
Example analyze_create_gp5_with_notes :
  exists a s',
    analyze (init (create_gp5_with_notes 4)) = Ok a s' /\
    pos s' = List.length (create_gp5_with_notes 4) /\
    a_title a = "Test Song with Notes"%string /\
    a_artist a = "Test Artist"%string /\
    a_tempo a = 120 /\
    List.length (a_headers a) = 4%nat /\
    map t_name (a_tracks a) = ["Track 1"%string] /\
    notes_found a =
      [ [([quarter 0 1; quarter 1 2; quarter 2 3; quarter 3 4], 0%nat)];
        [([quarter 0 5; quarter 1 6; quarter 2 7; quarter 3 8], 0%nat)];
        [([quarter 0 9; quarter 1 10; quarter 2 11; quarter 3 12], 0%nat)];
        [([quarter 0 1; quarter 1 2; quarter 2 3; quarter 3 4], 0%nat)] ].
Proof.
  eexists; eexists. split; [vm_compute; reflexivity|].
  vm_compute. repeat split.
Qed.

(** ** Packing and unpacking *)

Lemma byte_val_byte_of_Z z : byte_val (byte_of_Z z) = z mod 256.
Proof.
  unfold byte_val, byte_of_Z.
  change 0xFF with (Z.ones 8). rewrite Z.land_ones by lia.
  change (2 ^ 8) with 256.
  pose proof (Z.mod_pos_bound z 256 ltac:(lia)) as Hb.
  destruct (Byte.of_N (Z.to_N (z mod 256))) as [b|] eqn:E.
  - apply Byte.to_of_N in E. rewrite E. lia.
  - apply Byte.of_N_None_iff in E. lia.
Qed.

Lemma byte_of_Z_byte_val b : byte_of_Z (byte_val b) = b.
Proof. destruct b; reflexivity. Qed.

Lemma byte_of_Z_sbyte_val b : byte_of_Z (sbyte_val b) = b.
Proof. destruct b; reflexivity. Qed.

Lemma le_unsigned_pack n z :
  le_unsigned (pack n z) = z mod 2 ^ (8 * Z.of_nat n).
Proof.
  revert z. induction n as [|n IH]; intros z.
  - cbn. now rewrite Z.mod_1_r.
  - cbn [pack le_unsigned]. rewrite byte_val_byte_of_Z, IH, Z.shiftr_div_pow2 by lia.
    replace (8 * Z.of_nat (S n)) with (8 + 8 * Z.of_nat n) by lia.
    rewrite Z.pow_add_r by lia. change (2 ^ 8) with 256.
    rewrite Z.rem_mul_r by (try lia; apply Z.pow_pos_nonneg; lia).
    reflexivity.
Qed.

Lemma pack_length n z : List.length (pack n z) = n.
Proof. revert z. induction n as [|n IH]; intros z; cbn; auto. Qed.

Lemma to_signed_mod bits z :
  0 < bits ->
  - 2 ^ (bits - 1) <= z < 2 ^ (bits - 1) ->
  to_signed bits (z mod 2 ^ bits) = z.
Proof.
  intros Hb Hz. unfold to_signed.
  assert (Hp : 2 ^ bits = 2 * 2 ^ (bits - 1)).
  { replace bits with (1 + (bits - 1)) at 1 by lia.
    rewrite Z.pow_add_r by lia. reflexivity. }
  assert (0 < 2 ^ (bits - 1)) by (apply Z.pow_pos_nonneg; lia).
  destruct (Z.ltb_spec z 0) as [Hneg|Hpos].
  - rewrite <- (Z.mod_add z 1 (2 ^ bits)) by lia.
    rewrite Z.mod_small by lia.
    destruct (Z.ltb_spec (z + 1 * 2 ^ bits) (2 ^ (bits - 1))); lia.
  - rewrite Z.mod_small by lia.
    destruct (Z.ltb_spec z (2 ^ (bits - 1))); lia.
Qed.

Lemma unpack_pack n z :
  (0 < n)%nat ->
  - 2 ^ (8 * Z.of_nat n - 1) <= z < 2 ^ (8 * Z.of_nat n - 1) ->
  to_signed (8 * Z.of_nat n) (le_unsigned (pack n z)) = z.
Proof.
  intros Hn Hz. rewrite le_unsigned_pack. apply to_signed_mod; [lia | exact Hz].
Qed.

Lemma byte_val_write z : is_byte z -> byte_val (byte_of_Z z) = z.
Proof. intros Hz. rewrite byte_val_byte_of_Z. apply Z.mod_small. exact Hz. Qed.

Lemma sbyte_val_write z : is_sbyte z -> sbyte_val (byte_of_Z z) = z.
Proof. intros Hz. exact (unpack_pack 1 z ltac:(lia) Hz). Qed.

Lemma le_unsigned_range bs :
  0 <= le_unsigned bs < 2 ^ (8 * Z.of_nat (List.length bs)).
Proof.
  induction bs as [|b bs IH].
  - cbn. lia.
  - cbn [le_unsigned List.length].
    replace (8 * Z.of_nat (S (List.length bs)))
      with (8 + 8 * Z.of_nat (List.length bs)) by lia.
    rewrite Z.pow_add_r by lia. change (2 ^ 8) with 256.
    pose proof (byte_val_range b). lia.
Qed.

Lemma to_signed_range bits u :
  0 < bits -> 0 <= u < 2 ^ bits ->
  - 2 ^ (bits - 1) <= to_signed bits u < 2 ^ (bits - 1).
Proof.
  intros Hb Hu. unfold to_signed.
  assert (Hp : 2 ^ bits = 2 * 2 ^ (bits - 1)).
  { replace bits with (1 + (bits - 1)) at 1 by lia.
    rewrite Z.pow_add_r by lia. reflexivity. }
  destruct (Z.ltb_spec u (2 ^ (bits - 1))); lia.
Qed.

Lemma read_unpack_range n s z s' :
  (0 < n)%nat -> read_unpack n s = Ok z s' ->
  - 2 ^ (8 * Z.of_nat n - 1) <= z < 2 ^ (8 * Z.of_nat n - 1).
Proof.
  intros Hn H. apply read_unpack_ok in H as (_ & Hlen & ->).
  apply to_signed_range; [lia|].
  pose proof (le_unsigned_range (firstn n (remaining s))) as Hr.
  now rewrite Hlen in Hr.
Qed.

(** *** What the decoder builds *)

Lemma when_opt_ok (c : bool) (P : Z -> Prop) (m : M Z) s o s' :
  (forall q a q', m q = Ok a q' -> P a) ->
  when c m s = Ok o s' -> opt_ok c P o.
Proof.
  intros Hm H. unfold opt_ok.
  destruct (when_ok _ _ _ _ _ H) as [(-> & a & Ha & ->) | (-> & -> & _)]; eauto.
Qed.

Lemma read_byte_is_byte s a s' : read_byte s = Ok a s' -> is_byte a.
Proof.
  intros H. apply read_byte_ok in H as (_ & b & l & _ & ->). apply byte_val_range.
Qed.

Lemma read_sbyte_is_sbyte s a s' : read_sbyte s = Ok a s' -> is_sbyte a.
Proof. intros H. exact (read_unpack_range 1 s a s' ltac:(lia) H). Qed.

Lemma read_short_is_short s a s' : read_short s = Ok a s' -> is_short a.
Proof. intros H. exact (read_unpack_range 2 s a s' ltac:(lia) H). Qed.

Lemma read_int_is_int s a s' : read_int s = Ok a s' -> is_int a.
Proof. intros H. exact (read_unpack_range 4 s a s' ltac:(lia) H). Qed.

Lemma read_note_ok s n s' : read_note s = Ok n s' -> note_ok n /\ n_string n = None.
Proof.
  intros H. unfold read_note in H.
  apply bind_ok in H as (p0 & q0 & _ & H).
  apply bind_ok in H as (f & q1 & Hf & H).
  apply bind_ok in H as (ty & q2 & Hty & H).
  apply bind_ok in H as (ve & q3 & Hve & H).
  apply bind_ok in H as (fr & q4 & Hfr & H).
  apply bind_ok in H as (fi & q5 & _ & H).
  apply bind_ok in H as (du & q6 & _ & H).
  apply bind_ok in H as (f2 & q7 & Hf2 & H).
  apply bind_ok in H as (ef & q8 & _ & H).
  inversion H; subst; clear H.
  split; [|reflexivity].
  unfold note_ok; cbn [n_flags n_type n_velocity n_fret n_flags2].
  split; [eapply read_byte_is_byte; eauto|].
  split; [eapply when_opt_ok; [apply read_byte_is_byte | eauto]|].
  split; [eapply when_opt_ok; [apply read_sbyte_is_sbyte | eauto]|].
  pose proof (when_opt_ok _ is_sbyte _ _ _ _ read_sbyte_is_sbyte Hfr) as Hfret.
  unfold opt_ok in Hfret.
  destruct (flag_set f 32).
  - destruct Hfret as (z & -> & Hz).
    split; [exact Hz|]. split; [discriminate|].
    eapply read_byte_is_byte; eauto.
  - subst fr. split; [unfold is_sbyte; lia|]. split; [reflexivity|].
    eapply read_byte_is_byte; eauto.
Qed.

Lemma decode_latin1_length bs : String.length (decode_latin1 bs) = List.length bs.
Proof.
  unfold decode_latin1, string_of_list_byte.
  induction bs as [|b bs IH]; cbn; [reflexivity | now rewrite IH].
Qed.

Lemma read_int_byte_size_string_length s t s' :
  read_int_byte_size_string s = Ok t s' -> (String.length t <= 255)%nat.
Proof.
  intros H. unfold read_int_byte_size_string in H.
  apply bind_ok in H as (sz & q0 & _ & H).
  destruct (sz <=? 0).
  - inversion H; subst. cbn. lia.
  - apply bind_ok in H as (len & q1 & Hlen & H).
    apply bind_ok in H as (bs & q2 & Hbs & H).
    apply bind_ok in H as (u & q3 & _ & H).
    inversion H; subst; clear H.
    inversion Hbs; subst; clear Hbs.
    apply read_byte_is_byte in Hlen.
    rewrite decode_latin1_length. unfold slice. rewrite length_firstn.
    unfold is_byte in Hlen. lia.
Qed.

Lemma set_string_ok n z : note_ok n -> note_ok (set_string n z).
Proof. exact (fun H => H). Qed.

Lemma read_notes_ok ss string_flags :
  forall s ns s', read_notes ss string_flags s = Ok ns s' -> Forall note_ok ns.
Proof.
  induction ss as [|b ss IH]; intros s ns s' H; cbn [read_notes] in H.
  - inversion H; constructor.
  - destruct (flag_set string_flags (Z.shiftl 1 b)); [|eauto].
    apply bind_ok in H as (n & q0 & Hn & H).
    apply bind_ok in H as (ns' & q1 & Hns & H).
    inversion H; subst; clear H.
    constructor; [|eauto].
    apply set_string_ok. now apply read_note_ok in Hn.
Qed.

Lemma read_beat_ok s b s' : read_beat s = Ok b s' -> beat_ok b.
Proof.
  intros H. pose proof (read_notes_strings) as Hstr.
  unfold read_beat in H.
  apply bind_ok in H as (p0 & q0 & _ & H).
  apply bind_ok in H as (f & q1 & Hf & H).
  apply bind_ok in H as (st & q2 & Hst & H).
  apply bind_ok in H as (du & q3 & Hdu & H).
  apply bind_ok in H as (tu & q4 & Htu & H).
  apply bind_ok in H as (ch & q5 & _ & H).
  apply bind_ok in H as (tx & q6 & Htx & H).
  apply bind_ok in H as (ef & q7 & _ & H).
  apply bind_ok in H as (mx & q8 & _ & H).
  apply bind_ok in H as (sf & q9 & Hsf & H).
  apply bind_ok in H as (ns & q10 & Hns & H).
  apply bind_ok in H as (f2 & q11 & Hf2 & H).
  apply bind_ok in H as (br & q12 & _ & H).
  inversion H; subst; clear H.
  unfold beat_ok;
    cbn [b_flags b_status b_duration b_tuplet b_text b_stringFlags b_notes b_flags2].
  split; [eapply read_byte_is_byte; eauto|].
  split; [eapply when_opt_ok; [apply read_byte_is_byte | eauto]|].
  split; [eapply read_sbyte_is_sbyte; eauto|].
  split; [eapply when_opt_ok; [apply read_int_is_int | eauto]|].
  split.
  { unfold text_ok.
    destruct (when_ok _ _ _ _ _ Htx) as [(-> & t & Ht & ->) | (-> & -> & _)];
      [|reflexivity].
    exists t. split; [reflexivity|]. eapply read_int_byte_size_string_length; eauto. }
  split; [eapply read_byte_is_byte; eauto|].
  split; [eapply read_notes_ok; eauto|].
  split; [eapply Hstr; eauto|].
  eapply read_short_is_short; eauto.
Qed.

(** *** The encoded bytes, field by field *)

Lemma word_bytes_of_Z z : word_bytes (word_of_Z z) = write_int z.
Proof. reflexivity. Qed.

Lemma word_val_of_Z z : is_int z -> word_val (word_of_Z z) = z.
Proof.
  intros Hz. unfold word_val. rewrite word_bytes_of_Z.
  exact (unpack_pack 4 z ltac:(lia) Hz).
Qed.

Lemma short_val_write z :
  is_short z -> short_val (byte_of_Z z) (byte_of_Z (Z.shiftr z 8)) = z.
Proof. intros Hz. exact (unpack_pack 2 z ltac:(lia) Hz). Qed.

Lemma byte_of_ord c : byte_of_Z (ord c) = byte_of_ascii c.
Proof.
  destruct c as [b0 b1 b2 b3 b4 b5 b6 b7].
  destruct b0, b1, b2, b3, b4, b5, b6, b7; reflexivity.
Qed.

Lemma write_string_bytes t :
  flat_map (fun c => write_byte (ord c)) (list_ascii_of_string t)
    = list_byte_of_string t.
Proof.
  unfold list_byte_of_string.
  induction (list_ascii_of_string t) as [|c l IH]; [reflexivity|].
  cbn [flat_map map]. unfold write_byte at 1. rewrite byte_of_ord, IH.
  reflexivity.
Qed.

Lemma list_byte_of_string_length t :
  List.length (list_byte_of_string t) = String.length t.
Proof.
  unfold list_byte_of_string. rewrite length_map.
  induction t as [|c t IH]; cbn; [reflexivity | now rewrite IH].
Qed.

Section BlockOfString.
Variable t : string.
Hypothesis Ht : (String.length t <= 255)%nat.

Lemma block_of_string_size :
  word_val (bk_size (block_of_string t)) = Z.of_nat (String.length t) + 1.
Proof. cbn [block_of_string bk_size]. apply word_val_of_Z. unfold is_int. lia. Qed.

Lemma block_of_string_bytes :
  block_bytes (block_of_string t) = write_int_byte_size_string t.
Proof.
  unfold block_bytes. rewrite block_of_string_size.
  replace (0 <? Z.of_nat (String.length t) + 1) with true
    by (symmetry; apply Z.ltb_lt; lia).
  unfold write_int_byte_size_string, opt, write_byte.
  cbn [block_of_string bk_size bk_len bk_content].
  now rewrite word_bytes_of_Z, write_string_bytes.
Qed.

Lemma block_of_string_wf : block_wf (block_of_string t).
Proof.
  unfold block_wf, block_sized. rewrite block_of_string_size.
  cbn [block_of_string bk_len bk_content].
  rewrite list_byte_of_string_length.
  split; [reflexivity|]. intros _.
  rewrite byte_val_write by (unfold is_byte; lia). lia.
Qed.

Lemma block_of_string_str : block_str (block_of_string t) = t.
Proof.
  unfold block_str. rewrite block_of_string_size.
  replace (0 <? Z.of_nat (String.length t) + 1) with true
    by (symmetry; apply Z.ltb_lt; lia).
  cbn [block_of_string bk_len bk_content].
  rewrite byte_val_write by (unfold is_byte; lia).
  rewrite Nat2Z.id, <- list_byte_of_string_length, firstn_all.
  apply string_of_list_byte_of_string.
Qed.
End BlockOfString.

Lemma wire_of_note_wf n : note_wf (wire_of_note n).
Proof. split; intros _; [reflexivity | intros H; discriminate H]. Qed.

Lemma encode_note_layout n :
  note_ok n -> encode_note n = note_bytes (wire_of_note n).
Proof.
  intros (Hf & _). unfold encode_note, note_bytes.
  cbn [wire_of_note nw_flags nw_type nw_velocity nw_fret nw_fingering
       nw_duration_percent nw_flags2 nw_effects fst snd].
  now rewrite (byte_val_write _ Hf).
Qed.

Lemma note_of_wire n p :
  note_ok n ->
  note_of (wire_of_note n) p =
    mkNote p (n_flags n) (n_fret n) (n_type n) (n_velocity n) (n_flags2 n) None.
Proof.
  intros (Hf & Hty & Hve & Hfr & Hfr0 & Hf2). unfold note_of.
  cbn [wire_of_note nw_flags nw_type nw_velocity nw_fret nw_flags2].
  rewrite (byte_val_write _ Hf), (byte_val_write _ Hf2).
  unfold opt_ok in Hty, Hve.
  f_equal.
  - destruct (flag_set (n_flags n) 32); [now apply sbyte_val_write|].
    symmetry. now apply Hfr0.
  - destruct (flag_set (n_flags n) 32).
    + destruct Hty as (z & -> & Hz). cbn. now rewrite byte_val_write.
    + now rewrite Hty.
  - destruct (flag_set (n_flags n) 16).
    + destruct Hve as (z & -> & Hz). cbn. now rewrite sbyte_val_write.
    + now rewrite Hve.
Qed.

Lemma notes_of_wire notes :
  forall bits p,
    Forall note_ok notes ->
    map n_string notes = map (fun bit => Some (6 - bit)) bits ->
    map music_of_note (notes_of (map wire_of_note notes) bits p)
      = map music_of_note notes.
Proof.
  induction notes as [|n notes IH]; intros bits p Hok Hstr; [reflexivity|].
  destruct bits as [|bit bits]; [discriminate|].
  inversion Hok; subst. cbn [map] in Hstr. injection Hstr as Hs Hstr.
  cbn [map notes_of]. f_equal; [|now apply IH].
  rewrite note_of_wire by assumption.
  unfold music_of_note, set_string; cbn. now rewrite Hs.
Qed.

Lemma blank_mix_table_wf v : mix_table_wf v (blank_mix_table v).
Proof.
  unfold mix_table_wf, blank_mix_table; cbn.
  split; [destruct (tuple_eqb v (5, 0, 0)); reflexivity|].
  repeat split; apply (proj1 (block_of_string_wf EmptyString ltac:(cbn; lia))).
Qed.

Lemma blank_mix_table_bytes v :
  mix_table_bytes v (blank_mix_table v) = encode_no_mix_table v.
Proof.
  unfold mix_table_bytes, encode_no_mix_table, blank_mix_table, opt; cbn.
  destruct (tuple_eqb v (5, 0, 0)), (tuple_geb v (5, 1, 0)); reflexivity.
Qed.

Lemma text_ok_length c o :
  text_ok c o ->
  (String.length (match o with Some t => t | None => EmptyString end) <= 255)%nat.
Proof.
  unfold text_ok. destruct c.
  - intros (t & -> & Ht). exact Ht.
  - intros ->. cbn. lia.
Qed.

Lemma flat_map_map {A B C} (f : A -> B) (g : B -> list C) l :
  flat_map g (map f l) = flat_map (fun x => g (f x)) l.
Proof. induction l as [|x l IH]; cbn; [reflexivity | now rewrite IH]. Qed.

Lemma flat_map_ext_Forall {A B} (P : A -> Prop) (f g : A -> list B) l :
  Forall P l -> (forall x, P x -> f x = g x) -> flat_map f l = flat_map g l.
Proof.
  intros Hl Hfg. induction Hl as [|x l Hx Hl IH]; cbn; [reflexivity|].
  now rewrite (Hfg x Hx), IH.
Qed.

Lemma encode_beat_layout v b :
  beat_ok b -> encode_beat v b = beat_bytes v (wire_of_beat v b).
Proof.
  intros (Hf & Hst & Hdu & Htu & Htx & Hsf & Hns & Hstr & Hf2).
  unfold encode_beat, beat_bytes, beat_head_bytes, beat_tail_bytes, beat_flags2.
  cbn [wire_of_beat bw_flags bw_status bw_duration bw_tuplet bw_chord bw_text
       bw_effects bw_mix_table bw_string_flags bw_notes bw_flags2 bw_break
       fst snd].
  rewrite (byte_val_write _ Hf), (short_val_write _ Hf2).
  rewrite blank_mix_table_bytes, word_bytes_of_Z.
  rewrite (block_of_string_bytes _ (text_ok_length _ _ Htx)).
  rewrite flat_map_map.
  rewrite (flat_map_ext_Forall note_ok encode_note
             (fun n => note_bytes (wire_of_note n)) _ Hns encode_note_layout).
  rewrite <- !app_assoc. reflexivity.
Qed.

Lemma wire_of_beat_wf v b : beat_ok b -> beat_wf v (wire_of_beat v b).
Proof.
  intros (Hf & Hst & Hdu & Htu & Htx & Hsf & Hns & Hstr & Hf2).
  unfold beat_wf.
  cbn [wire_of_beat bw_flags bw_chord bw_text bw_effects bw_mix_table
       bw_string_flags bw_notes].
  split.
  { intros _. split; [|intros H; discriminate H].
    apply (proj1 (block_of_string_wf EmptyString ltac:(cbn; lia))). }
  split; [intros _; apply block_of_string_wf, (text_ok_length _ _ Htx)|].
  split; [intros _ H; discriminate H|].
  split; [intros _; apply blank_mix_table_wf|].
  split.
  { apply Forall_map. apply Forall_forall. intros n _. apply wire_of_note_wf. }
  rewrite length_map, (byte_val_write _ Hsf).
  rewrite <- (length_map n_string), Hstr. apply length_map.
Qed.

Lemma beat_of_wire v b p :
  beat_ok b -> music_of_beat (beat_of v (wire_of_beat v b) p) = music_of_beat b.
Proof.
  intros (Hf & Hst & Hdu & Htu & Htx & Hsf & Hns & Hstr & Hf2).
  unfold music_of_beat, beat_of, beat_flags2.
  cbn [wire_of_beat bw_flags bw_status bw_duration bw_tuplet bw_text
       bw_string_flags bw_notes bw_flags2 fst snd
       b_flags b_notes b_status b_duration b_tuplet b_text b_stringFlags b_flags2].
  rewrite (byte_val_write _ Hf), (byte_val_write _ Hsf), (short_val_write _ Hf2),
    (sbyte_val_write _ Hdu).
  rewrite (notes_of_wire _ _ _ Hns Hstr).
  rewrite (block_of_string_str _ (text_ok_length _ _ Htx)).
  unfold opt_ok, text_ok in *.
  destruct (flag_set (b_flags b) 64), (flag_set (b_flags b) 32),
    (flag_set (b_flags b) 4);
    repeat match goal with
           | H : exists _, _ |- _ => destruct H as (? & -> & ?)
           | H : _ = None |- _ => rewrite H
           end;
    cbn [or_zero];
    rewrite ?byte_val_write, ?word_val_of_Z by assumption; reflexivity.
Qed.

(** Decoding the encoding of a decoded beat, wherever it stands. *)
Lemma read_beat_encode v b p :
  beat_ok b ->
  exists b',
    consumes v p read_beat (encode_beat v b) b' /\
    music_of_beat b' = music_of_beat b.
Proof.
  intros Hb. exists (beat_of v (wire_of_beat v b) p). split.
  - rewrite (encode_beat_layout v b Hb).
    apply consumes_read_beat. now apply wire_of_beat_wf.
  - now apply beat_of_wire.
Qed.

(** ** The round trip of the measures *)

Lemma consumes_repeatM_music {X A B} v (f : X -> list byte) (g : A -> B)
    (h : X -> B) (m : M A) xs :
  (forall x, In x xs -> forall p, exists a, consumes v p m (f x) a /\ g a = h x) ->
  forall p,
    exists l,
      consumes v p (repeatM (List.length xs) m) (flat_map f xs) l /\
      map g l = map h xs.
Proof.
  induction xs as [|x xs IH]; intros Hm p; cbn [List.length repeatM flat_map map].
  - exists []. split; [apply consumes_ret | reflexivity].
  - destruct (Hm x (or_introl eq_refl) p) as (a & Ha & Hga).
    destruct (IH (fun y Hy => Hm y (or_intror Hy)) (p + List.length (f x))%nat)
      as (l & Hl & Hgl).
    exists (a :: l). split; [|cbn; now rewrite Hga, Hgl].
    eapply consumes_bind; [exact Ha|].
    eapply consumes_bind_nil_r; [exact Hl | apply consumes_ret].
Qed.

Lemma repeatM_Forall {A} (P : A -> Prop) (m : M A) :
  (forall s a s', m s = Ok a s' -> P a) ->
  forall n s l s', repeatM n m s = Ok l s' -> Forall P l.
Proof.
  intros Hm. induction n as [|n IH]; intros s l s' H; cbn [repeatM] in H.
  - inversion H; constructor.
  - apply bind_ok in H as (a & q0 & Ha & H).
    apply bind_ok in H as (l' & q1 & Hl & H).
    inversion H; subst. constructor; eauto.
Qed.

Lemma read_voice_ok s beats s' : read_voice s = Ok beats s' -> voice_ok beats.
Proof.
  intros H. unfold read_voice in H.
  apply bind_ok in H as (n & q0 & _ & H).
  destruct (n <? 0) eqn:E1; cbn [orb] in H.
  { inversion H; subst. split; [constructor | cbn; lia]. }
  destruct (128 <? n) eqn:E2.
  { inversion H; subst. split; [constructor | cbn; lia]. }
  apply Z.ltb_ge in E1, E2. split.
  - eapply repeatM_Forall; [|exact H]. exact read_beat_ok.
  - apply repeatM_length in H. lia.
Qed.

Lemma read_voice_encode v beats p :
  voice_ok beats ->
  exists beats',
    consumes v p read_voice (encode_voice v beats) beats' /\
    map music_of_beat beats' = map music_of_beat beats.
Proof.
  intros [Hok Hlen].
  destruct (consumes_repeatM_music v (encode_beat v) music_of_beat music_of_beat
              read_beat beats
              (fun b Hb q => read_beat_encode v b q
                               (proj1 (Forall_forall beat_ok beats) Hok b Hb))
              (p + 4)%nat)
    as (beats' & Hrun & Hmusic).
  exists beats'. split; [|exact Hmusic].
  unfold read_voice, encode_voice.
  rewrite <- word_bytes_of_Z.
  eapply consumes_bind.
  { apply consumes_read_word. }
  rewrite word_val_of_Z by (unfold is_int; lia).
  replace (Z.of_nat (List.length beats) <? 0) with false
    by (symmetry; apply Z.ltb_ge; lia).
  replace (128 <? Z.of_nat (List.length beats)) with false
    by (symmetry; apply Z.ltb_ge; lia).
  cbn [orb]. rewrite Nat2Z.id, word_bytes_length. exact Hrun.
Qed.

Lemma read_measure_encode v m p :
  voice_ok (fst m) -> voice_ok (snd m) ->
  exists m',
    consumes v p read_measure (encode_measure v m) m' /\
    music_of_measure m' = music_of_measure m.
Proof.
  intros H1 H2.
  destruct (read_voice_encode v (fst m) p H1) as (v1 & Hv1 & Hm1).
  destruct (read_voice_encode v (snd m)
              (p + List.length (encode_voice v (fst m))) H2) as (v2 & Hv2 & Hm2).
  exists (v1, v2). split.
  - unfold read_measure, encode_measure.
    eapply consumes_bind; [exact Hv1|].
    eapply consumes_bind; [exact Hv2|].
    apply consumes_cons_byte. apply consumes_ret.
  - unfold music_of_measure. cbn [fst snd]. now rewrite Hm1, Hm2.
Qed.

Lemma read_measure_ok s m s' :
  read_measure s = Ok m s' -> voice_ok (fst m) /\ voice_ok (snd m).
Proof.
  intros H. unfold read_measure in H.
  apply bind_ok in H as (v1 & q0 & Hv1 & H).
  apply bind_ok in H as (v2 & q1 & Hv2 & H).
  apply bind_ok in H as (lb & q2 & _ & H).
  inversion H; subst. cbn [fst snd].
  split; eapply read_voice_ok; eauto.
Qed.

(** One measure of one track. *)
Lemma measure_round_trip :
  forall s song s',
    read_measure s = Ok song s' ->
    forall t rest,
      versionTuple t = versionTuple s ->
      remaining t = encode_measure (versionTuple s) song ++ rest ->
      exists song',
        read_measure t =
          Ok song' (advance (List.length (encode_measure (versionTuple s) song)) t) /\
        music_of_measure song' = music_of_measure song.
Proof.
  intros s song s' Hsong t rest Hv Hrem.
  apply read_measure_ok in Hsong as [H1 H2].
  destruct (read_measure_encode (versionTuple s) song (pos t) H1 H2)
    as (song' & Hrun & Hmusic).
  exists song'. split; [|exact Hmusic].
  exact (Hrun t rest Hv eq_refl Hrem).
Qed.

(** C1.  The measures that the decoder builds, encoded and decoded again
    under the same version, give a tree with the same musical fields: the
    flags, status, duration, tuplet, text, string flags and flags2 of every
    beat of both voices of every measure, and the flags, type, velocity,
    fret and string of every note.  The second decoding reads exactly the
    encoded bytes. *)
Theorem measures_round_trip :
  forall n s song s',
    repeatM n read_measure s = Ok song s' ->
    forall t rest,
      versionTuple t = versionTuple s ->
      remaining t = encode_measures (versionTuple s) song ++ rest ->
      exists song',
        repeatM n read_measure t =
          Ok song' (advance (List.length (encode_measures (versionTuple s) song)) t) /\
        map music_of_measure song' = map music_of_measure song.
Proof.
  intros n s song s' Hsong t rest Hv Hrem.
  pose proof (repeatM_length _ _ _ _ _ Hsong) as Hn.
  pose proof (repeatM_Forall (fun m => voice_ok (fst m) /\ voice_ok (snd m))
                read_measure read_measure_ok _ _ _ _ Hsong) as Hok.
  destruct (consumes_repeatM_music (versionTuple s) (encode_measure (versionTuple s))
              music_of_measure music_of_measure read_measure song
              (fun m Hm q =>
                 read_measure_encode (versionTuple s) m q
                   (proj1 (proj1 (Forall_forall _ song) Hok m Hm))
                   (proj2 (proj1 (Forall_forall _ song) Hok m Hm)))
              (pos t))
    as (song' & Hrun & Hmusic).
  exists song'. split; [|exact Hmusic].
  rewrite <- Hn. exact (Hrun t rest Hv eq_refl Hrem).
Qed.

(** The sample measure: its two beats come back from their encoding, in
    which the byte behind flags2 and the line break are 0. *)
Lemma measures_round_trip_witness :
  repeatM 1 read_measure (init sample_measure)
    = Ok sample_song (advance 33 (init sample_measure)) /\
  map music_of_measure sample_song =
    [([(0, [(0x30, 5, Some 1, Some 6, 0, Some 0)], None, 0, None, None, 0x40, 0);
       (0x44, [], Some 2, -2, None, Some "Hi"%string, 0, 0x0800)], [])] /\
  exists song',
    repeatM 1 read_measure (init (encode_measures (5, 0, 0) sample_song)) =
      Ok song'
         (advance (List.length (encode_measures (5, 0, 0) sample_song))
            (init (encode_measures (5, 0, 0) sample_song))) /\
    map music_of_measure song' = map music_of_measure sample_song.
Proof.
  split; [vm_compute; reflexivity|]. split; [vm_compute; reflexivity|].
  exact (measures_round_trip 1 (init sample_measure) sample_song _ eq_refl
           (init (encode_measures (5, 0, 0) sample_song)) [] eq_refl eq_refl).
Defined.

(** ** The scalar readers *)

Lemma remaining_length s :
  List.length (remaining s) = (List.length (data s) - pos s)%nat.
Proof. unfold remaining. apply length_skipn. Qed.

Lemma read_unpack_enough n s :
  (n <= List.length (remaining s))%nat ->
  exists v, read_unpack n s = Ok v (advance n s).
Proof.
  intros H. rewrite <- (firstn_skipn n (remaining s)) in H.
  eexists. apply (read_unpack_remaining n s (firstn n (remaining s))
                    (skipn n (remaining s))).
  - rewrite length_firstn. rewrite length_app, length_firstn, length_skipn in H. lia.
  - symmetry. apply firstn_skipn.
Qed.

(** X1. At the end of the buffer [read_byte] raises IndexError (from
    [data[pos]]) while [read_sbyte], [read_short] and [read_int] raise
    struct.error (from [struct.unpack] on a short slice); each reader
    succeeds, and moves the cursor by its size, exactly when that many
    bytes are left. *)
Theorem scalar_readers_bounds :
  forall s,
    let left := (List.length (data s) - pos s)%nat in
    ((left < 1)%nat -> read_byte s = Raise IndexError /\ read_sbyte s = Raise StructError) /\
    ((left < 2)%nat -> read_short s = Raise StructError) /\
    ((left < 4)%nat -> read_int s = Raise StructError) /\
    ((1 <= left)%nat ->
       (exists v, read_byte s = Ok v (advance 1 s)) /\
       (exists v, read_sbyte s = Ok v (advance 1 s))) /\
    ((2 <= left)%nat -> exists v, read_short s = Ok v (advance 2 s)) /\
    ((4 <= left)%nat -> exists v, read_int s = Ok v (advance 4 s)).
Proof.
  intros s left. subst left. rewrite <- remaining_length.
  repeat apply conj.
  - intros H. split.
    + apply read_byte_end. destruct (remaining s); [reflexivity | simpl in H; lia].
    + now apply read_unpack_short.
  - apply read_unpack_short.
  - apply read_unpack_short.
  - intros H. split.
    + destruct (remaining s) as [|b l] eqn:E; [simpl in H; lia|].
      eexists. now apply (read_byte_remaining s b l).
    + now apply read_unpack_enough.
  - apply read_unpack_enough.
  - apply read_unpack_enough.
Qed.

Lemma scalar_readers_bounds_witness :
  read_int (init [x01; x02; x03]) = Raise StructError
  /\ read_byte (init []) = Raise IndexError
  /\ exists v, read_short (init [x01; x02; x03])
               = Ok v (advance 2 (init [x01; x02; x03])).
Proof.
  split; [|split].
  - apply (proj1 (proj2 (proj2 (scalar_readers_bounds (init [x01; x02; x03]))))).
    simpl. lia.
  - apply (proj1 (scalar_readers_bounds (init []))). simpl. lia.
  - apply (proj1 (proj2 (proj2 (proj2 (proj2
             (scalar_readers_bounds (init [x01; x02; x03]))))))).
    simpl. lia.
Defined.

(** X2. What the scalar readers return: [read_byte] an unsigned byte,
    [read_sbyte], [read_short] and [read_int] signed integers of 8, 16 and
    32 bits. *)
Theorem scalar_readers_range :
  forall s v s',
    (read_byte s = Ok v s' -> 0 <= v <= 255) /\
    (read_sbyte s = Ok v s' -> -128 <= v <= 127) /\
    (read_short s = Ok v s' -> -32768 <= v <= 32767) /\
    (read_int s = Ok v s' -> -2147483648 <= v <= 2147483647).
Proof.
  intros s v s'. repeat apply conj; intros H.
  - apply read_byte_is_byte in H. unfold is_byte in H. lia.
  - apply read_sbyte_is_sbyte in H. unfold is_sbyte in H. lia.
  - apply read_short_is_short in H. unfold is_short in H. lia.
  - apply read_int_is_int in H. unfold is_int in H. lia.
Qed.

Lemma scalar_readers_range_witness :
  read_sbyte (init [xff]) = Ok (-1) (advance 1 (init [xff])) /\
  -128 <= -1 <= 127.
Proof.
  split; [reflexivity|].
  exact (proj1 (proj2 (scalar_readers_range (init [xff]) (-1)
                         (advance 1 (init [xff])))) eq_refl).
Defined.

(** ** The writers of [test_gp5_with_notes.py] against the readers *)

Lemma read_unpack_pack n z s rest :
  (0 < n)%nat ->
  - 2 ^ (8 * Z.of_nat n - 1) <= z < 2 ^ (8 * Z.of_nat n - 1) ->
  remaining s = pack n z ++ rest ->
  read_unpack n s = Ok z (advance n s).
Proof.
  intros Hn Hz H.
  rewrite (read_unpack_remaining n s (pack n z) rest (pack_length n z) H).
  f_equal. now apply unpack_pack.
Qed.

(** X3. What the scalar writers of [test_gp5_with_notes.py] write, the
    scalar readers of [analyze_gp5.py] read back: [write_byte] keeps the
    low 8 bits, so [read_byte] returns the value modulo 256 and
    [read_sbyte] returns a value of -128..127 itself; [read_short] and
    [read_int] return a value within the range of the format. *)
Theorem write_read_scalars :
  forall z s rest,
    (remaining s = write_byte z ++ rest ->
       read_byte s = Ok (z mod 256) (advance 1 s)) /\
    (-128 <= z <= 127 -> remaining s = write_byte z ++ rest ->
       read_sbyte s = Ok z (advance 1 s)) /\
    (-32768 <= z <= 32767 -> remaining s = write_short z ++ rest ->
       read_short s = Ok z (advance 2 s)) /\
    (-2147483648 <= z <= 2147483647 -> remaining s = write_int z ++ rest ->
       read_int s = Ok z (advance 4 s)).
Proof.
  intros z s rest. repeat apply conj.
  - intros H. rewrite (read_byte_remaining s _ _ H). now rewrite byte_val_byte_of_Z.
  - intros Hz H.
    unfold read_sbyte. rewrite (read_unpack_remaining 1 s (write_byte z) rest eq_refl H).
    f_equal. apply (unpack_pack 1 z); [lia | simpl; lia].
  - intros Hz H.
    unfold read_short. rewrite (read_unpack_remaining 2 s (write_short z) rest eq_refl H).
    f_equal. apply (unpack_pack 2 z); [lia | simpl; lia].
  - intros Hz H.
    unfold read_int. rewrite (read_unpack_remaining 4 s (write_int z) rest eq_refl H).
    f_equal. apply (unpack_pack 4 z); [lia | simpl; lia].
Qed.

Lemma write_read_scalars_witness :
  read_short (init (write_short (-1) ++ [x07]))
    = Ok (-1) (advance 2 (init (write_short (-1) ++ [x07])))
  /\ read_byte (init (write_byte 300 ++ []))
    = Ok (300 mod 256) (advance 1 (init (write_byte 300 ++ []))).
Proof.
  split.
  - apply (proj1 (proj2 (proj2 (write_read_scalars (-1)
             (init (write_short (-1) ++ [x07])) [x07])))); [lia | reflexivity].
  - apply (proj1 (write_read_scalars 300 (init (write_byte 300 ++ [])) [])).
    reflexivity.
Defined.

(** *** Strings *)

Lemma get_list_byte i t :
  match String.get i t with
  | Some c => write_byte (ord c)
  | None => write_byte 0
  end = [nth i (list_byte_of_string t) x00].
Proof.
  unfold list_byte_of_string. revert i.
  induction t as [|c t IH]; intros i.
  - destruct i; reflexivity.
  - destruct i as [|i]; cbn [String.get list_ascii_of_string map nth].
    + unfold write_byte. now rewrite byte_of_ord.
    + apply IH.
Qed.

Lemma flat_map_singleton {A B} (f : A -> B) l :
  flat_map (fun x => [f x]) l = map f l.
Proof. induction l as [|x l IH]; cbn; [reflexivity | now rewrite IH]. Qed.

Lemma write_byte_size_string_bytes t max_len :
  (String.length t <= max_len)%nat ->
  write_byte_size_string t max_len =
    byte_of_Z (Z.of_nat (String.length t))
      :: list_byte_of_string t ++ repeat x00 (max_len - String.length t).
Proof.
  intros Hle. unfold write_byte_size_string. cbn [write_byte app]. f_equal.
  erewrite flat_map_ext by (intros i; apply get_list_byte).
  rewrite flat_map_singleton.
  rewrite <- list_byte_of_string_length in *.
  generalize dependent (list_byte_of_string t). intros l Hle.
  replace max_len with (List.length l + (max_len - List.length l))%nat at 1 by lia.
  generalize (max_len - List.length l)%nat as n. clear. intros n.
  rewrite seq_app, map_app. f_equal.
  - clear. induction l as [|x l IH]; [reflexivity|].
    cbn [List.length seq map nth]. f_equal.
    rewrite <- seq_shift, map_map. exact IH.
  - cbn [Nat.add]. induction n as [|n IH] in l |- *; [reflexivity|].
    cbn [seq map repeat]. f_equal.
    + apply nth_overflow. lia.
    + rewrite <- (IH (l ++ [x00])) .
      rewrite length_app. cbn [List.length].
      replace (List.length l + 1)%nat with (S (List.length l)) by lia.
      apply map_ext_in. intros i Hi. apply in_seq in Hi.
      rewrite !nth_overflow; [reflexivity | | ]; rewrite ?length_app; cbn; lia.
Qed.

(** X4. A string of at most [max_len] (and at most 255) characters written
    by [write_byte_size_string] is read back by [read_byte_size_string]
    with the same field size, and the cursor ends behind the 1 + [max_len]
    bytes of the field. *)
Theorem write_read_byte_size_string :
  forall t max_len s rest,
    (String.length t <= max_len)%nat ->
    (String.length t <= 255)%nat ->
    remaining s = write_byte_size_string t max_len ++ rest ->
    read_byte_size_string max_len s = Ok t (advance (1 + max_len) s).
Proof.
  intros t max_len s rest Hmax H255 Hrem.
  rewrite write_byte_size_string_bytes in Hrem by exact Hmax.
  cbn [app] in Hrem.
  rewrite (read_byte_size_string_remaining max_len s _ _ Hrem).
  f_equal. rewrite byte_val_write by (unfold is_byte; lia).
  rewrite Nat2Z.id, <- app_assoc, <- list_byte_of_string_length.
  rewrite firstn_app_exact. apply string_of_list_byte_of_string.
Qed.

Lemma write_read_byte_size_string_witness :
  read_byte_size_string 40 (init (write_byte_size_string "Track 1" 40 ++ [x07]))
    = Ok "Track 1"%string
        (advance (1 + 40) (init (write_byte_size_string "Track 1" 40 ++ [x07]))).
Proof.
  apply (write_read_byte_size_string "Track 1" 40 _ [x07]);
    [simpl; lia | simpl; lia | reflexivity].
Defined.

(** X5. A string of at most 255 characters written by
    [write_int_byte_size_string] is read back by
    [read_int_byte_size_string], and the cursor ends behind the 5 bytes of
    the prefix and the characters. *)
Theorem write_read_int_byte_size_string :
  forall t s rest,
    (String.length t <= 255)%nat ->
    remaining s = write_int_byte_size_string t ++ rest ->
    read_int_byte_size_string s = Ok t (advance (5 + String.length t) s).
Proof.
  intros t s rest Ht Hrem.
  rewrite <- (block_of_string_bytes t Ht) in Hrem.
  rewrite (consumes_block (versionTuple s) (pos s) _ (block_of_string_wf t Ht)
             s rest eq_refl eq_refl Hrem).
  rewrite block_of_string_str by exact Ht. f_equal. f_equal.
  rewrite block_of_string_bytes by exact Ht.
  unfold write_int_byte_size_string, write_int, write_byte.
  rewrite !length_app, pack_length, write_string_bytes, list_byte_of_string_length.
  reflexivity.
Qed.

Lemma write_read_int_byte_size_string_witness :
  read_int_byte_size_string (init (write_int_byte_size_string "Test Artist" ++ []))
    = Ok "Test Artist"%string
        (advance (5 + 11) (init (write_int_byte_size_string "Test Artist" ++ []))).
Proof.
  apply (write_read_int_byte_size_string "Test Artist" _ []);
    [simpl; lia | reflexivity].
Defined.

(** X6. A string written by [write_int_size_string] is read back by
    [read_int_size_string]; the empty string is the length 0 alone. *)
Theorem write_read_int_size_string :
  forall t s rest,
    Z.of_nat (String.length t) <= 2147483647 ->
    remaining s = write_int_size_string t ++ rest ->
    read_int_size_string s = Ok t (advance (4 + String.length t) s).
Proof.
  intros t s rest Ht Hrem. unfold write_int_size_string in Hrem.
  rewrite write_string_bytes, <- app_assoc in Hrem.
  unfold read_int_size_string, bind.
  unfold read_int.
  rewrite (read_unpack_pack 4 (Z.of_nat (String.length t)) s
             (list_byte_of_string t ++ rest));
    [| lia | simpl; lia | exact Hrem].
  assert (Hr : remaining (advance 4 s) = list_byte_of_string t ++ rest).
  { apply (remaining_advance_app (write_int (Z.of_nat (String.length t)))).
    exact Hrem. }
  destruct (Z.leb_spec (Z.of_nat (String.length t)) 0) as [H0|H0].
  - assert (String.length t = 0)%nat as E by lia.
    destruct t; [|discriminate]. reflexivity.
  - unfold peek, skip, ret. rewrite slice_remaining, Hr, Nat2Z.id.
    rewrite <- list_byte_of_string_length, firstn_app_exact.
    unfold decode_latin1. rewrite string_of_list_byte_of_string.
    now rewrite advance_advance.
Qed.

Lemma write_read_int_size_string_witness :
  read_int_size_string (init (write_int_size_string "la la" ++ [x00]))
    = Ok "la la"%string
        (advance (4 + 5) (init (write_int_size_string "la la" ++ [x00]))).
Proof.
  apply (write_read_int_size_string "la la" _ [x00]); [simpl; lia | reflexivity].
Defined.

(** ** The song header *)

Lemma skips_blocks v l :
  Forall block_sized l ->
  forall q, skips v q (repeatM (List.length l) read_int_byte_size_string)
              (flat_map block_bytes l).
Proof.
  induction 1 as [|b l Hb Hl IH]; intros q.
  - eapply consumes_skips, consumes_ret.
  - cbn [List.length repeatM flat_map].
    apply skips_bind; [now apply skips_block | intros a].
    rewrite <- (app_nil_r (flat_map _ _)).
    apply skips_bind; [apply IH | intros xs].
    eapply consumes_skips, consumes_ret.
Qed.

Lemma consumes_read_info v p i :
  info_wf i ->
  consumes v p read_info (info_bytes i) (block_str (iw_title i), block_str (iw_artist i)).
Proof.
  intros (Ht & Ha & Hs & Hn & Hc). unfold read_info, info_bytes.
  inversion Hs as [|? ? H1 Hs1]; subst. inversion Hs1 as [|? ? H2 Hs2]; subst.
  inversion Hs2 as [|? ? H3 Hs3]; subst. inversion Hs3 as [|? ? H4 Hs4]; subst.
  inversion Hs4 as [|? ? H5 Hs5]; subst. inversion Hs5 as [|? ? H6 Hs6]; subst.
  inversion Hs6 as [|? ? H7 Hs7]; subst.
  eapply consumes_bind; [now apply consumes_block|].
  apply consumes_skips_bind; [now apply skips_block | intros _].
  eapply consumes_bind; [now apply consumes_block|].
  apply consumes_skips_bind; [now apply skips_block | intros _].
  apply consumes_skips_bind; [now apply skips_block | intros _].
  apply consumes_skips_bind; [now apply skips_block | intros _].
  apply consumes_skips_bind; [now apply skips_block | intros _].
  apply consumes_skips_bind; [now apply skips_block | intros _].
  apply consumes_skips_bind; [now apply skips_block | intros _].
  eapply consumes_bind; [apply consumes_read_word|].
  rewrite <- (app_nil_r (flat_map _ _)).
  apply consumes_skips_bind; [| intros _; apply consumes_ret].
  rewrite <- Hc. now apply skips_blocks.
Qed.

(** X7. [read_info] reads nine int-byte-size blocks, the notice count and
    that many notice blocks (none when the count is not positive); it
    returns the strings of the first and of the third block, title and
    artist, and leaves the cursor behind the last notice. *)
Theorem read_info_layout :
  forall i s rest,
    info_wf i ->
    remaining s = info_bytes i ++ rest ->
    read_info s =
      Ok (block_str (iw_title i), block_str (iw_artist i))
         (advance (List.length (info_bytes i)) s).
Proof.
  intros i s rest Hwf Hrem.
  exact (consumes_read_info (versionTuple s) (pos s) i Hwf s rest
           eq_refl eq_refl Hrem).
Qed.

Lemma no_block_sized : block_sized no_block.
Proof. intros H. vm_compute in H. discriminate. Qed.

Lemma sample_info_wf : info_wf sample_info.
Proof.
  unfold info_wf, sample_info; cbn [iw_title iw_artist iw_subtitle iw_album
    iw_words iw_music iw_copyright iw_tab iw_instructions iw_notices
    iw_notice_count].
  split; [apply block_of_string_wf; simpl; lia|].
  split; [apply block_of_string_wf; simpl; lia|].
  split; [repeat constructor; apply no_block_sized|].
  split; [|reflexivity].
  repeat constructor.
Qed.

Lemma read_info_layout_witness :
  read_info (init (info_bytes sample_info ++ [x2a]))
    = Ok ("Song"%string, "Me"%string)
        (advance 54 (init (info_bytes sample_info ++ [x2a]))).
Proof.
  exact (read_info_layout sample_info (init (info_bytes sample_info ++ [x2a]))
           [x2a] sample_info_wf eq_refl).
Defined.

Lemma consumes_line v p l :
  line_wf l ->
  skips v p (read_int ;;; read_int_size_string) (line_bytes l).
Proof.
  intros Hwf. unfold line_bytes.
  eapply skips_after; [apply consumes_read_word|].
  unfold read_int_size_string.
  eapply skips_after; [apply consumes_read_word|].
  unfold line_wf in Hwf.
  destruct (Z.leb_spec (word_val (ln_length l)) 0) as [H0|H0].
  - replace (ln_text l) with (@nil byte).
    + eapply consumes_skips, consumes_ret.
    + destruct (ln_text l); [reflexivity|]. simpl in Hwf. lia.
  - intros s rest Hv Hp Hrem. unfold bind, peek, skip, ret.
    eexists. rewrite Hwf. reflexivity.
Qed.

Lemma skips_lines v ls :
  Forall line_wf ls ->
  forall p, skips v p (repeatM (List.length ls) (read_int ;;; read_int_size_string))
              (flat_map line_bytes ls).
Proof.
  induction 1 as [|l ls Hl Hls IH]; intros p.
  - eapply consumes_skips, consumes_ret.
  - cbn [List.length repeatM flat_map].
    apply skips_bind; [now apply consumes_line | intros a].
    rewrite <- (app_nil_r (flat_map _ _)).
    apply skips_bind; [apply IH | intros xs].
    eapply consumes_skips, consumes_ret.
Qed.

(** X8. [read_lyrics] reads the track number and five lines, each the int
    of its first bar and an int-size string: the 4-byte length and that
    many bytes, none for a length that is not positive.  It leaves the
    cursor behind the fifth line. *)
Theorem read_lyrics_layout :
  forall track ls s rest,
    List.length ls = 5%nat ->
    Forall line_wf ls ->
    remaining s = word_bytes track ++ flat_map line_bytes ls ++ rest ->
    read_lyrics s =
      Ok tt (advance (4 + List.length (flat_map line_bytes ls)) s).
Proof.
  intros track ls s rest H5 Hwf Hrem.
  assert (H : consumes (versionTuple s) (pos s) read_lyrics
                (word_bytes track ++ flat_map line_bytes ls) tt).
  { unfold read_lyrics.
    eapply consumes_bind; [apply consumes_read_word|].
    rewrite <- (app_nil_r (flat_map _ _)).
    apply consumes_skips_bind; [| intros _; apply consumes_ret].
    rewrite <- H5. now apply skips_lines. }
  rewrite app_assoc in Hrem.
  rewrite (H s rest eq_refl eq_refl Hrem).
  now rewrite length_app, word_bytes_length.
Qed.

Lemma read_lyrics_layout_witness :
  read_lyrics (init (word_bytes no_word ++ flat_map line_bytes sample_lyrics ++ [x2a]))
    = Ok tt (advance (4 + 42)
               (init (word_bytes no_word ++ flat_map line_bytes sample_lyrics ++ [x2a]))).
Proof.
  apply (read_lyrics_layout no_word sample_lyrics _ [x2a]);
    [reflexivity | repeat constructor | reflexivity].
Defined.

Lemma skips_read_page_setup v p g :
  page_setup_wf g -> skips v p read_page_setup (page_setup_bytes g).
Proof.
  intros [H10 Hwf]. unfold read_page_setup, page_setup_bytes.
  do 7 (eapply skips_after; [apply consumes_read_word|]).
  eapply (skips_after v _ read_short _ [_; _]); [apply consumes_read_short|].
  rewrite <- (app_nil_r (flat_map _ _)).
  apply skips_bind; [| intros _; eapply consumes_skips, consumes_ret].
  rewrite <- H10. now apply skips_blocks.
Qed.

(** X9. [read_page_setup] reads seven ints (page size, four margins, score
    size), the header/footer flags short and ten int-byte-size blocks: 30
    bytes and the blocks. *)
Theorem read_page_setup_layout :
  forall g s rest,
    page_setup_wf g ->
    remaining s = page_setup_bytes g ++ rest ->
    read_page_setup s =
      Ok tt (advance (30 + List.length (flat_map block_bytes (pw_strings g))) s).
Proof.
  intros g s rest Hwf Hrem.
  destruct (skips_read_page_setup (versionTuple s) (pos s) g Hwf s rest
              eq_refl eq_refl Hrem) as [[] H].
  rewrite H. do 2 f_equal. unfold page_setup_bytes.
  rewrite !length_app, !word_bytes_length. simpl. lia.
Qed.

Lemma read_page_setup_layout_witness :
  read_page_setup (init (page_setup_bytes sample_page_setup ++ [x2a]))
    = Ok tt (advance (30 + 40)
               (init (page_setup_bytes sample_page_setup ++ [x2a]))).
Proof.
  apply (read_page_setup_layout sample_page_setup _ [x2a]); [|reflexivity].
  split; [reflexivity | repeat constructor; apply no_block_sized].
Defined.

(** X10. The MIDI channel table and the directions have a fixed size:
    [read_midi_channels] skips 64 channels of 12 bytes, 768 bytes, and
    [read_directions] 19 shorts, 38 bytes, whatever the bytes are. *)
Theorem midi_channels_and_directions_size :
  forall s bs rest,
    remaining s = bs ++ rest ->
    (List.length bs = 768%nat -> read_midi_channels s = Ok tt (advance 768 s)) /\
   (List.length bs = 38%nat -> read_directions s = Ok tt (advance 38 s)).
Proof.
  intros s bs rest Hrem. split; intros Hn.
  - assert (F : fixed (versionTuple s) 768 read_midi_channels)
      by (unfold read_midi_channels; fixed_solve).
    destruct (F (pos s) bs Hn s rest eq_refl eq_refl Hrem) as [[] H].
    now rewrite H, Hn.
  - assert (F : fixed (versionTuple s) 38 read_directions)
      by (unfold read_directions; fixed_solve).
    destruct (F (pos s) bs Hn s rest eq_refl eq_refl Hrem) as [[] H].
    now rewrite H, Hn.
Qed.

Lemma midi_channels_and_directions_size_witness :
  read_midi_channels (init (repeat xff 768 ++ [x2a]))
    = Ok tt (advance 768 (init (repeat xff 768 ++ [x2a])))
  /\ read_directions (init (repeat xff 38 ++ []))
    = Ok tt (advance 38 (init (repeat xff 38 ++ []))).
Proof.
  split.
  - apply (proj1 (midi_channels_and_directions_size
             (init (repeat xff 768 ++ [x2a])) (repeat xff 768) [x2a] eq_refl)).
    apply repeat_length.
  - apply (proj2 (midi_channels_and_directions_size
             (init (repeat xff 38 ++ [])) (repeat xff 38) [] eq_refl)).
    apply repeat_length.
Defined.

(** ** The measure headers *)

Lemma consumes_forM_headers v hs :
  Forall header_wf hs ->
  forall i p,
    consumes v p (forM (List.length hs) i read_measure_header)
      (headers_bytes i hs) (headers_of i hs).
Proof.
  induction 1 as [|h hs Hh Hhs IH]; intros i p.
  - apply consumes_ret.
  - cbn [List.length forM headers_bytes headers_of].
    eapply consumes_bind; [now apply consumes_read_measure_header|].
    rewrite <- (app_nil_r (headers_bytes _ _)).
    eapply consumes_bind; [apply IH | apply consumes_ret].
Qed.

(** X11. [read_measure_headers count] reads [count] headers one after the
    other, every header but the first behind a blank byte, and numbers them
    from 1; a count that is not positive reads nothing. *)
Theorem read_measure_headers_layout :
  forall count hs s rest,
    Forall header_wf hs ->
    List.length hs = Z.to_nat count ->
    remaining s = headers_bytes 0 hs ++ rest ->
    read_measure_headers count s =
      Ok (headers_of 0 hs) (advance (List.length (headers_bytes 0 hs)) s).
Proof.
  intros count hs s rest Hwf Hn Hrem. unfold read_measure_headers.
  rewrite <- Hn.
  exact (consumes_forM_headers (versionTuple s) hs Hwf 0%nat (pos s) s rest
           eq_refl eq_refl Hrem).
Qed.

Lemma read_measure_headers_layout_witness :
  headers_bytes 0 sample_headers
    = [x03; x04; x04; x02; x02; x02; x02; x00; x00; x00; x00; x00; x00] /\
  read_measure_headers 2 (init (headers_bytes 0 sample_headers ++ [x2a]))
    = Ok [mkHeader 1 3 (Some 4) (Some 4) false None None false;
          mkHeader 2 0 None None false None None false]
        (advance 13 (init (headers_bytes 0 sample_headers ++ [x2a]))).
Proof.
  split; [reflexivity|].
  apply (read_measure_headers_layout 2 sample_headers _ [x2a]);
    [| reflexivity | reflexivity].
  constructor; [intros H; vm_compute in H; discriminate H|].
  constructor; [intros H; vm_compute in H; discriminate H|].
  constructor.
Defined.

Lemma when_text_ok (c : bool) (m : M string) s o s' :
  (forall q t q', m q = Ok t q' -> (String.length t <= 255)%nat) ->
  when c m s = Ok o s' -> text_ok c o.
Proof.
  intros Hm H. apply when_ok in H as [(-> & a & Ha & ->) | (-> & -> & _)].
  - exists a. split; [reflexivity | eapply Hm, Ha].
  - reflexivity.
Qed.

Lemma read_measure_header_ok i s h s' :
  read_measure_header i s = Ok h s' -> header_ok h /\ h_number h = Z.of_nat i + 1.
Proof.
  unfold read_measure_header. intros H.
  apply bind_ok in H as (v & s1 & _ & H).
  apply bind_ok in H as (u & s2 & _ & H).
  apply bind_ok in H as (flags & s3 & Hf & H).
  apply bind_ok in H as (numerator & s4 & Hnum & H).
  apply bind_ok in H as (denominator & s5 & Hden & H).
  apply bind_ok in H as (repeatClose & s6 & Hrc & H).
  apply bind_ok in H as (marker & s7 & Hmk & H).
  apply bind_ok in H as (? & s8 & _ & H).
  apply bind_ok in H as (? & s9 & _ & H).
  apply bind_ok in H as (? & s10 & _ & H).
  apply bind_ok in H as (? & s11 & _ & H).
  apply bind_ok in H as (? & s12 & _ & H).
  inversion H; subst; clear H.
  split; [|reflexivity]. unfold header_ok.
  cbn [h_flags h_numerator h_denominator h_repeatOpen h_repeatClose h_marker
       h_doubleBar].
  split; [eapply read_byte_is_byte, Hf|].
  split; [eapply when_opt_ok; [|exact Hnum]; apply read_byte_is_byte|].
  split; [eapply when_opt_ok; [|exact Hden]; apply read_byte_is_byte|].
  split; [reflexivity|].
  split; [eapply when_opt_ok; [|exact Hrc]; apply read_byte_is_byte|].
  split; [|reflexivity].
  eapply when_text_ok; [|exact Hmk].
    intros q t q' Hq. apply bind_ok in Hq as (t' & q1 & Ht & Hq).
    apply bind_ok in Hq as (? & q2 & _ & Hq). inversion Hq; subst.
    eapply read_int_byte_size_string_length, Ht.
Qed.

Lemma forM_shape {A} (P : nat -> A -> Prop) (body : nat -> M A) :
  (forall i s a s', body i s = Ok a s' -> P i a) ->
  forall n i s l s',
    forM n i body s = Ok l s' ->
    List.length l = n /\
    forall k a, nth_error l k = Some a -> P (i + k)%nat a.
Proof.
  intros Hb. induction n as [|n IH]; intros i s l s' H.
  - inversion H; subst. split; [reflexivity|]. intros [|k] a Hk; discriminate.
  - cbn [forM] in H.
    apply bind_ok in H as (x & s1 & Hx & H).
    apply bind_ok in H as (xs & s2 & Hxs & H).
    inversion H; subst; clear H.
    destruct (IH _ _ _ _ Hxs) as [Hlen Hnth].
    split; [simpl; now rewrite Hlen|].
    intros [|k] a Hk; simpl in Hk.
    + inversion Hk; subst. rewrite Nat.add_0_r. eapply Hb, Hx.
    + replace (i + S k)%nat with (S i + k)%nat by lia. now apply Hnth.
Qed.

(** X12. Whatever the bytes, the headers that [read_measure_headers]
    returns are as many as the count asks for (none for a count that is not
    positive), the k-th of them has the number k + 1, and in each of them
    the keys follow the flags byte: numerator, denominator, repeat-close
    and marker are present exactly under the bits 0x01, 0x02, 0x08 and
    0x20, repeatOpen and doubleBar are the bits 0x04 and 0x80. *)
Theorem read_measure_headers_shape :
  forall count s hs s',
    read_measure_headers count s = Ok hs s' ->
    List.length hs = Z.to_nat count /\
    Forall header_ok hs /\
    forall k h, nth_error hs k = Some h -> h_number h = Z.of_nat k + 1.
Proof.
  intros count s hs s' H. unfold read_measure_headers in H.
  destruct (forM_shape (fun i h => header_ok h /\ h_number h = Z.of_nat i + 1)
              read_measure_header read_measure_header_ok _ _ _ _ _ H)
    as [Hlen Hnth].
  split; [exact Hlen|]. split.
  - apply Forall_forall. intros h Hin.
    apply In_nth_error in Hin as [k Hk]. exact (proj1 (Hnth k h Hk)).
  - intros k h Hk. exact (proj2 (Hnth k h Hk)).
Qed.

Lemma read_measure_headers_shape_witness :
  List.length [mkHeader 1 3 (Some 4) (Some 4) false None None false;
               mkHeader 2 0 None None false None None false] = Z.to_nat 2 /\
  Forall header_ok [mkHeader 1 3 (Some 4) (Some 4) false None None false;
                    mkHeader 2 0 None None false None None false].
Proof.
  pose proof (read_measure_headers_shape 2
                (init (headers_bytes 0 sample_headers)) _ _ eq_refl) as H.
  exact (conj (proj1 H) (proj1 (proj2 H))).
Defined.

(** ** Tracks *)

Lemma consumes_read_rse_instrument v p r :
  consumes v p read_rse_instrument (rse_instrument_bytes v r)
    (word_val (rw_instrument r), word_val (rw_sound_bank r),
     effect_number_val v (rw_effect_number r)).
Proof.
  unfold read_rse_instrument, rse_instrument_bytes.
  eapply consumes_bind; [apply consumes_read_word|].
  eapply consumes_bind; [apply consumes_read_word|].
  eapply consumes_bind; [apply consumes_read_word|].
  eapply consumes_nil_bind; [apply consumes_get_versionTuple|].
  rewrite <- (app_nil_r (effect_number_bytes _ _)).
  eapply consumes_bind; [|apply consumes_ret].
  unfold effect_number_bytes, effect_number_val.
  destruct (tuple_eqb v (5, 0, 0)).
  - destruct (rw_effect_number r) as [[[e0 e1] e2] e3].
    cbn [word_bytes firstn].
    apply (consumes_cons_short v _ _ e0 e1 [e2]).
    change [e2] with ([e2] ++ []).
    eapply consumes_bind; [now apply consumes_skip | apply consumes_ret].
  - apply consumes_read_word.
Qed.

Lemma skips_words v ws :
  forall p, skips v p (repeatM (List.length ws) read_int) (flat_map word_bytes ws).
Proof.
  intros p. eapply consumes_skips.
  apply (consumes_repeatM v word_bytes word_val read_int).
  intros q w. apply consumes_read_word.
Qed.

Lemma skips_read_track_rse v p r :
  track_rse_wf v r -> skips v p read_track_rse (track_rse_bytes v r).
Proof.
  intros (H3 & H12 & Hgt). unfold read_track_rse, track_rse_bytes.
  apply (skips_cons_byte v p _ (rw_humanize r)).
  apply skips_bind; [rewrite <- H3; apply skips_words | intros _].
  apply skips_bind; [eapply consumes_skips, consumes_skip, H12 | intros _].
  apply skips_bind; [eapply consumes_skips, consumes_read_rse_instrument | intros _].
  eapply skips_nil_after; [apply consumes_get_versionTuple|].
  destruct (tuple_gtb v (5, 0, 0)); cbn [opt].
  - destruct (Hgt eq_refl) as (H4 & Hn & Hc).
    apply skips_bind;
      [apply (fixed_repeatM_eq v 4 4 1 read_sbyte (fixed_read_unpack v 1)
                eq_refl _ _ H4)
      | intros _].
    apply skips_bind; [now apply skips_block | intros _].
    rewrite <- (app_nil_r (block_bytes (rw_effect_category r))).
    apply skips_bind; [now apply skips_block | intros _].
    eapply consumes_skips, consumes_ret.
  - eapply consumes_skips, consumes_ret.
Qed.

Lemma consumes_read_byte_size_string v p size L content :
  List.length content = size ->
  (Z.to_nat (byte_val L) <= size)%nat ->
  consumes v p (read_byte_size_string size) (L :: content)
    (decode_latin1 (firstn (Z.to_nat (byte_val L)) content)).
Proof.
  intros Hn HL s rest _ _ Hrem. simpl in Hrem.
  rewrite (read_byte_size_string_remaining size s L _ Hrem).
  cbn [List.length]. rewrite Hn. f_equal.
  now rewrite firstn_app, (proj2 (Nat.sub_0_le _ _)), firstn_O, app_nil_r by lia.
Qed.

Lemma consumes_read_track v measure_count i t :
  track_wf v t ->
  forall p,
    consumes v p (read_track measure_count i) (track_bytes v i t)
      (track_of measure_count i t).
Proof.
  intros (H40 & HL & H7 & Hrse) p. unfold read_track, track_bytes, track_of.
  destruct (tw_color t) as [[red green] blue].
  eapply consumes_nil_bind; [apply consumes_get_versionTuple|].
  apply consumes_skips_bind.
  { destruct ((i =? 0)%nat || tuple_eqb v (5, 0, 0)); cbn [opt].
    - now eapply consumes_skips, consumes_skip.
    - eapply consumes_skips, consumes_ret. }
  intros _.
  eapply consumes_bind; [apply consumes_read_byte|].
  eapply consumes_bind; [now apply consumes_read_byte_size_string|].
  eapply consumes_bind; [apply consumes_read_word|].
  apply consumes_skips_bind; [rewrite <- H7; apply skips_words | intros _].
  apply consumes_skips_bind;
    [eapply consumes_skips, consumes_read_word | intros _].
  eapply consumes_bind; [apply consumes_read_word|].
  do 3 (apply consumes_skips_bind;
        [eapply consumes_skips, consumes_read_word | intros _]).
  do 3 (apply consumes_cons_byte).
  eapply (consumes_bind v _ (skip 1) _ [_]); [now apply consumes_skip|].
  eapply (consumes_bind v _ read_short _ [_; _]); [apply consumes_read_short|].
  do 2 (apply consumes_cons_byte).
  rewrite <- (app_nil_r (track_rse_bytes v (tw_rse t))).
  apply consumes_skips_bind; [now apply skips_read_track_rse | intros _].
  apply consumes_ret.
Qed.

Lemma consumes_forM_tracks v measure_count ts :
  Forall (track_wf v) ts ->
  forall i p,
    consumes v p (forM (List.length ts) i (read_track measure_count))
      (tracks_bytes v i ts) (tracks_of measure_count i ts).
Proof.
  induction 1 as [|t ts Ht Hts IH]; intros i p.
  - apply consumes_ret.
  - cbn [List.length forM tracks_bytes tracks_of].
    eapply consumes_bind; [now apply consumes_read_track|].
    rewrite <- (app_nil_r (tracks_bytes _ _ _)).
    eapply consumes_bind; [apply IH | apply consumes_ret].
Qed.

(** X13. The RSE data of a track is 40 bytes in (5, 0, 0): humanize, three
    ints, 12 blank bytes, three ints of the RSE instrument, the effect
    number as a short and a blank byte.  After (5, 0, 0) the effect number
    is an int and a 4-band equalizer and two int-byte-size blocks follow.
    [read_rse_instrument] returns the instrument, the sound bank (the third
    int) and the effect number. *)
Theorem read_track_rse_layout :
  forall r s rest,
    track_rse_wf (versionTuple s) r ->
    (remaining s = rse_instrument_bytes (versionTuple s) r ++ rest ->
       read_rse_instrument s =
         Ok (word_val (rw_instrument r), word_val (rw_sound_bank r),
             effect_number_val (versionTuple s) (rw_effect_number r))
            (advance (if tuple_eqb (versionTuple s) (5, 0, 0) then 15 else 16) s)) /\
    (remaining s = track_rse_bytes (versionTuple s) r ++ rest ->
       read_track_rse s =
         Ok tt (advance (List.length (track_rse_bytes (versionTuple s) r)) s) /\
       (versionTuple s = (5, 0, 0) ->
          List.length (track_rse_bytes (versionTuple s) r) = 40%nat)).
Proof.
  intros r s rest Hwf. split; intros Hrem.
  - rewrite (consumes_read_rse_instrument (versionTuple s) (pos s) r s rest
               eq_refl eq_refl Hrem).
    f_equal. unfold rse_instrument_bytes, effect_number_bytes.
    rewrite !length_app, !word_bytes_length.
    destruct (tuple_eqb (versionTuple s) (5, 0, 0)).
    + destruct (rw_effect_number r) as [[[e0 e1] e2] e3]. reflexivity.
    + now rewrite word_bytes_length.
  - split.
    + destruct (skips_read_track_rse (versionTuple s) (pos s) r Hwf s rest
                  eq_refl eq_refl Hrem) as [[] H]. exact H.
    + intros Hv. destruct Hwf as (H3 & H12 & _). rewrite Hv.
      unfold track_rse_bytes, rse_instrument_bytes, effect_number_bytes.
      cbn [tuple_gtb tuple_ltb tuple_eqb opt].
      destruct (rw_effect_number r) as [[[e0 e1] e2] e3].
      rewrite !length_app, words_length, !word_bytes_length, H3, H12.
      reflexivity.
Qed.

Lemma sample_track_rse_wf : track_rse_wf (5, 0, 0) sample_track_rse.
Proof. split; [reflexivity|]. split; [reflexivity|]. intros H. discriminate H. Qed.

Lemma read_track_rse_layout_witness :
  read_track_rse (init (track_rse_bytes (5, 0, 0) sample_track_rse ++ [x2a]))
    = Ok tt (advance 40 (init (track_rse_bytes (5, 0, 0) sample_track_rse ++ [x2a]))).
Proof.
  exact (proj1 (proj2 (read_track_rse_layout sample_track_rse
                         (init (track_rse_bytes (5, 0, 0) sample_track_rse ++ [x2a]))
                         [x2a] sample_track_rse_wf) eq_refl)).
Defined.

(** X14. [read_tracks count measure_count] reads [count] tracks one after
    the other and then skips 2 bytes in (5, 0, 0) and 1 byte otherwise.  A
    blank byte stands in front of the first track and, in (5, 0, 0), of
    every track.  Each dict has the number of the track from 1, the flags
    byte and its bit 0 as isPercussion, the name, the string count, the
    channel, flags2 and [measure_count] empty measures. *)
Theorem read_tracks_layout :
  forall count measure_count ts pad s rest,
    Forall (track_wf (versionTuple s)) ts ->
    List.length ts = Z.to_nat count ->
    List.length pad
      = (if tuple_eqb (versionTuple s) (5, 0, 0) then 2%nat else 1%nat) ->
    remaining s = tracks_bytes (versionTuple s) 0 ts ++ pad ++ rest ->
    read_tracks count measure_count s =
      Ok (tracks_of measure_count 0 ts)
         (advance (List.length (tracks_bytes (versionTuple s) 0 ts ++ pad)) s).
Proof.
  intros count measure_count ts pad s rest Hwf Hn Hpad Hrem.
  assert (H : consumes (versionTuple s) (pos s) (read_tracks count measure_count)
                (tracks_bytes (versionTuple s) 0 ts ++ pad)
                (tracks_of measure_count 0 ts)).
  { unfold read_tracks. rewrite <- Hn.
    eapply consumes_bind; [now apply consumes_forM_tracks|].
    eapply consumes_nil_bind; [apply consumes_get_versionTuple|].
    rewrite <- (app_nil_r pad).
    apply consumes_skips_bind; [| intros _; apply consumes_ret].
    destruct (tuple_eqb (versionTuple s) (5, 0, 0));
      now eapply consumes_skips, consumes_skip. }
  rewrite app_assoc in Hrem. exact (H s rest eq_refl eq_refl Hrem).
Qed.

Lemma sample_track_wf : track_wf (5, 0, 0) sample_track.
Proof.
  split; [reflexivity|]. split; [vm_compute; lia|]. split; [reflexivity|].
  apply sample_track_rse_wf.
Qed.

Lemma read_tracks_layout_witness :
  read_tracks 1 2
      (init (tracks_bytes (5, 0, 0) 0 [sample_track] ++ [x00; x00] ++ [x2a]))
    = Ok [mkTrack 1 false 8 "Track 1" 6 1 3 [tt; tt]]
        (advance 145
           (init (tracks_bytes (5, 0, 0) 0 [sample_track] ++ [x00; x00] ++ [x2a]))).
Proof.
  exact (read_tracks_layout 1 2 [sample_track] [x00; x00]
           (init (tracks_bytes (5, 0, 0) 0 [sample_track] ++ [x00; x00] ++ [x2a]))
           [x2a] (Forall_cons _ sample_track_wf (Forall_nil _))
           eq_refl eq_refl eq_refl).
Defined.

Lemma read_byte_size_string_length size s t s' :
  read_byte_size_string size s = Ok t s' -> (String.length t <= 255)%nat.
Proof.
  unfold read_byte_size_string. intros H.
  apply bind_ok in H as (len & s1 & Hlen & H).
  apply bind_ok in H as (bs & s2 & Hbs & H).
  apply bind_ok in H as (u & s3 & _ & H).
  inversion H; subst; clear H.
  apply read_byte_is_byte in Hlen.
  unfold peek in Hbs. inversion Hbs; subst; clear Hbs.
  rewrite decode_latin1_length. unfold slice. rewrite length_firstn.
  unfold is_byte in Hlen. lia.
Qed.

Lemma read_track_ok measure_count i s t s' :
  read_track measure_count i s = Ok t s' -> track_ok measure_count i t.
Proof.
  unfold read_track. intros H.
  apply bind_ok in H as (v & s1 & _ & H).
  apply bind_ok in H as (u & s2 & _ & H).
  apply bind_ok in H as (flags1 & s3 & Hf & H).
  apply bind_ok in H as (name & s4 & Hname & H).
  apply bind_ok in H as (string_count & s5 & Hsc & H).
  apply bind_ok in H as (? & s6 & _ & H).
  apply bind_ok in H as (? & s7 & _ & H).
  apply bind_ok in H as (channel_idx & s8 & Hch & H).
  apply bind_ok in H as (? & s9 & _ & H).
  apply bind_ok in H as (? & s10 & _ & H).
  apply bind_ok in H as (? & s11 & _ & H).
  apply bind_ok in H as (? & s12 & _ & H).
  apply bind_ok in H as (? & s13 & _ & H).
  apply bind_ok in H as (? & s14 & _ & H).
  apply bind_ok in H as (? & s15 & _ & H).
  apply bind_ok in H as (flags2 & s16 & Hf2 & H).
  apply bind_ok in H as (? & s17 & _ & H).
  apply bind_ok in H as (? & s18 & _ & H).
  apply bind_ok in H as (? & s19 & _ & H).
  inversion H; subst; clear H.
  unfold track_ok.
  cbn [t_number t_flags1 t_isPercussion t_name t_stringCount t_channel
       t_flags2 t_measures].
  split; [reflexivity|].
  split; [eapply read_byte_is_byte, Hf|].
  split; [reflexivity|].
  split; [eapply read_byte_size_string_length, Hname|].
  split; [eapply read_int_is_int, Hsc|].
  split; [eapply read_int_is_int, Hch|].
  split; [eapply read_short_is_short, Hf2|].
  apply repeat_length.
Qed.

(** X15. Whatever the bytes, the tracks that [read_tracks] returns are as
    many as the count asks for (none for a count that is not positive);
    the k-th of them has the number k + 1, isPercussion is bit 0 of its
    flags byte, its name has at most 255 characters, and it has
    [measure_count] measures, all of them empty. *)
Theorem read_tracks_shape :
  forall count measure_count s ts s',
    read_tracks count measure_count s = Ok ts s' ->
    List.length ts = Z.to_nat count /\
    forall k t, nth_error ts k = Some t -> track_ok measure_count k t.
Proof.
  intros count measure_count s ts s' H. unfold read_tracks in H.
  apply bind_ok in H as (tracks & s1 & Hts & H).
  apply bind_ok in H as (v & s2 & _ & H).
  apply bind_ok in H as (u & s3 & _ & H).
  inversion H; subst; clear H.
  exact (forM_shape (track_ok measure_count) (read_track measure_count)
           (read_track_ok measure_count) _ _ _ _ _ Hts).
Qed.

Lemma read_tracks_shape_witness :
  track_ok 2 0 (mkTrack 1 false 8 "Track 1" 6 1 3 [tt; tt]).
Proof.
  exact (proj2 (read_tracks_shape 1 2
                  (init (tracks_bytes (5, 0, 0) 0 [sample_track] ++ [x00; x00]))
                  [mkTrack 1 false 8 "Track 1" 6 1 3 [tt; tt]]
                  (advance 145
                     (init (tracks_bytes (5, 0, 0) 0 [sample_track] ++ [x00; x00])))
                  eq_refl) 0%nat _ eq_refl).
Defined.

(** ** The parts of a beat *)

(** X16. A chord diagram starts with a format byte.  Format 0 is the old
    format: the name block, the first fret as an int and, when that is
    positive, six more ints.  Any other format byte is the new format,
    always 84 more bytes, whatever they are. *)
Theorem read_chord_layout :
  forall c s rest,
    chord_wf c ->
    remaining s = chord_bytes c ++ rest ->
    read_chord s = Ok tt (advance (List.length (chord_bytes c)) s) /\
    List.length (chord_bytes c) =
      match c with
      | ChordOld name first_fret frets =>
          (1 + List.length (block_bytes name) + 4
           + (if (0 <? word_val first_fret)%Z then 24 else 0))%nat
      | ChordNew _ _ => 85%nat
      end.
Proof.
  intros c s rest Hwf Hrem. split.
  - destruct (skips_read_chord (versionTuple s) (pos s) c Hwf s rest
                eq_refl eq_refl Hrem) as [[] H]. exact H.
  - destruct c as [name first_fret frets | format diagram];
      cbn [chord_bytes chord_wf] in *.
    + destruct Hwf as [_ H6]. cbn [List.length].
      rewrite !length_app, word_bytes_length.
      destruct (Z.ltb_spec 0 (word_val first_fret)); cbn [opt].
      * rewrite words_length, H6 by assumption. lia.
      * simpl. lia.
    + destruct Hwf as [_ H84]. cbn [List.length]. now rewrite H84.
Qed.

Lemma read_chord_layout_witness :
  read_chord (init (chord_bytes (ChordNew x01 (repeat xff 84)) ++ [x2a]))
    = Ok tt (advance 85 (init (chord_bytes (ChordNew x01 (repeat xff 84)) ++ [x2a])))
  /\ read_chord (init (chord_bytes blank_chord ++ [x2a]))
    = Ok tt (advance 10 (init (chord_bytes blank_chord ++ [x2a]))).
Proof.
  split.
  - refine (proj1 (read_chord_layout (ChordNew x01 (repeat xff 84))
                     (init (chord_bytes (ChordNew x01 (repeat xff 84)) ++ [x2a]))
                     [x2a] _ eq_refl)).
    split; [vm_compute; discriminate | reflexivity].
  - refine (proj1 (read_chord_layout blank_chord
                     (init (chord_bytes blank_chord ++ [x2a])) [x2a] _ eq_refl)).
    split; [intros H; reflexivity | intros H; vm_compute in H; discriminate H].
Defined.

(** X17. [read_mix_table] reads the instrument, three ints, the effect
    number (a short and a blank byte in (5, 0, 0), an int otherwise), the
    six signed levels, the tempo name block and the tempo; then one
    duration byte for every level that is not negative, in the order
    volume, balance, chorus, reverb, phaser, tremolo, and for a tempo that
    is not negative a duration byte and, from (5, 1, 0) on, the hide-tempo
    byte; then the flags byte, from (5, 1, 0) on the wah byte, and two
    blocks. *)
Theorem read_mix_table_layout :
  forall m s rest,
    mix_table_wf (versionTuple s) m ->
    remaining s = mix_table_bytes (versionTuple s) m ++ rest ->
    read_mix_table s =
      Ok tt (advance (List.length (mix_table_bytes (versionTuple s) m)) s).
Proof.
  intros m s rest Hwf Hrem.
  destruct (skips_read_mix_table (versionTuple s) (pos s) m Hwf s rest
              eq_refl eq_refl Hrem) as [[] H]. exact H.
Qed.

Lemma read_mix_table_layout_witness :
  mix_table_bytes (5, 0, 0) (blank_mix_table (5, 0, 0))
    = [xff; x00; x00; x00; x00; x00; x00; x00; x00; x00; x00; x00; x00;
       x00; x00; x00; xff; xff; xff; xff; xff; xff;
       x01; x00; x00; x00; x00; xff; xff; xff; xff; x00;
       x01; x00; x00; x00; x00; x01; x00; x00; x00; x00] /\
  read_mix_table (init (mix_table_bytes (5, 0, 0) (blank_mix_table (5, 0, 0)) ++ [x2a]))
    = Ok tt (advance 42
               (init (mix_table_bytes (5, 0, 0) (blank_mix_table (5, 0, 0)) ++ [x2a]))).
Proof.
  split; [reflexivity|].
  exact (read_mix_table_layout (blank_mix_table (5, 0, 0))
           (init (mix_table_bytes (5, 0, 0) (blank_mix_table (5, 0, 0)) ++ [x2a]))
           [x2a] (blank_mix_table_wf (5, 0, 0)) eq_refl).
Defined.

(** X18. [read_beat_effects] reads two flag bytes and then, in this order,
    the slap byte (flags1 0x20), the tremolo bar (flags2 0x04: type, value,
    point count and 9 bytes per point), two stroke bytes (flags1 0x40) and
    the pick stroke byte (flags2 0x02). *)
Theorem read_beat_effects_layout :
  forall e s rest,
    beat_effects_wf e ->
    remaining s = beat_effects_bytes e ++ rest ->
    read_beat_effects s = Ok tt (advance (List.length (beat_effects_bytes e)) s).
Proof.
  intros e s rest Hwf Hrem.
  destruct (skips_read_beat_effects (versionTuple s) (pos s) e Hwf s rest
              eq_refl eq_refl Hrem) as [[] H]. exact H.
Qed.

Lemma read_beat_effects_layout_witness :
  beat_effects_bytes sample_beat_effects
    = [x60; x06; x01;
       x06; x64; x00; x00; x00; x01; x00; x00; x00;
       x00; x00; x00; x00; x32; x00; x00; x00; x00;
       x02; x03; x01] /\
  read_beat_effects (init (beat_effects_bytes sample_beat_effects ++ [x2a]))
    = Ok tt (advance 24 (init (beat_effects_bytes sample_beat_effects ++ [x2a]))).
Proof.
  split; [reflexivity|].
  exact (read_beat_effects_layout sample_beat_effects
           (init (beat_effects_bytes sample_beat_effects ++ [x2a])) [x2a]
           (fun _ => eq_refl) eq_refl).
Defined.

(** X19. [read_note] reads the flags byte, then the type (0x20), the
    velocity (0x10), the fret (0x20 again), two fingering bytes (0x80), 8
    bytes of duration percent (0x01), the flags2 byte and the note effects
    (0x08).  The dict has the cursor at which the note starts, the flags,
    the fret (0 without bit 0x20), type and velocity when present, and
    flags2. *)
Theorem read_note_layout :
  forall n s rest,
    note_wf n ->
    remaining s = note_bytes n ++ rest ->
    read_note s = Ok (note_of n (pos s)) (advance (List.length (note_bytes n)) s).
Proof.
  intros n s rest Hwf Hrem.
  exact (consumes_read_note (versionTuple s) (pos s) n Hwf s rest
           eq_refl eq_refl Hrem).
Qed.

Lemma read_note_layout_witness :
  List.length (note_bytes sample_note) = 22%nat /\
  read_note (init (note_bytes sample_note ++ [x2a]))
    = Ok (mkNote 0 0xB9 12 (Some 2) (Some (-1)) 2 None)
        (advance 22 (init (note_bytes sample_note ++ [x2a]))).
Proof.
  split; [reflexivity|].
  refine (read_note_layout sample_note (init (note_bytes sample_note ++ [x2a]))
            [x2a] _ eq_refl).
  split; [reflexivity|]. intros _ H. vm_compute in H. discriminate H.
Defined.

(** X20. [read_beat] reads the flags byte, the status (0x40), the duration,
    the tuplet (0x20), the chord (0x02), the text (0x04), the beat effects
    (0x08), the mix table change (0x10), the string flags, one note for
    each of the bits 6 to 0 of the string flags, the flags2 short and one
    more byte when flags2 has bit 0x0800.  The dict has the start cursor,
    the fields read, and the notes with the string numbers 6 - bit. *)
Theorem read_beat_layout :
  forall b s rest,
    beat_wf (versionTuple s) b ->
    remaining s = beat_bytes (versionTuple s) b ++ rest ->
    read_beat s =
      Ok (beat_of (versionTuple s) b (pos s))
         (advance (List.length (beat_bytes (versionTuple s) b)) s).
Proof.
  intros b s rest Hwf Hrem.
  exact (consumes_read_beat (versionTuple s) (pos s) b Hwf s rest
           eq_refl eq_refl Hrem).
Qed.

Lemma sample_beat_wf : beat_wf (5, 0, 0) sample_beat.
Proof.
  unfold beat_wf. cbn [sample_beat bw_flags bw_chord bw_text bw_effects
                       bw_mix_table bw_notes bw_string_flags].
  split; [intros H; vm_compute in H; discriminate H|].
  split; [intros _; apply block_of_string_wf; simpl; lia|].
  split; [intros _ _; reflexivity|].
  split; [intros H; vm_compute in H; discriminate H|].
  split; [constructor | reflexivity].
Qed.

Lemma read_beat_layout_witness :
  List.length (beat_bytes (5, 0, 0) sample_beat) = 38%nat /\
  read_beat (init (beat_bytes (5, 0, 0) sample_beat ++ [x2a]))
    = Ok (mkBeat 0 0x4C [] (Some 2) (-2) None (Some "Hi"%string) 0 0x0800)
        (advance 38 (init (beat_bytes (5, 0, 0) sample_beat ++ [x2a]))).
Proof.
  split; [reflexivity|].
  exact (read_beat_layout sample_beat
           (init (beat_bytes (5, 0, 0) sample_beat ++ [x2a])) [x2a]
           sample_beat_wf eq_refl).
Defined.

(** ** What every decoded beat and measure satisfies *)

Lemma StronglySorted_map_filter {A B} (R : B -> B -> Prop) (f : A -> B)
    (p : A -> bool) l :
  StronglySorted R (map f l) -> StronglySorted R (map f (filter p l)).
Proof.
  induction l as [|x l IH]; intros H; [constructor|].
  cbn [map] in H. apply StronglySorted_inv in H as [Hs Hf].
  cbn [filter]. destruct (p x); [|now apply IH].
  cbn [map]. constructor; [now apply IH|].
  rewrite Forall_map in *. rewrite Forall_forall in *.
  intros y Hy. apply filter_In in Hy as [Hy _]. now apply Hf.
Qed.

(** X21. The notes of a decoded beat are on different strings: their string
    numbers lie between 0 and 6 and increase strictly in the order of the
    list, so a beat has at most 7 notes. *)
Theorem read_beat_strings :
  forall s b s',
    read_beat s = Ok b s' ->
    exists strings,
      map n_string (b_notes b) = map Some strings /\
      StronglySorted Z.lt strings /\
      Forall (fun z => 0 <= z <= 6) strings /\
      (List.length (b_notes b) <= 7)%nat.
Proof.
  intros s b s' H. apply read_beat_ok in H.
  destruct H as (_ & _ & _ & _ & _ & _ & _ & Hstr & _).
  exists (map (fun bit => 6 - bit) (set_bits string_range (b_stringFlags b))).
  split; [now rewrite Hstr, map_map|]. split; [|split].
  - unfold set_bits. apply StronglySorted_map_filter.
    repeat constructor; lia.
  - rewrite Forall_map, Forall_forall. intros z Hz.
    apply filter_In in Hz as [Hz _]. simpl in Hz. lia.
  - rewrite <- (length_map n_string), Hstr, length_map.
    unfold set_bits. etransitivity; [apply filter_length_le | apply le_n].
Qed.

Lemma read_beat_strings_witness :
  exists strings,
    map n_string [mkNote 3 0x30 5 (Some 1) (Some 6) 0 (Some 0);
                  mkNote 8 0x30 7 (Some 1) (Some 6) 0 (Some 4)]
      = map Some strings /\
    StronglySorted Z.lt strings /\
    Forall (fun z => 0 <= z <= 6) strings /\
    (2 <= 7)%nat.
Proof.
  exact (read_beat_strings
           (init [x00; x00; x44; x30; x01; x06; x05; x00;
                  x30; x01; x06; x07; x00; x00; x00])
           (mkBeat 0 0 [mkNote 3 0x30 5 (Some 1) (Some 6) 0 (Some 0);
                        mkNote 8 0x30 7 (Some 1) (Some 6) 0 (Some 4)]
              None 0 None None 0x44 0)
           (advance 15
              (init [x00; x00; x44; x30; x01; x06; x05; x00;
                     x30; x01; x06; x07; x00; x00; x00]))
           eq_refl).
Defined.

Lemma moves_weaken {A} n n' (m : M A) :
  moves n m -> (n' <= n)%nat -> moves n' m.
Proof.
  intros H Hn s a s' Hm. destruct (H s a s' Hm) as (k & Hk & ->).
  exists k. split; [lia | reflexivity].
Qed.

Lemma moves_ret {A} (a : A) : moves 0 (ret a).
Proof.
  intros s b s' H. inversion H; subst. exists 0%nat.
  split; [lia | now rewrite advance_0].
Qed.

Lemma moves_bind {A B} n1 n2 (m : M A) (k : A -> M B) :
  moves n1 m -> (forall a, moves n2 (k a)) -> moves (n1 + n2) (bind m k).
Proof.
  intros Hm Hk s b s' H. apply bind_ok in H as (a & s1 & H1 & H2).
  destruct (Hm _ _ _ H1) as (k1 & Hk1 & ->).
  destruct (Hk a _ _ _ H2) as (k2 & Hk2 & ->).
  exists (k1 + k2)%nat. split; [lia | now rewrite advance_advance].
Qed.

Lemma moves_read_byte : moves 1 read_byte.
Proof.
  intros s a s' H. apply read_byte_ok in H as [-> _].
  exists 1%nat. split; [lia | reflexivity].
Qed.

Lemma moves_read_unpack n : moves n (read_unpack n).
Proof.
  intros s a s' H. apply read_unpack_ok in H as [-> _].
  exists n. split; [lia | reflexivity].
Qed.

Lemma moves_skip n : moves n (skip n).
Proof.
  intros s a s' H. inversion H; subst. exists n. split; [lia | reflexivity].
Qed.

Lemma moves_peek n : moves 0 (peek n).
Proof.
  intros s a s' H. inversion H; subst. exists 0%nat.
  split; [lia | now rewrite advance_0].
Qed.

Lemma moves_get_pos : moves 0 get_pos.
Proof.
  intros s a s' H. inversion H; subst. exists 0%nat.
  split; [lia | now rewrite advance_0].
Qed.

Lemma moves_get_versionTuple : moves 0 get_versionTuple.
Proof.
  intros s a s' H. inversion H; subst. exists 0%nat.
  split; [lia | now rewrite advance_0].
Qed.

Lemma moves_when {A} n (c : bool) (m : M A) : moves n m -> moves 0 (when c m).
Proof.
  intros Hm. unfold when. destruct c; [|apply moves_ret].
  apply moves_weaken with (n := (n + 0)%nat); [|lia].
  apply moves_bind; [exact Hm | intros; apply moves_ret].
Qed.

Lemma moves_if {A} (c : bool) (m1 m2 : M A) :
  moves 0 m1 -> moves 0 m2 -> moves 0 (if c then m1 else m2).
Proof. now destruct c. Qed.

Lemma moves_repeatM {A} n (m : M A) k : moves n m -> moves 0 (repeatM k m).
Proof.
  intros Hm. induction k as [|k IH]; [apply moves_ret|].
  cbn [repeatM]. apply moves_weaken with (n := (n + (0 + 0))%nat); [|lia].
  apply moves_bind; [exact Hm | intros x].
  apply moves_bind; [exact IH | intros xs; apply moves_ret].
Qed.

(** The cursor moves by at least [n] for each item that a loop returns. *)
Lemma repeatM_moves {A} n (m : M A) :
  moves n m ->
  forall k s l s',
    repeatM k m s = Ok l s' ->
    exists j, (n * List.length l <= j)%nat /\ s' = advance j s.
Proof.
  intros Hm. induction k as [|k IH]; intros s l s' H.
  - inversion H; subst. exists 0%nat. split; [simpl; lia | now rewrite advance_0].
  - cbn [repeatM] in H.
    apply bind_ok in H as (x & s1 & Hx & H).
    apply bind_ok in H as (xs & s2 & Hxs & H).
    inversion H; subst; clear H.
    destruct (Hm _ _ _ Hx) as (k1 & Hk1 & ->).
    destruct (IH _ _ _ Hxs) as (k2 & Hk2 & ->).
    exists (k1 + k2)%nat. split; [cbn [List.length]; lia | now rewrite advance_advance].
Qed.

Ltac moves_step :=
  lazymatch goal with
  | |- moves _ (bind _ _) => eapply moves_bind; [moves_step | intros; moves_step]
  | |- moves _ (ret _) => apply moves_ret
  | |- moves _ read_byte => apply moves_read_byte
  | |- moves _ read_sbyte => apply moves_read_unpack
  | |- moves _ read_short => apply moves_read_unpack
  | |- moves _ read_int => apply moves_read_unpack
  | |- moves _ (skip _) => apply moves_skip
  | |- moves _ (peek _) => apply moves_peek
  | |- moves _ get_pos => apply moves_get_pos
  | |- moves _ get_versionTuple => apply moves_get_versionTuple
  | |- moves _ (when _ _) => eapply moves_when; moves_step
  | |- moves _ (repeatM _ _) => eapply moves_repeatM; moves_step
  | |- moves _ (if _ then _ else _) =>
      apply moves_if; (eapply moves_weaken; [moves_step | apply Nat.le_0_l])
  | |- moves _ _ => eapply moves_weaken; [solve [eauto] | apply Nat.le_0_l]
  end.

Lemma moves_read_bool : moves 1 read_bool.
Proof. unfold read_bool. eapply moves_weaken; [moves_step | simpl; lia]. Qed.

Lemma moves_read_byte_size_string size : moves 1 (read_byte_size_string size).
Proof.
  unfold read_byte_size_string. eapply moves_weaken; [moves_step | simpl; lia].
Qed.

Lemma moves_read_int_byte_size_string : moves 4 read_int_byte_size_string.
Proof.
  unfold read_int_byte_size_string.
  eapply moves_weaken; [moves_step | simpl; lia].
Qed.

Lemma moves_read_points : moves 9 read_points.
Proof. unfold read_points. eapply moves_weaken; [moves_step | simpl; lia]. Qed.

Lemma moves_read_note_effects : moves 2 read_note_effects.
Proof.
  pose proof moves_read_points.
  unfold read_note_effects. eapply moves_weaken; [moves_step | simpl; lia].
Qed.

Lemma moves_read_note : moves 2 read_note.
Proof.
  pose proof moves_read_note_effects.
  unfold read_note. eapply moves_weaken; [moves_step | simpl; lia].
Qed.

Lemma moves_read_notes ss string_flags : moves 0 (read_notes ss string_flags).
Proof.
  pose proof moves_read_note.
  induction ss as [|x ss IH]; cbn [read_notes]; [apply moves_ret|].
  apply moves_if; [|exact IH].
  eapply moves_weaken; [moves_step | apply Nat.le_0_l].
Qed.

Lemma moves_read_beat_effects : moves 2 read_beat_effects.
Proof.
  pose proof moves_read_points.
  unfold read_beat_effects. eapply moves_weaken; [moves_step | simpl; lia].
Qed.

Lemma moves_read_chord : moves 1 read_chord.
Proof.
  pose proof moves_read_int_byte_size_string.
  pose proof moves_read_bool. pose proof (moves_read_byte_size_string 21).
  unfold read_chord. eapply moves_weaken; [moves_step | simpl; lia].
Qed.

Lemma moves_read_mix_table : moves 13 read_mix_table.
Proof.
  pose proof moves_read_int_byte_size_string. pose proof moves_read_bool.
  unfold read_mix_table. eapply moves_weaken; [moves_step | simpl; lia].
Qed.

Lemma moves_read_beat : moves 5 read_beat.
Proof.
  pose proof moves_read_chord. pose proof moves_read_int_byte_size_string.
  pose proof moves_read_beat_effects. pose proof moves_read_mix_table.
  pose proof (moves_read_notes string_range).
  unfold read_beat. eapply moves_weaken; [moves_step | simpl; lia].
Qed.

Lemma read_voice_moves s beats s' :
  read_voice s = Ok beats s' ->
  exists k, (4 + 5 * List.length beats <= k)%nat /\ s' = advance k s.
Proof.
  unfold read_voice. intros H.
  apply bind_ok in H as (c & s1 & Hc & H).
  apply read_unpack_ok in Hc as [-> _].
  destruct ((c <? 0) || (128 <? c)).
  - inversion H; subst. exists 4%nat. split; [simpl; lia | reflexivity].
  - destruct (repeatM_moves 5 read_beat moves_read_beat _ _ _ _ H)
      as (j & Hj & ->).
    exists (4 + j)%nat. split; [lia | now rewrite advance_advance].
Qed.

(** X22. A measure that [read_measure] returns took at least 9 bytes and 5
    more for each of its beats, all of them inside the buffer; the reader
    object is otherwise unchanged: same buffer, same version.  So the
    beats of a measure are bounded by the bytes that are left. *)
Theorem read_measure_progress :
  forall s m s',
    read_measure s = Ok m s' ->
    data s' = data s /\
    version s' = version s /\
    versionTuple s' = versionTuple s /\
    (pos s + 9 + 5 * (List.length (fst m) + List.length (snd m)) <= pos s')%nat /\
    (pos s' <= List.length (data s))%nat.
Proof.
  intros s m s' H. unfold read_measure in H.
  apply bind_ok in H as (voice1 & s1 & H1 & H).
  apply bind_ok in H as (voice2 & s2 & H2 & H).
  apply bind_ok in H as (lb & s3 & H3 & H).
  inversion H; subst; clear H.
  apply read_voice_moves in H1 as (k1 & Hk1 & ->).
  apply read_voice_moves in H2 as (k2 & Hk2 & ->).
  unfold read_byte in H3.
  destruct (nth_error _ _) as [b|] eqn:E; [|discriminate].
  inversion H3; subst; clear H3.
  assert (Hlt : nth_error (data s) (pos s + k1 + k2) <> None)
    by (simpl in E; congruence).
  apply nth_error_Some in Hlt.
  cbn [fst snd advance data pos version versionTuple].
  repeat split; lia.
Qed.

Lemma read_measure_progress_witness :
  read_measure (init one_beat_measure)
    = Ok ([mkBeat 4 0 [] None 0 None None 0 0], [])
        (advance 14 (init one_beat_measure)) /\
  (0 + 9 + 5 * (1 + 0) <= 14)%nat /\
  (14 <= List.length one_beat_measure)%nat.
Proof.
  split; [reflexivity|].
  exact (proj2 (proj2 (proj2
           (read_measure_progress (init one_beat_measure)
              ([mkBeat 4 0 [] None 0 None None 0 0], [])
              (advance 14 (init one_beat_measure)) eq_refl)))).
Defined.

(** ** The whole file *)

(** X23. What [analyze] decodes has this shape, whatever the file: one
    header per measure that the file announces; at most 10 measures of
    notes, the first min(measures, 10); in each of them one entry per
    track; and every track with as many (empty) measures as there are
    headers. *)
Theorem analyze_shape :
  forall s a s',
    analyze s = Ok a s' ->
    List.length (a_measures a) = Nat.min (List.length (a_headers a)) 10 /\
    Forall (fun row => List.length row = List.length (a_tracks a)) (a_measures a) /\
    Forall (fun t => List.length (t_measures t) = List.length (a_headers a))
      (a_tracks a).
Proof.
  intros s a s' H. unfold analyze in H.
  apply bind_ok in H as (version & s1 & _ & H).
  apply bind_ok in H as (info & s2 & _ & H).
  apply bind_ok in H as (? & s3 & _ & H).
  apply bind_ok in H as (? & s4 & _ & H).
  apply bind_ok in H as (? & s5 & _ & H).
  apply bind_ok in H as (tempo & s6 & _ & H).
  apply bind_ok in H as (? & s7 & _ & H).
  apply bind_ok in H as (? & s8 & _ & H).
  apply bind_ok in H as (? & s9 & _ & H).
  apply bind_ok in H as (? & s10 & _ & H).
  apply bind_ok in H as (? & s11 & _ & H).
  apply bind_ok in H as (measure_count & s12 & _ & H).
  apply bind_ok in H as (track_count & s13 & _ & H).
  apply bind_ok in H as (headers & s14 & Hh & H).
  apply bind_ok in H as (tracks & s15 & Ht & H).
  apply bind_ok in H as (measures & s16 & Hm & H).
  inversion H; subst; clear H.
  cbn [a_measures a_headers a_tracks].
  unfold read_measure_headers in Hh.
  destruct (forM_shape (fun _ _ => True) read_measure_header
              (fun _ _ _ _ _ => I) _ _ _ _ _ Hh) as [Hlh _].
  unfold read_tracks in Ht.
  apply bind_ok in Ht as (ts & q1 & Hts & Ht).
  apply bind_ok in Ht as (v & q2 & _ & Ht).
  apply bind_ok in Ht as (u & q3 & _ & Ht).
  inversion Ht; subst; clear Ht.
  destruct (forM_shape (fun _ t => List.length (t_measures t)
                                   = Z.to_nat measure_count)
              (read_track measure_count)
              (fun i q t q' Hq => proj2 (proj2 (proj2 (proj2 (proj2 (proj2 (proj2
                 (read_track_ok measure_count i q t q' Hq))))))))
              _ _ _ _ _ Hts) as [Hlt Hnt].
  split; [|split].
  - rewrite (repeatM_length _ _ _ _ _ Hm), Hlh. lia.
  - rewrite Hlt.
    apply (repeatM_Forall _ (repeatM (Z.to_nat track_count) read_measure))
      with (n := Z.to_nat (Z.min measure_count 10)) (s := s15) (s' := s');
      [|exact Hm].
    intros q row q' Hrow. exact (repeatM_length _ _ _ _ _ Hrow).
  - rewrite Hlh. apply Forall_forall. intros t Hin.
    apply In_nth_error in Hin as [k Hk]. exact (Hnt k t Hk).
Qed.

Lemma analyze_split s : analyze s = bind analyze_header analyze_body s.
Proof.
  unfold analyze, analyze_header, analyze_body, bind.
  destruct (read_version s) as [version s1|]; [|reflexivity].
  destruct (read_info s1) as [info s2|]; [|reflexivity].
  destruct (read_lyrics s2) as [? s3|]; [|reflexivity].
  destruct (read_rse_master_effect s3) as [? s4|]; [|reflexivity].
  destruct (read_page_setup s4) as [? s5|]; [|reflexivity].
  destruct (read_tempo s5) as [tempo s6|]; [|reflexivity].
  destruct (read_sbyte s6) as [? s7|]; [|reflexivity].
  destruct (read_int s7) as [? s8|]; [|reflexivity].
  destruct (read_midi_channels s8) as [? s9|]; [|reflexivity].
  destruct (read_directions s9) as [? s10|]; [|reflexivity].
  destruct (read_int s10) as [? s11|]; [|reflexivity].
  reflexivity.
Qed.

Lemma analyze_header_written n :
  analyze_header (init (create_gp5_with_notes n)) =
    Ok ("FICHIER GUITAR PRO v5.00"%string,
        ("Test Song with Notes"%string, "Test Artist"%string),
        (EmptyString, 120))
       (mkAnalyzer (create_gp5_with_notes n) 1253
          (Some "FICHIER GUITAR PRO v5.00"%string) (5, 0, 0)).
Proof.
  unfold create_gp5_with_notes.
  match goal with |- context [write_int 0 ++ write_int (Z.of_nat n) ++ ?t] =>
    generalize (write_int (Z.of_nat n) ++ t) end.
  intros tail. vm_compute. reflexivity.
Qed.

Lemma written_headers_bytes (f : nat -> list byte) :
  (forall m, f m = header_bytes m (written_header m)) ->
  forall n i,
    flat_map f (seq i n) = headers_bytes i (map written_header (seq i n)).
Proof.
  intros Hf. induction n as [|n IH]; intros i; [reflexivity|].
  cbn [seq flat_map map headers_bytes]. now rewrite Hf, IH.
Qed.

Lemma written_remaining n :
  skipn 1253 (create_gp5_with_notes n) =
    write_int (Z.of_nat n) ++ write_int 1
    ++ headers_bytes 0 (map written_header (seq 0 n))
    ++ (tracks_bytes (5, 0, 0) 0 [sample_track] ++ [x00; x00])
    ++ flat_map written_measure (seq 0 n).
Proof.
  unfold create_gp5_with_notes.
  match goal with
  | |- context [write_int 1 ++ flat_map ?f (seq 0 n) ++ _] =>
      rewrite (written_headers_bytes f) by (intros [|m]; reflexivity)
  end.
  match goal with
  | |- context [write_byte 0 ++ write_byte 0 ++ flat_map ?f (seq 0 n)] =>
      rewrite (flat_map_ext f written_measure)
        by (intros m; vm_compute; reflexivity)
  end.
  generalize (write_int (Z.of_nat n))
             (headers_bytes 0 (map written_header (seq 0 n)))
             (flat_map written_measure (seq 0 n)).
  intros w hs ms. vm_compute. reflexivity.
Qed.

Lemma consumes_read_voice v p w inp l :
  0 <= word_val w <= 128 ->
  consumes v (p + 4) (repeatM (Z.to_nat (word_val w)) read_beat) inp l ->
  consumes v p read_voice (word_bytes w ++ inp) l.
Proof.
  intros Hw H. unfold read_voice.
  eapply consumes_bind; [apply consumes_read_word|].
  rewrite word_bytes_length.
  replace ((word_val w <? 0) || (128 <? word_val w)) with false; [exact H|].
  symmetry. apply orb_false_iff. split; [apply Z.ltb_ge | apply Z.ltb_ge]; lia.
Qed.

Lemma written_fret_range m beat_num : 1 <= written_fret m beat_num <= 12.
Proof.
  unfold written_fret.
  pose proof (Nat.mod_upper_bound (m * 4 + beat_num) 12 ltac:(lia)). lia.
Qed.

Lemma written_quarter_found m beat_num p :
  In beat_num (seq 0 4) ->
  exists b,
    consumes (5, 0, 0) p read_beat (beat_bytes (5, 0, 0) (written_quarter m beat_num)) b /\
    map (fun n => (n_string n, n_fret n, n_velocity n)) (b_notes b)
      = quarter (Z.of_nat beat_num) (written_fret m beat_num).
Proof.
  intros Hin. exists (beat_of (5, 0, 0) (written_quarter m beat_num) p).
  pose proof (written_fret_range m beat_num) as Hf.
  assert (Hs : sbyte_val (byte_of_Z (written_fret m beat_num))
               = written_fret m beat_num)
    by (apply sbyte_val_write; unfold is_sbyte; lia).
  split.
  - apply consumes_read_beat.
    unfold written_quarter, written_beat, beat_wf.
    cbn [bw_flags bw_chord bw_text bw_effects bw_mix_table bw_notes
         bw_string_flags].
    split; [intros H; vm_compute in H; discriminate H|].
    split; [intros H; vm_compute in H; discriminate H|].
    split; [intros H; vm_compute in H; discriminate H|].
    split; [intros H; vm_compute in H; discriminate H|].
    split.
    + constructor; [|constructor]. split; intros H; vm_compute in H; discriminate H.
    + simpl in Hin. destruct Hin as [<-|[<-|[<-|[<-|[]]]]]; reflexivity.
  - unfold written_quarter, written_beat, beat_of, quarter.
    cbn [bw_flags bw_notes bw_string_flags b_notes].
    fold (written_fret m beat_num).
    set (fret_byte := byte_of_Z (written_fret m beat_num)) in *.
    clearbody fret_byte. simpl in Hin.
    destruct Hin as [<-|[<-|[<-|[<-|[]]]]];
      cbn -[written_fret sbyte_val]; rewrite Hs; reflexivity.
Qed.

Lemma written_measure_found m p :
  exists row,
    consumes (5, 0, 0) p (repeatM 1 read_measure) (written_measure m) row /\
    row_found row = written_notes m.
Proof.
  destruct (consumes_repeatM_music (5, 0, 0)
              (fun beat_num => beat_bytes (5, 0, 0) (written_quarter m beat_num))
              (fun b => map (fun n => (n_string n, n_fret n, n_velocity n))
                            (b_notes b))
              (fun beat_num => quarter (Z.of_nat beat_num) (written_fret m beat_num))
              read_beat (seq 0 4)
              (fun x Hx q => written_quarter_found m x q Hx) (p + 4)%nat)
    as (voice1 & Hv1 & Hfound).
  exists [(voice1, [])]. split.
  - cbn [repeatM].
    eapply consumes_bind_nil_r;
      [|eapply consumes_nil_bind; apply consumes_ret].
    unfold read_measure, written_measure.
    rewrite app_assoc.
    eapply consumes_bind.
    { apply (consumes_read_voice (5, 0, 0) p (x04, x00, x00, x00));
        [vm_compute; split; discriminate | exact Hv1]. }
    eapply consumes_bind.
    { rewrite <- (app_nil_r (write_int 0)).
      apply (consumes_read_voice (5, 0, 0) _ no_word);
        [vm_compute; split; discriminate | apply consumes_ret]. }
    apply consumes_cons_byte. apply consumes_ret.
  - unfold row_found, written_notes. cbn [map List.length]. now rewrite Hfound.
Qed.

Lemma headers_of_length hs : forall i, List.length (headers_of i hs) = List.length hs.
Proof. induction hs as [|h hs IH]; intros i; cbn; [reflexivity | now rewrite IH]. Qed.

Lemma written_headers_wf n i : Forall header_wf (map written_header (seq i n)).
Proof.
  apply Forall_forall. intros h Hin. apply in_map_iff in Hin as (m & <- & _).
  unfold written_header. destruct (m =? 0)%nat; intros H; vm_compute in H;
    discriminate H.
Qed.

Lemma analyze_body_written n version title artist name tempo p :
  Z.of_nat n <= 2147483647 ->
  exists a,
    consumes (5, 0, 0) p
      (analyze_body (version, (title, artist), (name, tempo)))
      (write_int (Z.of_nat n) ++ write_int 1
       ++ headers_bytes 0 (map written_header (seq 0 n))
       ++ (tracks_bytes (5, 0, 0) 0 [sample_track] ++ [x00; x00])
       ++ flat_map written_measure (seq 0 (Nat.min n 10)))
      a /\
    a_version a = version /\ a_title a = title /\ a_artist a = artist /\
    a_tempo a = tempo /\
    List.length (a_headers a) = n /\
    map t_name (a_tracks a) = ["Track 1"%string] /\
    notes_found a = map written_notes (seq 0 (Nat.min n 10)).
Proof.
  intros Hn.
  set (track_part := tracks_bytes (5, 0, 0) 0 [sample_track] ++ [x00; x00]).
  set (q := (p + 4 + 4
             + List.length (headers_bytes 0 (map written_header (seq 0 n)))
             + List.length track_part)%nat).
  destruct (consumes_repeatM_music (5, 0, 0) written_measure row_found
              written_notes (repeatM 1 read_measure) (seq 0 (Nat.min n 10))
              (fun m _ r => written_measure_found m r) q)
    as (measures & Hms & Hfound).
  rewrite length_seq in Hms.
  exists (mkAnalysis version title artist tempo
            (headers_of 0 (map written_header (seq 0 n)))
            (tracks_of (Z.of_nat n) 0 [sample_track]) measures).
  split.
  - unfold analyze_body.
    rewrite <- word_bytes_of_Z.
    eapply consumes_bind; [apply consumes_read_word|].
    rewrite word_val_of_Z by (unfold is_int; lia).
    eapply (consumes_bind _ _ _ _ (word_bytes (x01, x00, x00, x00)));
      [apply consumes_read_word|].
    change (word_val (x01, x00, x00, x00)) with 1.
    eapply consumes_bind.
    { unfold read_measure_headers.
      replace (Z.to_nat (Z.of_nat n))
        with (List.length (map written_header (seq 0 n)))
        by (rewrite length_map, length_seq; lia).
      apply consumes_forM_headers, written_headers_wf. }
    eapply consumes_bind.
    { unfold read_tracks.
      eapply consumes_bind.
      { apply (consumes_forM_tracks (5, 0, 0) (Z.of_nat n) [sample_track]).
        constructor; [apply sample_track_wf | constructor]. }
      eapply consumes_nil_bind; [apply consumes_get_versionTuple|].
      cbn [tuple_eqb Z.eqb andb Pos.eqb].
      apply (consumes_bind _ _ (skip 2) _ [x00; x00] [] tt);
        [now apply consumes_skip | apply consumes_ret]. }
    rewrite <- (app_nil_r (flat_map written_measure _)).
    eapply consumes_bind; [|apply consumes_ret].
    replace (Z.to_nat (Z.min (Z.of_nat n) 10)) with (Nat.min n 10) by lia.
    change (Z.to_nat 1) with 1%nat.
    rewrite !word_bytes_length.
    eapply consumes_at; [|exact Hms].
    unfold q, track_part. rewrite !length_app. cbn [List.length]. lia.
  - cbn [a_version a_title a_artist a_tempo a_headers a_tracks a_measures].
    repeat (split; [reflexivity|]).
    split.
    + now rewrite headers_of_length, length_map, length_seq.
    + split; [reflexivity|]. exact Hfound.
Qed.

Lemma written_measures_length l :
  List.length (flat_map written_measure l) = (49 * List.length l)%nat.
Proof.
  induction l as [|m l IH]; [reflexivity|].
  cbn [flat_map List.length]. rewrite length_app, IH.
  replace (List.length (written_measure m)) with 49%nat
    by (vm_compute; reflexivity).
  lia.
Qed.

(** X24. For every number of measures that fits an int, [analyze] decodes
    the file that [create_gp5_with_notes] writes without an error: version
    (5, 0, 0), title, artist and tempo as written, one header per measure,
    the one track, and in each of the first min(n, 10) measures the four
    quarter notes of the script, beat b on string b with fret
    (4 m + b) mod 12 + 1 and velocity 6, and an empty second voice.  The
    cursor stops behind measure 10, at the end of the file when there are
    no more than 10 measures. *)
Theorem analyze_create_gp5_with_notes_any :
  forall n,
    Z.of_nat n <= 2147483647 ->
    exists a s',
      analyze (init (create_gp5_with_notes n)) = Ok a s' /\
      pos s' = (List.length (create_gp5_with_notes n) - 49 * (n - 10))%nat /\
      versionTuple s' = (5, 0, 0) /\
      a_version a = "FICHIER GUITAR PRO v5.00"%string /\
      a_title a = "Test Song with Notes"%string /\
      a_artist a = "Test Artist"%string /\
      a_tempo a = 120 /\
      List.length (a_headers a) = n /\
      map t_name (a_tracks a) = ["Track 1"%string] /\
      notes_found a = map written_notes (seq 0 (Nat.min n 10)).
Proof.
  intros n Hn.
  destruct (analyze_body_written n "FICHIER GUITAR PRO v5.00"
              "Test Song with Notes" "Test Artist" EmptyString 120 1253 Hn)
    as (a & Hc & Hv & Ht & Ha & Htempo & Hh & Htr & Hnotes).
  set (s1 := mkAnalyzer (create_gp5_with_notes n) 1253
               (Some "FICHIER GUITAR PRO v5.00"%string) (5, 0, 0)).
  set (rest := flat_map written_measure (seq (Nat.min n 10) (n - Nat.min n 10))).
  assert (Hrem : remaining s1 =
            (write_int (Z.of_nat n) ++ write_int 1
             ++ headers_bytes 0 (map written_header (seq 0 n))
             ++ (tracks_bytes (5, 0, 0) 0 [sample_track] ++ [x00; x00])
             ++ flat_map written_measure (seq 0 (Nat.min n 10))) ++ rest).
  { unfold remaining, s1, rest. cbn [pos data]. rewrite written_remaining.
    replace n with (Nat.min n 10 + (n - Nat.min n 10))%nat at 3 by lia.
    rewrite seq_app, flat_map_app. cbn [Nat.add].
    now rewrite <- !app_assoc. }
  specialize (Hc s1 rest eq_refl eq_refl Hrem).
  match type of Hc with _ = Ok _ ?s' => exists a, s' end.
  split; [|split; [|split; [reflexivity|]]].
  - rewrite analyze_split. unfold bind. rewrite analyze_header_written. exact Hc.
  - cbn [advance pos s1].
    assert (Hlen : List.length (remaining s1)
                   = (List.length (create_gp5_with_notes n) - 1253)%nat)
      by (unfold remaining, s1; cbn [pos data]; apply length_skipn).
    rewrite Hrem in Hlen. rewrite length_app in Hlen. unfold rest in Hlen.
    rewrite written_measures_length, length_seq in Hlen.
    rewrite !length_app in *. unfold write_int in *.
    rewrite !pack_length in *. lia.
  - repeat (split; [assumption|]). assumption.
Qed.

Lemma analyze_create_gp5_with_notes_any_witness :
  exists a s',
    analyze (init (create_gp5_with_notes 12)) = Ok a s' /\
    pos s' = (List.length (create_gp5_with_notes 12) - 49 * (12 - 10))%nat /\
    versionTuple s' = (5, 0, 0) /\
    a_version a = "FICHIER GUITAR PRO v5.00"%string /\
    a_title a = "Test Song with Notes"%string /\
    a_artist a = "Test Artist"%string /\
    a_tempo a = 120 /\
    List.length (a_headers a) = 12%nat /\
    map t_name (a_tracks a) = ["Track 1"%string] /\
    notes_found a = map written_notes (seq 0 (Nat.min 12 10)).
Proof.
  apply (analyze_create_gp5_with_notes_any 12). lia.
Defined.

Lemma analyze_shape_witness :
  exists a s',
    analyze (init (create_gp5_with_notes 12)) = Ok a s' /\
    List.length (a_headers a) = 12%nat /\
    List.length (a_measures a) = Nat.min (List.length (a_headers a)) 10 /\
    Forall (fun row => List.length row = List.length (a_tracks a)) (a_measures a) /\
    Forall (fun t => List.length (t_measures t) = List.length (a_headers a))
      (a_tracks a).
Proof.
  destruct (analyze (init (create_gp5_with_notes 12))) as [a s'|e] eqn:E.
  - exists a, s'. split; [reflexivity|]. split.
    + vm_compute in E. injection E as <- _. reflexivity.
    + exact (analyze_shape (init (create_gp5_with_notes 12)) a s' E).
  - vm_compute in E. discriminate E.
Defined.

(** ** Measures *)

Lemma consumes_beats v bs :
  Forall (beat_wf v) bs ->
  forall p,
    consumes v p (repeatM (List.length bs) read_beat)
      (flat_map (beat_bytes v) bs) (beats_of v bs p).
Proof.
  induction 1 as [|b bs Hb Hbs IH]; intros p.
  - apply consumes_ret.
  - cbn [List.length repeatM flat_map beats_of].
    eapply consumes_bind; [now apply consumes_read_beat|].
    rewrite <- (app_nil_r (flat_map _ _)).
    eapply consumes_bind; [apply IH | apply consumes_ret].
Qed.

Lemma consumes_voice v p vo :
  voice_wf v vo ->
  consumes v p read_voice (voice_bytes v vo) (beats_of v (vw_beats vo) (p + 4)).
Proof.
  intros (Hc & Hn & Hwf). unfold voice_bytes.
  apply consumes_read_voice; [exact Hc|].
  rewrite <- Hn. now apply consumes_beats.
Qed.

(** X25. [read_measure] reads the two voices of a measure, each the beat
    count and that many beats one after the other, and the line-break
    byte; it returns the beats of the two voices, each with the cursor at
    which it starts. *)
Theorem read_measure_layout :
  forall voice1 voice2 line_break s rest,
    voice_wf (versionTuple s) voice1 ->
    voice_wf (versionTuple s) voice2 ->
    remaining s =
      measure_bytes (versionTuple s) voice1 voice2 line_break ++ rest ->
    read_measure s =
      Ok (beats_of (versionTuple s) (vw_beats voice1) (pos s + 4),
          beats_of (versionTuple s) (vw_beats voice2)
            (pos s + List.length (voice_bytes (versionTuple s) voice1) + 4))
         (advance
            (List.length (measure_bytes (versionTuple s) voice1 voice2 line_break))
            s).
Proof.
  intros voice1 voice2 line_break s rest H1 H2 Hrem.
  assert (H : consumes (versionTuple s) (pos s) read_measure
                (measure_bytes (versionTuple s) voice1 voice2 line_break)
                (beats_of (versionTuple s) (vw_beats voice1) (pos s + 4),
                 beats_of (versionTuple s) (vw_beats voice2)
                   (pos s + List.length (voice_bytes (versionTuple s) voice1) + 4))).
  { unfold read_measure, measure_bytes.
    eapply consumes_bind; [now apply consumes_voice|].
    eapply consumes_bind; [now apply consumes_voice|].
    apply consumes_cons_byte. apply consumes_ret. }
  exact (H s rest eq_refl eq_refl Hrem).
Qed.

Lemma read_measure_layout_witness :
  read_measure (init (measure_bytes (5, 0, 0) sample_voice no_voice x00 ++ [x2a]))
    = Ok ([mkBeat 4 0x4C [] (Some 2) (-2) None (Some "Hi"%string) 0 0x0800], [])
        (advance 47
           (init (measure_bytes (5, 0, 0) sample_voice no_voice x00 ++ [x2a]))).
Proof.
  refine (read_measure_layout sample_voice no_voice x00
            (init (measure_bytes (5, 0, 0) sample_voice no_voice x00 ++ [x2a]))
            [x2a] _ _ eq_refl).
  - split; [vm_compute; split; discriminate|].
    split; [reflexivity|]. constructor; [apply sample_beat_wf | constructor].
  - split; [vm_compute; split; discriminate|].
    split; [reflexivity | constructor].
Defined.

(** ** The other readers of the repository *)

Lemma struct_unpack_from_slice size buf offset :
  (0 < size)%nat ->
  GP5Reader.struct_unpack_from size buf offset
    = struct_unpack size (slice buf offset (offset + size)).
Proof.
  intros Hsize. unfold GP5Reader.struct_unpack_from, struct_unpack, slice.
  replace (offset + size - offset)%nat with size by lia.
  rewrite length_firstn, length_skipn.
  destruct (Nat.leb_spec (offset + size) (List.length buf));
    destruct (Nat.eqb_spec (Nat.min size (List.length buf - offset)) size);
    try reflexivity; lia.
Qed.

Lemma gp5reader_read_unpack size s :
  (0 < size)%nat ->
  GP5Reader.read_unpack_from size s = read_unpack size s.
Proof.
  intros Hsize. unfold GP5Reader.read_unpack_from, read_unpack.
  now rewrite struct_unpack_from_slice.
Qed.

(** X26. The scalar readers of [GP5Reader], which unpack from the buffer
    at the cursor, and its int-size string reader behave on every reader
    object exactly as those of [GP5Analyzer], which unpack a slice: the
    same value and cursor, or the same exception. *)
Theorem gp5reader_scalars_agree :
  forall s,
    GP5Reader.read_byte s = read_byte s /\
    GP5Reader.read_sbyte s = read_sbyte s /\
    GP5Reader.read_short s = read_short s /\
    GP5Reader.read_int s = read_int s /\
    GP5Reader.read_bool s = read_bool s /\
    GP5Reader.read_int_size_string s = read_int_size_string s.
Proof.
  intros s. repeat split; try reflexivity;
    try (apply gp5reader_read_unpack; lia).
  unfold GP5Reader.read_int_size_string, read_int_size_string, bind.
  unfold GP5Reader.read_int. rewrite gp5reader_read_unpack by lia.
  fold read_int. destruct (read_int s) as [len s1|e]; [|reflexivity].
  destruct (len <=? 0); [reflexivity|].
  unfold GP5Reader.read_bytes, peek, skip, ret. reflexivity.
Qed.

(** X27. On a fixed-size string field the two readers leave the cursor at
    the same place, behind the field, but [GP5Reader] cuts the string at
    the field size while [GP5Analyzer] returns as many bytes as the length
    byte says, also from behind the field; they return the same string
    when the length byte is within the field size. *)
Theorem gp5reader_byte_size_string :
  forall size s L tail,
    remaining s = L :: tail ->
    GP5Reader.read_byte_size_string size s =
      Ok (decode_latin1 (firstn (Nat.min (Z.to_nat (byte_val L)) size) tail))
         (advance (1 + size) s) /\
    read_byte_size_string size s =
      Ok (decode_latin1 (firstn (Z.to_nat (byte_val L)) tail))
         (advance (1 + size) s) /\
    ((Z.to_nat (byte_val L) <= size)%nat ->
       GP5Reader.read_byte_size_string size s = read_byte_size_string size s).
Proof.
  intros size s L tail Hrem.
  assert (H1 : GP5Reader.read_byte_size_string size s =
      Ok (decode_latin1 (firstn (Nat.min (Z.to_nat (byte_val L)) size) tail))
         (advance (1 + size) s)).
  { unfold GP5Reader.read_byte_size_string, bind.
    change (GP5Reader.read_byte s) with (read_byte s).
    rewrite (read_byte_remaining s L tail Hrem).
    unfold GP5Reader.read_bytes, ret.
    rewrite slice_remaining, (remaining_advance_cons L tail s Hrem).
    now rewrite firstn_firstn, advance_advance. }
  split; [exact H1|].
  split; [exact (read_byte_size_string_remaining size s L tail Hrem)|].
  intros Hle. rewrite H1, (read_byte_size_string_remaining size s L tail Hrem).
  now rewrite Nat.min_l.
Qed.

Lemma gp5reader_byte_size_string_witness :
  GP5Reader.read_byte_size_string 2 (init [x03; x41; x42; x43; x44])
    = Ok "AB"%string (advance 3 (init [x03; x41; x42; x43; x44])) /\
  read_byte_size_string 2 (init [x03; x41; x42; x43; x44])
    = Ok "ABC"%string (advance 3 (init [x03; x41; x42; x43; x44])).
Proof.
  pose proof (gp5reader_byte_size_string 2 (init [x03; x41; x42; x43; x44])
                x03 [x41; x42; x43; x44] eq_refl) as H.
  exact (conj (proj1 H) (proj1 (proj2 H))).
Defined.

(** X28. On an int-byte-size block of positive size S both readers move the
    cursor by 4 + S; [GP5Reader] cuts the string at the S - 1 content
    bytes, [GP5Analyzer] does not, so they return the same string when the
    length byte is at most S - 1.  On a block of size S <= 0
    [GP5Analyzer] stops behind the 4 bytes of the size, while [GP5Reader]
    reads one more byte as the length, or raises IndexError when no byte
    is left: from there on the two cursors differ by one. *)
Theorem gp5reader_int_byte_size_string :
  forall s w tail,
    remaining s = word_bytes w ++ tail ->
    (word_val w <= 0 ->
       read_int_byte_size_string s = Ok EmptyString (advance 4 s) /\
       match tail with
       | [] => GP5Reader.read_int_byte_size_string s = Raise IndexError
       | _ :: _ =>
           GP5Reader.read_int_byte_size_string s = Ok EmptyString (advance 5 s)
       end) /\
    (0 < word_val w ->
       forall L content, tail = L :: content ->
         read_int_byte_size_string s =
           Ok (decode_latin1 (firstn (Z.to_nat (byte_val L)) content))
              (advance (4 + Z.to_nat (word_val w)) s) /\
         GP5Reader.read_int_byte_size_string s =
           Ok (decode_latin1
                 (firstn (Nat.min (Z.to_nat (byte_val L))
                                  (Z.to_nat (word_val w - 1))) content))
              (advance (4 + Z.to_nat (word_val w)) s)).
Proof.
  intros s [[[b0 b1] b2] b3] tail Hrem. cbn [word_bytes app] in Hrem.
  assert (Hint : GP5Reader.read_int s
                 = Ok (word_val (b0, b1, b2, b3)) (advance 4 s)).
  { unfold GP5Reader.read_int. rewrite gp5reader_read_unpack by lia.
    exact (read_int_remaining s b0 b1 b2 b3 tail Hrem). }
  assert (Hr4 : remaining (advance 4 s) = tail)
    by (apply (remaining_advance_app [b0; b1; b2; b3]); exact Hrem).
  split.
  - intros HS. split.
    + exact (read_int_byte_size_string_empty s b0 b1 b2 b3 tail Hrem HS).
    + unfold GP5Reader.read_int_byte_size_string, bind. rewrite Hint.
      change (GP5Reader.read_byte (advance 4 s)) with (read_byte (advance 4 s)).
      destruct tail as [|L content].
      * now rewrite (read_byte_end _ Hr4).
      * rewrite (read_byte_remaining _ L content Hr4).
        replace (0 <? word_val (b0, b1, b2, b3)) with false
          by (symmetry; apply Z.ltb_ge; exact HS).
        unfold ret. rewrite firstn_nil, advance_advance. reflexivity.
  - intros HS L content ->. split.
    + exact (read_int_byte_size_string_run s b0 b1 b2 b3 L content Hrem HS).
    + unfold GP5Reader.read_int_byte_size_string, bind. rewrite Hint.
      change (GP5Reader.read_byte (advance 4 s)) with (read_byte (advance 4 s)).
      rewrite (read_byte_remaining _ L content Hr4).
      replace (0 <? word_val (b0, b1, b2, b3)) with true
        by (symmetry; apply Z.ltb_lt; exact HS).
      unfold GP5Reader.read_bytes, ret.
      rewrite slice_remaining, (remaining_advance_cons L content _ Hr4).
      rewrite firstn_firstn, !advance_advance. do 2 f_equal. lia.
Qed.

Lemma gp5reader_int_byte_size_string_witness :
  read_int_byte_size_string (init [x00; x00; x00; x00; x07; x08])
    = Ok EmptyString (advance 4 (init [x00; x00; x00; x00; x07; x08])) /\
  GP5Reader.read_int_byte_size_string (init [x00; x00; x00; x00; x07; x08])
    = Ok EmptyString (advance 5 (init [x00; x00; x00; x00; x07; x08])).
Proof.
  exact (proj1 (gp5reader_int_byte_size_string
                  (init [x00; x00; x00; x00; x07; x08]) no_word [x07; x08]
                  eq_refl)
           ltac:(vm_compute; discriminate)).
Defined.

(** X29. [read_int_byte_string] of [test_gp5_writer.py] reads the size as
    an unsigned int and always reads the length byte.  On a block whose
    size S is positive as a signed int it returns the string and the next
    position of [GP5Analyzer.read_int_byte_size_string]; on a block of
    size 0 both end 4 bytes on, but [read_int_byte_string] returns the
    bytes behind the size, as many as the byte at the new position says,
    where [GP5Analyzer] returns the empty string. *)
Theorem test_writer_int_byte_string :
  forall s w L content,
    remaining s = word_bytes w ++ L :: content ->
    (0 < word_val w ->
       read_int_byte_size_string s =
         Ok (decode_latin1 (firstn (Z.to_nat (byte_val L)) content))
            (advance (4 + Z.to_nat (word_val w)) s) /\
       TestWriter.read_int_byte_string (data s) (pos s) =
         inr (decode_latin1 (firstn (Z.to_nat (byte_val L)) content),
              (pos s + 4 + Z.to_nat (word_val w))%nat)) /\
    (word_val w = 0 ->
       read_int_byte_size_string s = Ok EmptyString (advance 4 s) /\
       TestWriter.read_int_byte_string (data s) (pos s) =
         inr (decode_latin1 (firstn (Z.to_nat (byte_val L)) content),
              (pos s + 4)%nat)).
Proof.
  intros s [[[b0 b1] b2] b3] L content Hrem. cbn [word_bytes app] in Hrem.
  set (u := le_unsigned [b0; b1; b2; b3]).
  assert (Hu : 0 <= u < 2 ^ 32) by apply (le_unsigned_range [b0; b1; b2; b3]).
  assert (Hw : word_val (b0, b1, b2, b3) = to_signed 32 u) by reflexivity.
  assert (Hint : TestWriter.read_int (data s) (pos s)
                 = inr (u, (pos s + 4)%nat)).
  { unfold TestWriter.read_int. rewrite slice_remaining, Hrem. reflexivity. }
  assert (Hr4 : remaining (advance 4 s) = L :: content)
    by (apply (remaining_advance_app [b0; b1; b2; b3]); exact Hrem).
  assert (Hbyte : TestWriter.read_byte (data s) (pos s + 4)
                  = inr (byte_val L, (pos s + 4 + 1)%nat)).
  { unfold TestWriter.read_byte.
    change (nth_error (data s) (pos s + 4))
      with (nth_error (data (advance 4 s)) (pos (advance 4 s))).
    now rewrite nth_error_remaining, Hr4. }
  assert (Hslice : forall n,
             slice (data s) (pos s + 4 + 1) (pos s + 4 + 1 + n) = firstn n content).
  { intros n.
    change (slice (data s) (pos s + 4 + 1) (pos s + 4 + 1 + n))
      with (slice (data (advance 1 (advance 4 s))) (pos (advance 1 (advance 4 s)))
              (pos (advance 1 (advance 4 s)) + n)).
    now rewrite slice_remaining, (remaining_advance_cons L content _ Hr4). }
  assert (Hstr : (if 0 <? byte_val L
                  then decode_latin1 (firstn (Z.to_nat (byte_val L)) content)
                  else EmptyString)
                 = decode_latin1 (firstn (Z.to_nat (byte_val L)) content)).
  { destruct (Z.ltb_spec 0 (byte_val L)); [reflexivity|].
    replace (Z.to_nat (byte_val L)) with 0%nat by lia. reflexivity. }
  assert (Hrun : TestWriter.read_int_byte_string (data s) (pos s) =
            inr (decode_latin1 (firstn (Z.to_nat (byte_val L)) content),
                 (pos s + 4 + 1 + Z.to_nat u - 1)%nat)).
  { unfold TestWriter.read_int_byte_string. rewrite Hint, Hbyte, Hslice, Hstr.
    reflexivity. }
  split.
  - intros HS. split.
    + exact (read_int_byte_size_string_run s b0 b1 b2 b3 L content Hrem HS).
    + rewrite Hrun. do 2 f_equal. rewrite Hw in *. unfold to_signed in *.
      destruct (u <? 2 ^ (32 - 1)); lia.
  - intros HS. split.
    + apply (read_int_byte_size_string_empty s b0 b1 b2 b3 (L :: content) Hrem).
      change (word_val (b0, b1, b2, b3) <= 0). lia.
    + rewrite Hrun. do 2 f_equal. rewrite Hw in *. unfold to_signed in *.
      destruct (u <? 2 ^ (32 - 1)); lia.
Qed.

Lemma test_writer_int_byte_string_witness :
  read_int_byte_size_string (init [x00; x00; x00; x00; x02; x41; x42])
    = Ok EmptyString (advance 4 (init [x00; x00; x00; x00; x02; x41; x42])) /\
  TestWriter.read_int_byte_string [x00; x00; x00; x00; x02; x41; x42] 0
    = inr ("AB"%string, 4%nat).
Proof.
  exact (proj2 (test_writer_int_byte_string
                  (init [x00; x00; x00; x00; x02; x41; x42]) no_word x02
                  [x41; x42] eq_refl) eq_refl).
Defined.
